(** * Isolation game agent: heuristics, minimax, alpha-beta and the
      iterative-deepening driver of [game_agent.py]

    The development embeds the Python module shallowly.

    - A move is a pair of integers; the value [(-1, -1)] is the "no move"
      sentinel.  Python tuples are untyped, and one branch of [alphabeta]
      builds a pair whose second component is the previous best move, so the
      move component of a search result is a [pymove]: either a flat
      coordinate pair or such a nesting.
    - A score is a Python float.  The search only compares scores, so a
      score is [-inf], [+inf] or a finite value of a type [F] that comes with
      a three-way comparison [fcmp].  Where a proof needs the comparison to be
      a total order it assumes [float_order fcmp]: floats without NaN and
      with one zero, which is what the three heuristics produce.  The
      arithmetic of the heuristics is taken from a record of float operations
      on [F]; [binary64] instantiates it with the primitive floats.
    - Division by an [int] that is zero raises [ZeroDivisionError].
    - [isolation.Board] is an external collaborator: its methods are
      parameters of the sections below.
    - Exceptions are an [outcome]; the search runs in a state-and-exception
      monad whose state is the trace of clock readings, heuristic evaluations
      and forecasts made so far.  [self.time_left] is a function of the number
      of readings made before: any behaviour of the clock is some such
      function.
    - The depth of a search is a natural number (the module's callers pass
      positive depths).  The [while True] loop of [get_move] takes fuel. *)

From Stdlib Require Import List ZArith Bool Lia PeanoNat Floats Uint63.
Import ListNotations.

Set Implicit Arguments.

(** ** Moves *)

Definition coord : Type := (Z * Z)%type.

Definition NO_MOVE : coord := (-1, -1)%Z.

Definition coord_eqb (a b : coord) : bool :=
  (Z.eqb (fst a) (fst b) && Z.eqb (snd a) (snd b))%bool.

(** A Python value found in the move slot of a search result: [Flat (r, c)]
    is the tuple [(r, c)], [Nest m prev] is the tuple [(m, prev)] built by
    [next_move, overall_best_move]. *)
Inductive pymove : Type :=
| Flat (m : coord)
| Nest (m : coord) (prev : pymove).

(** ** Exceptions *)

Inductive exn : Type :=
| Timeout
| ZeroDivisionError.

Inductive outcome (A : Type) : Type :=
| Ret (a : A)
| Raise (e : exn).

Arguments Ret {A} a.
Arguments Raise {A} e.

Definition obind {A B : Type} (o : outcome A) (k : A -> outcome B) : outcome B :=
  match o with
  | Ret a => k a
  | Raise e => Raise e
  end.

(** ** Scores *)

Inductive score (F : Type) : Type :=
| NInf
| Fin (x : F)
| PInf.

Arguments NInf {F}.
Arguments Fin {F} x.
Arguments PInf {F}.

Section ScoreOrder.

Variable F : Type.
Variable fcmp : F -> F -> comparison.

Definition scmp (a b : score F) : comparison :=
  match a, b with
  | NInf, NInf => Eq
  | NInf, _ => Lt
  | _, NInf => Gt
  | PInf, PInf => Eq
  | PInf, _ => Gt
  | _, PInf => Lt
  | Fin x, Fin y => fcmp x y
  end.

(** [a < b], [a <= b], [a > b], [a >= b] on floats. *)
Definition ltb (a b : score F) : bool :=
  match scmp a b with Lt => true | _ => false end.

Definition leb (a b : score F) : bool :=
  match scmp a b with Gt => false | _ => true end.

Definition gtb (a b : score F) : bool := ltb b a.

Definition geb (a b : score F) : bool := leb b a.

(** The order of scores as propositions. *)
Definition slt (a b : score F) : Prop := scmp a b = Lt.

Definition sle (a b : score F) : Prop := scmp a b <> Gt.

(** What a search with window [(alpha, beta)] that returns [r] tells about
    the minimax value [v] of the same position: [r] falls on the same side
    of the window as [v], and is [v] when [v] is inside. *)
Definition within_window (alpha beta v r : score F) : Prop :=
  (sle v alpha -> sle r alpha)
  /\ (sle beta v -> sle beta r)
  /\ (slt alpha v -> slt v beta -> r = v).

(** Python's [max(a, b)] returns [a] unless [b > a]; [min(a, b)] returns
    [a] unless [b < a]. *)
Definition py_max (a b : score F) : score F := if gtb b a then b else a.

Definition py_min (a b : score F) : score F := if ltb b a then b else a.

End ScoreOrder.

(** The comparison of finite floats is a total order (no NaN is ever produced
    by the heuristics of this module). *)
Record float_order (F : Type) (fcmp : F -> F -> comparison) : Prop := {
  fcmp_eq : forall x y, fcmp x y = Eq <-> x = y;
  fcmp_opp : forall x y, fcmp y x = CompOpp (fcmp x y);
  fcmp_trans : forall x y z, fcmp x y = Lt -> fcmp y z = Lt -> fcmp x z = Lt
}.

(** ** Float arithmetic used by the heuristics *)

Record float_ops (F : Type) : Type := {
  of_int : Z -> F;
  fadd : F -> F -> F;
  fsub : F -> F -> F;
  fmul : F -> F -> F;
  fdiv : F -> F -> F;
  fsqrt : F -> F
}.

Definition len {A : Type} (l : list A) : Z := Z.of_nat (length l).

(** [not l] for a list [l]. *)
Definition is_empty {A : Type} (l : list A) : bool :=
  match l with [] => true | _ :: _ => false end.

(** ** The heuristics *)

Section Heuristics.

Variable F : Type.
Variable ops : float_ops F.

Variables Board Player : Type.
(** [game.get_legal_moves(player)] *)
Variable get_legal_moves : Board -> Player -> list coord.
Variable get_opponent : Board -> Player -> Player.
Variable get_blank_spaces : Board -> list coord.
Variable width : Board -> Z.
Variable height : Board -> Z.

(** [a / b] for two ints. *)
Definition int_truediv (a b : Z) : outcome F :=
  if Z.eqb b 0 then Raise ZeroDivisionError
  else Ret (fdiv ops (of_int ops a) (of_int ops b)).

(** [x / b] for a float [x] and an int [b]. *)
Definition float_div_int (x : F) (b : Z) : outcome F :=
  if Z.eqb b 0 then Raise ZeroDivisionError
  else Ret (fdiv ops x (of_int ops b)).

Definition calc_ratio_of_moves (game : Board) (player : Player)
  : outcome (score F) :=
  let player_factor := 1%Z in
  let opp_factor := 1%Z in
  let player_moves := get_legal_moves game player in
  let opp_moves := get_legal_moves game (get_opponent game player) in
  if is_empty opp_moves then Ret PInf
  else if is_empty player_moves then Ret NInf
  else
    obind (int_truediv (player_factor * len player_moves)
                       (opp_factor * len opp_moves))
          (fun q => Ret (Fin q)).

Definition calc_move_diff_with_spaces (game : Board) (player : Player)
  : outcome (score F) :=
  let player_factor := 1%Z in
  let opp_factor := 2%Z in
  let player_moves := get_legal_moves game player in
  let opp_moves := get_legal_moves game (get_opponent game player) in
  let open_spaces := len (get_blank_spaces game) in
  let total_spaces := (width game * height game)%Z in
  if is_empty opp_moves then Ret PInf
  else if is_empty player_moves then Ret NInf
  else
    obind (int_truediv total_spaces open_spaces)
          (fun q =>
             Ret (Fin (fsub ops
                         (fmul ops (of_int ops (player_factor * len player_moves)) q)
                         (of_int ops (opp_factor * len opp_moves))))).

(** The body of the two [for move in ...] loops of
    [calc_move_diff_from_center], with the running sum as accumulator. *)
Fixpoint center_weight (game : Board) (board_center : coord)
         (moves : list coord) (acc : F) : outcome F :=
  match moves with
  | [] => Ret acc
  | move :: rest =>
      if coord_eqb move (3, 3)%Z
      then center_weight game board_center rest (fadd ops acc (of_int ops 1))
      else
        obind (float_div_int
                 (fsqrt ops
                    (of_int ops ((fst board_center - fst move) ^ 2
                                 + (snd board_center - snd move) ^ 2)%Z))
                 (width game))
              (fun d =>
                 center_weight game board_center rest
                   (fadd ops acc (fsub ops (of_int ops 1) d)))
  end.

Definition calc_move_diff_from_center (game : Board) (player : Player)
  : outcome (score F) :=
  let player_factor := 1%Z in
  let opp_factor := 2%Z in
  let board_center := (width game / 2, height game / 2)%Z in
  let player_moves := get_legal_moves game player in
  obind (center_weight game board_center player_moves (of_int ops 0))
    (fun player_score =>
       let opp_moves := get_legal_moves game (get_opponent game player) in
       obind (center_weight game board_center opp_moves (of_int ops 0))
         (fun opp_score =>
            if is_empty opp_moves then Ret PInf
            else if is_empty player_moves then Ret NInf
            else Ret (Fin (fsub ops
                             (fmul ops (of_int ops player_factor) player_score)
                             (fmul ops (of_int ops opp_factor) opp_score))))).

Definition custom_score (game : Board) (player : Player) : outcome (score F) :=
  calc_move_diff_from_center game player.

End Heuristics.

(** ** The agent *)

Inductive search_method : Type :=
| Minimax
| AlphaBeta.

(** The attributes set by [CustomPlayer.__init__].  [player_id] is the agent
    as the board knows it: the [self] of [self.score(game, self)].  The
    scoring callable is taken to return a score on every board.  The clock
    readings and the threshold are only compared with each other, so they
    are integers here. *)
Record CustomPlayer (Board Player F : Type) : Type := {
  search_depth : nat;
  score_fn : Board -> Player -> score F;
  iterative : bool;
  method : search_method;
  TIMER_THRESHOLD : Z;
  player_id : Player
}.

(** What a run does is recorded as the sequence of its calls to the
    environment, oldest first: readings of the clock ([self.time_left()]),
    heuristic evaluations ([self.score(game, self)]) and forecasts
    ([game.forecast_move(move)]).  Every entry of [minimax] or [alphabeta]
    reads the clock exactly once, so the clock readings also count the search
    calls. *)
Inductive event (Board : Type) : Type :=
| ReadClock
| Evaluate (game : Board)
| Forecast (game : Board) (move : coord).

Arguments ReadClock {Board}.

Definition world (Board : Type) : Type := list (event Board).

Definition is_clock {Board : Type} (e : event Board) : bool :=
  match e with ReadClock => true | _ => false end.

Definition is_evaluation {Board : Type} (e : event Board) : bool :=
  match e with Evaluate _ => true | _ => false end.

Definition is_forecast {Board : Type} (e : event Board) : bool :=
  match e with Forecast _ _ => true | _ => false end.

Definition clock_reads {Board : Type} (w : world Board) : nat :=
  length (filter is_clock w).

Definition evaluations {Board : Type} (w : world Board) : nat :=
  length (filter is_evaluation w).

Definition forecasts {Board : Type} (w : world Board) : nat :=
  length (filter is_forecast w).

(** State-and-exception monad of the search. *)
Definition M (W A : Type) : Type := W -> outcome A * W.

Definition ret {W A : Type} (a : A) : M W A := fun w => (Ret a, w).

Definition bind {W A B : Type} (m : M W A) (k : A -> M W B) : M W B :=
  fun w =>
    match m w with
    | (Ret a, w') => k a w'
    | (Raise e, w') => (Raise e, w')
    end.

Declare Scope search_scope.
Delimit Scope search_scope with search.
Notation "x <- m ;; k" := (bind m (fun x => k))
  (at level 61, m at next level, right associativity) : search_scope.
Notation "' pat <- m ;; k" := (bind m (fun x => match x with pat => k end))
  (at level 61, pat pattern, m at next level, right associativity) : search_scope.

Section Search.

Variable F : Type.
Variable fcmp : F -> F -> comparison.

Variables Board Player : Type.
(** [game.get_legal_moves()]: the moves of the active player, in the
    board's enumeration order. *)
Variable get_legal_moves : Board -> list coord.
(** [game.forecast_move(move)] *)
Variable forecast_move : Board -> coord -> Board.

Variable self : CustomPlayer Board Player F.
(** [self.time_left]: the [n]-th reading of the clock, in milliseconds. *)
Variable time_left : nat -> Z.

Local Open Scope search_scope.

Local Abbreviation St := (M (world Board)).

(** Whether the [n]-th reading of the clock is below the threshold. *)
Definition expired (n : nat) : bool :=
  Z.ltb (time_left n) (TIMER_THRESHOLD self).

(** [if self.time_left() < self.TIMER_THRESHOLD: raise Timeout()] *)
Definition check_time : St unit :=
  fun w =>
    if expired (clock_reads w)
    then (Raise Timeout, w ++ [ReadClock])
    else (Ret tt, w ++ [ReadClock]).

(** [self.score(game, self)] *)
Definition evaluate (game : Board) : St (score F) :=
  fun w => (Ret (score_fn self game (player_id self)), w ++ [Evaluate game]).

Definition forecast (game : Board) (move : coord) : St Board :=
  fun w => (Ret (forecast_move game move), w ++ [Forecast game move]).

(** [in_time n evs]: every clock reading among the events [evs], the first
    of which is reading number [n], is at or above the threshold. *)
Fixpoint in_time (n : nat) (evs : list (event Board)) : bool :=
  match evs with
  | [] => true
  | ReadClock :: rest => negb (expired n) && in_time (S n) rest
  | _ :: rest => in_time n rest
  end.

(** The timeout discipline of a computation started in [w]: it only adds
    events; it returns exactly when all its clock readings are in time; it
    raises exactly when a reading is below the threshold, that reading is the
    last thing it does, and what it raises is [Timeout]. *)
Definition disciplined {A : Type} (w : world Board)
           (res : outcome A * world Board) : Prop :=
  exists evs,
    snd res = w ++ evs
    /\ match fst res with
       | Ret _ => in_time (clock_reads w) evs = true
       | Raise e =>
           e = Timeout
           /\ exists pre,
               evs = pre ++ [ReadClock]
               /\ in_time (clock_reads w) pre = true
               /\ expired (clock_reads w + clock_reads pre) = true
       end.

(** The guard at the entry of a call started in [w]: the first thing the
    call does is read the clock, and it raises there, having done nothing
    else, exactly when that reading is below the threshold. *)
Definition guarded_entry {A : Type} (w : world Board)
           (res : outcome A * world Board) : Prop :=
  exists evs,
    snd res = w ++ ReadClock :: evs
    /\ (expired (clock_reads w) = true
        <-> fst res = Raise Timeout /\ evs = []).

(** The [for next_move in possible_moves] loop of [minimax]; [rec] is the
    recursive call [self.minimax(_, depth - 1, not maximizing_player)]. *)
Fixpoint minimax_loop (rec : Board -> St (score F * pymove))
         (game : Board) (maximizing_player : bool)
         (possible_moves : list coord)
         (highest_move_diff : score F) (overall_best_move : pymove)
  : St (score F * pymove) :=
  match possible_moves with
  | [] => ret (highest_move_diff, overall_best_move)
  | next_move :: rest =>
      temp_board <- forecast game next_move ;;
      '(curr_move_diff, curr_best_move) <- rec temp_board ;;
      if maximizing_player then
        if gtb fcmp curr_move_diff highest_move_diff
        then minimax_loop rec game maximizing_player rest
                          curr_move_diff (Flat next_move)
        else minimax_loop rec game maximizing_player rest
                          highest_move_diff overall_best_move
      else
        if ltb fcmp curr_move_diff highest_move_diff
        then minimax_loop rec game maximizing_player rest
                          curr_move_diff (Flat next_move)
        else minimax_loop rec game maximizing_player rest
                          highest_move_diff overall_best_move
  end.

Fixpoint minimax (game : Board) (depth : nat) (maximizing_player : bool)
  : St (score F * pymove) :=
  _ <- check_time ;;
  let possible_moves := get_legal_moves game in
  match depth with
  | O =>
      score_diff <- evaluate game ;;
      ret (score_diff, Flat NO_MOVE)
  | S depth' =>
      if is_empty possible_moves then
        score_diff <- evaluate game ;;
        ret (score_diff, Flat NO_MOVE)
      else
        minimax_loop
          (fun temp_board => minimax temp_board depth' (negb maximizing_player))
          game maximizing_player possible_moves
          (if maximizing_player then NInf else PInf) (Flat NO_MOVE)
  end.

(** The loop of [alphabeta], with [alpha] and [beta] as loop state. *)
Fixpoint alphabeta_loop
         (rec : Board -> score F -> score F -> St (score F * pymove))
         (game : Board) (maximizing_player : bool)
         (possible_moves : list coord)
         (alpha beta : score F)
         (highest_move_diff : score F) (overall_best_move : pymove)
  : St (score F * pymove) :=
  match possible_moves with
  | [] => ret (highest_move_diff, overall_best_move)
  | next_move :: rest =>
      temp_board <- forecast game next_move ;;
      '(curr_move_diff, curr_best_move) <- rec temp_board alpha beta ;;
      if maximizing_player then
        let '(highest_move_diff, overall_best_move) :=
          if gtb fcmp curr_move_diff highest_move_diff
          then (curr_move_diff, Flat next_move)
          else (highest_move_diff, overall_best_move) in
        if geb fcmp highest_move_diff beta
        then ret (curr_move_diff, Flat next_move)
        else alphabeta_loop rec game maximizing_player rest
               (py_max fcmp alpha curr_move_diff) beta
               highest_move_diff overall_best_move
      else
        let '(highest_move_diff, overall_best_move) :=
          if ltb fcmp curr_move_diff highest_move_diff
          then (curr_move_diff, Nest next_move overall_best_move)
          else (highest_move_diff, overall_best_move) in
        if leb fcmp highest_move_diff alpha
        then ret (curr_move_diff, Flat next_move)
        else alphabeta_loop rec game maximizing_player rest
               alpha (py_min fcmp beta curr_move_diff)
               highest_move_diff overall_best_move
  end.

Fixpoint alphabeta (game : Board) (depth : nat) (alpha beta : score F)
         (maximizing_player : bool) : St (score F * pymove) :=
  _ <- check_time ;;
  let possible_moves := get_legal_moves game in
  match depth with
  | O =>
      score_diff <- evaluate game ;;
      ret (score_diff, Flat NO_MOVE)
  | S depth' =>
      if is_empty possible_moves then
        score_diff <- evaluate game ;;
        ret (score_diff, Flat NO_MOVE)
      else
        alphabeta_loop
          (fun temp_board a b =>
             alphabeta temp_board depth' a b (negb maximizing_player))
          game maximizing_player possible_moves alpha beta
          (if maximizing_player then NInf else PInf) (Flat NO_MOVE)
  end.

(** The call made inside each [try] of [get_move]: the configured method
    with its default arguments. *)
Definition top_level_search (game : Board) (depth : nat)
  : St (score F * pymove) :=
  match method self with
  | Minimax => minimax game depth true
  | AlphaBeta => alphabeta game depth NInf PInf true
  end.

(** The rounds of iterative deepening that complete before the first
    [Timeout]: [completed_rounds game d w rounds w'] when, starting at depth
    [d] in state [w], the searches at depths [d], [d + 1], ... return the
    results [rounds], one after the other, and the next one raises
    [Timeout], leaving the state [w']. *)
Inductive completed_rounds (game : Board)
  : nat -> world Board -> list (score F * pymove) -> world Board -> Prop :=
| rounds_cancelled d w w' :
    top_level_search game d w = (Raise Timeout, w') ->
    completed_rounds game d w [] w'
| rounds_completed d w r w1 rounds w' :
    top_level_search game d w = (Ret r, w1) ->
    completed_rounds game (S d) w1 rounds w' ->
    completed_rounds game d w (r :: rounds) w'.

(** The record kept over the completed rounds: a round replaces the best
    score and move only when its score is strictly greater than the best
    recorded before it; the record starts as [-inf] and the sentinel. *)
Definition best_recorded (rounds : list (score F * pymove))
  : score F * pymove :=
  fold_left
    (fun best round => if ltb fcmp (fst best) (fst round) then round else best)
    rounds (NInf, Flat NO_MOVE).

(** The [while True] loop of the iterative branch.  It only ends through
    [break]; [fuel] bounds the number of rounds and [None] stands for a loop
    that is still running when the fuel is spent.  [except Timeout] catches
    [Timeout] and lets any other exception through. *)
Fixpoint iterative_deepening (fuel : nat) (game : Board) (curr_depth : nat)
         (best_move_overall : pymove) (best_score_overall : score F)
         (w : world Board) : option (outcome pymove * world Board) :=
  match fuel with
  | O => None
  | S fuel' =>
      match top_level_search game curr_depth w with
      | (Ret (best_round_score, best_round_move), w') =>
          if ltb fcmp best_score_overall best_round_score
          then iterative_deepening fuel' game (curr_depth + 1)
                                   best_round_move best_round_score w'
          else iterative_deepening fuel' game (curr_depth + 1)
                                   best_move_overall best_score_overall w'
      | (Raise Timeout, w') => Some (Ret best_move_overall, w')
      | (Raise e, w') => Some (Raise e, w')
      end
  end.

Definition get_move (fuel : nat) (game : Board) (legal_moves : list coord)
           (w : world Board) : option (outcome pymove * world Board) :=
  if is_empty legal_moves then Some (Ret (Flat NO_MOVE), w)
  else if iterative self then
    iterative_deepening fuel game 1 (Flat NO_MOVE) NInf w
  else
    match top_level_search game (search_depth self) w with
    | (Ret (best_score_overall, best_move_overall), w') =>
        Some (Ret best_move_overall, w')
    | (Raise Timeout, w') => Some (Ret (Flat NO_MOVE), w')
    | (Raise e, w') => Some (Raise e, w')
    end.

End Search.

(** ** Search results when the timer never fires

    [minimax_result] and [alphabeta_result] are [minimax] and [alphabeta]
    without the clock and the counters: the pair a call returns when no
    [Timeout] is raised (lemmas [minimax_returns] and [alphabeta_returns]). *)

Section SearchResult.

Variable F : Type.
Variable fcmp : F -> F -> comparison.
Variables Board Player : Type.
Variable get_legal_moves : Board -> list coord.
Variable forecast_move : Board -> coord -> Board.
Variable self : CustomPlayer Board Player F.

Fixpoint minimax_fold (rec : Board -> score F * pymove)
         (game : Board) (maximizing_player : bool)
         (possible_moves : list coord)
         (highest_move_diff : score F) (overall_best_move : pymove)
  : score F * pymove :=
  match possible_moves with
  | [] => (highest_move_diff, overall_best_move)
  | next_move :: rest =>
      let curr_move_diff := fst (rec (forecast_move game next_move)) in
      if maximizing_player then
        if gtb fcmp curr_move_diff highest_move_diff
        then minimax_fold rec game maximizing_player rest
                          curr_move_diff (Flat next_move)
        else minimax_fold rec game maximizing_player rest
                          highest_move_diff overall_best_move
      else
        if ltb fcmp curr_move_diff highest_move_diff
        then minimax_fold rec game maximizing_player rest
                          curr_move_diff (Flat next_move)
        else minimax_fold rec game maximizing_player rest
                          highest_move_diff overall_best_move
  end.

Fixpoint minimax_result (game : Board) (depth : nat)
         (maximizing_player : bool) : score F * pymove :=
  match depth with
  | O => (score_fn self game (player_id self), Flat NO_MOVE)
  | S depth' =>
      if is_empty (get_legal_moves game)
      then (score_fn self game (player_id self), Flat NO_MOVE)
      else
        minimax_fold
          (fun temp_board =>
             minimax_result temp_board depth' (negb maximizing_player))
          game maximizing_player (get_legal_moves game)
          (if maximizing_player then NInf else PInf) (Flat NO_MOVE)
  end.

Fixpoint alphabeta_fold
         (rec : Board -> score F -> score F -> score F * pymove)
         (game : Board) (maximizing_player : bool)
         (possible_moves : list coord)
         (alpha beta : score F)
         (highest_move_diff : score F) (overall_best_move : pymove)
  : score F * pymove :=
  match possible_moves with
  | [] => (highest_move_diff, overall_best_move)
  | next_move :: rest =>
      let curr_move_diff :=
        fst (rec (forecast_move game next_move) alpha beta) in
      if maximizing_player then
        let '(highest_move_diff, overall_best_move) :=
          if gtb fcmp curr_move_diff highest_move_diff
          then (curr_move_diff, Flat next_move)
          else (highest_move_diff, overall_best_move) in
        if geb fcmp highest_move_diff beta
        then (curr_move_diff, Flat next_move)
        else alphabeta_fold rec game maximizing_player rest
               (py_max fcmp alpha curr_move_diff) beta
               highest_move_diff overall_best_move
      else
        let '(highest_move_diff, overall_best_move) :=
          if ltb fcmp curr_move_diff highest_move_diff
          then (curr_move_diff, Nest next_move overall_best_move)
          else (highest_move_diff, overall_best_move) in
        if leb fcmp highest_move_diff alpha
        then (curr_move_diff, Flat next_move)
        else alphabeta_fold rec game maximizing_player rest
               alpha (py_min fcmp beta curr_move_diff)
               highest_move_diff overall_best_move
  end.

Fixpoint alphabeta_result (game : Board) (depth : nat)
         (alpha beta : score F) (maximizing_player : bool)
  : score F * pymove :=
  match depth with
  | O => (score_fn self game (player_id self), Flat NO_MOVE)
  | S depth' =>
      if is_empty (get_legal_moves game)
      then (score_fn self game (player_id self), Flat NO_MOVE)
      else
        alphabeta_fold
          (fun temp_board a b =>
             alphabeta_result temp_board depth' a b (negb maximizing_player))
          game maximizing_player (get_legal_moves game) alpha beta
          (if maximizing_player then NInf else PInf) (Flat NO_MOVE)
  end.

End SearchResult.

(** ** Concrete boards, players and clocks

    Inputs on which the functions above are run: a game tree whose nodes carry
    the score the heuristic gives them, and a position record with the data
    the three heuristics read. *)

(** A game tree as board: the legal moves of a node are the moves that label
    its children, in order, and forecasting a move gives the child. *)
#[local] Unset Elimination Schemes.
Inductive tree : Type :=
| Node (value : score Z) (children : list (coord * tree)).
#[local] Set Elimination Schemes.

Definition tree_value (t : tree) : score Z :=
  match t with Node v _ => v end.

Definition tree_moves (t : tree) : list coord :=
  match t with Node _ cs => map fst cs end.

Definition tree_forecast (t : tree) (m : coord) : tree :=
  match t with
  | Node _ cs =>
      match find (fun c => coord_eqb (fst c) m) cs with
      | Some c => snd c
      | None => t
      end
  end.

Definition leaf (v : Z) : tree := Node (Fin v) [].

(** An agent on game trees whose heuristic reads the value of the node. *)
Definition tree_agent (depth : nat) (it : bool) (m : search_method)
           (threshold : Z) : CustomPlayer tree unit Z :=
  {| search_depth := depth;
     score_fn := fun t _ => tree_value t;
     iterative := it;
     method := m;
     TIMER_THRESHOLD := threshold;
     player_id := tt |}.

(** A clock that never runs low, and one that loses 10 ms per reading. *)
Definition steady_clock (n : nat) : Z := 100%Z.

Definition draining_clock (start : Z) (n : nat) : Z :=
  (start - 10 * Z.of_nat n)%Z.

(** Two legal moves whose one-ply values are 5 and 3. *)
Definition two_moves : tree :=
  Node (Fin 0%Z) [((0, 0)%Z, leaf 5); ((0, 1)%Z, leaf 3)].

(** A position the agent has lost: the heuristic gives [-inf], and the
    opponent, who is to move, still has a move. *)
Definition lost : tree := Node NInf [((2, 2)%Z, Node NInf [])].

(** The agent is to move and has two legal moves, both into lost positions. *)
Definition all_lost : tree :=
  Node (Fin 0%Z) [((0, 0)%Z, lost); ((0, 1)%Z, lost)].

(** At depth 1 the first move looks best (5 against 4); at depth 2 the second
    one does (1 against 2). *)
Definition second_thoughts : tree :=
  Node (Fin 0%Z)
       [((0, 0)%Z, Node (Fin 5%Z) [((1, 0)%Z, leaf 1)]);
        ((0, 1)%Z, Node (Fin 4%Z) [((1, 1)%Z, leaf 2)])].

(** A minimizing node below the root with two improving children. *)
Definition two_plies : tree :=
  Node (Fin 0%Z) [((1, 1)%Z, two_moves)].

(** The root's first reply is worth 3; the second is refuted by its first
    child, so alpha-beta cuts the second child of the second reply off. *)
Definition with_cutoff : tree :=
  Node (Fin 0%Z)
       [((0, 0)%Z, Node (Fin 0%Z) [((1, 0)%Z, leaf 3); ((1, 1)%Z, leaf 4)]);
        ((0, 1)%Z, Node (Fin 0%Z) [((2, 0)%Z, leaf 2); ((2, 1)%Z, leaf 9)])].

(** What the heuristics read from a board. *)
Record position : Type := {
  moves_1 : list coord;
  moves_2 : list coord;
  blank_spaces : list coord;
  pos_width : Z;
  pos_height : Z
}.

Inductive side : Type :=
| Player1
| Player2.

Definition position_moves (p : position) (s : side) : list coord :=
  match s with Player1 => moves_1 p | Player2 => moves_2 p end.

Definition position_opponent (p : position) (s : side) : side :=
  match s with Player1 => Player2 | Player2 => Player1 end.

(** Both players are boxed in. *)
Definition both_stuck : position :=
  {| moves_1 := []; moves_2 := []; blank_spaces := [(6, 6)%Z];
     pos_width := 7; pos_height := 7 |}.

(** Player 1 has two moves, player 2 none. *)
Definition opponent_stuck : position :=
  {| moves_1 := [(2, 3)%Z; (3, 3)%Z]; moves_2 := [];
     blank_spaces := [(2, 3)%Z; (3, 3)%Z; (6, 6)%Z];
     pos_width := 7; pos_height := 7 |}.

(** Player 1 has no move, player 2 has one. *)
Definition player_stuck : position :=
  {| moves_1 := []; moves_2 := [(4, 5)%Z];
     blank_spaces := [(4, 5)%Z; (0, 0)%Z];
     pos_width := 7; pos_height := 7 |}.

(** Binary64 arithmetic. *)
Definition float_of_int (z : Z) : PrimFloat.float :=
  match z with
  | Z0 => PrimFloat.zero
  | Zpos _ => PrimFloat.of_uint63 (Uint63.of_Z z)
  | Zneg p => PrimFloat.opp (PrimFloat.of_uint63 (Uint63.of_Z (Zpos p)))
  end.

Definition binary64 : float_ops PrimFloat.float :=
  {| of_int := float_of_int;
     fadd := PrimFloat.add;
     fsub := PrimFloat.sub;
     fmul := PrimFloat.mul;
     fdiv := PrimFloat.div;
     fsqrt := PrimFloat.sqrt |}.

(** ** Bookkeeping of a run

    [tallied k w res]: the run started in [w] with result [res] only added
    events, among them [k] more clock readings than forecasts, and no more
    evaluations than clock readings. *)
Definition tallied {Board A : Type} (k : nat) (w : world Board)
           (res : outcome A * world Board) : Prop :=
  exists evs,
    snd res = w ++ evs
    /\ clock_reads evs = forecasts evs + k
    /\ evaluations evs <= clock_reads evs.

(** [subsequence l1 l2]: [l1] is [l2] with some elements left out, the order
    kept. *)
Inductive subsequence {A : Type} : list A -> list A -> Prop :=
| subsequence_nil : subsequence [] []
| subsequence_skip x l1 l2 : subsequence l1 l2 -> subsequence l1 (x :: l2)
| subsequence_keep x l1 l2 : subsequence l1 l2 -> subsequence (x :: l1) (x :: l2).

(** A move value that is a flat coordinate pair, either the sentinel or one
    of [moves]. *)
Definition sentinel_or_legal (moves : list coord) (mv : pymove) : Prop :=
  exists m, mv = Flat m /\ (m = NO_MOVE \/ In m moves).

(** [ends_within get_legal_moves forecast_move game d]: every line of play
    from [game] runs out of legal moves within [d] plies. *)
Inductive ends_within {Board : Type}
          (get_legal_moves : Board -> list coord)
          (forecast_move : Board -> coord -> Board)
  : Board -> nat -> Prop :=
| ends_now game d :
    get_legal_moves game = [] ->
    ends_within get_legal_moves forecast_move game d
| ends_later game d :
    (forall m, In m (get_legal_moves game) ->
               ends_within get_legal_moves forecast_move
                           (forecast_move game m) d) ->
    ends_within get_legal_moves forecast_move game (S d).

(** ** The loop of [alphabeta] up to a cutoff

    The running best of a node after a child scored [v]: [v] where it is
    strictly better for the node, the old one otherwise. *)
Definition running_best {F : Type} (fcmp : F -> F -> comparison)
           (mx : bool) (h v : score F) : score F :=
  if mx then (if gtb fcmp v h then v else h)
  else (if ltb fcmp v h then v else h).

(** The cutoff test: at a maximizing node the running best reaches or
    exceeds [beta], at a minimizing node it reaches or falls below
    [alpha]. *)
Definition reaches_bound {F : Type} (fcmp : F -> F -> comparison)
           (mx : bool) (al be h : score F) : bool :=
  if mx then geb fcmp h be else leb fcmp h al.

(** [scanned ... game depth mx pre al be h w al' be' h' w']: a node of
    [alphabeta] on [game], with [depth] plies left below it, went through
    the moves [pre] without a cutoff.  It started with the window [al],
    [be], the running best [h] and the trace [w]; each move was forecast, the
    call of [alphabeta] on the forecast board returned, the running best
    after it stayed short of the bound, and the window was narrowed by the
    child's score; after the last of them the window is [al'], [be'], the
    running best [h'] and the trace [w']. *)
Inductive scanned {F Board Player : Type} (fcmp : F -> F -> comparison)
          (get_legal_moves : Board -> list coord)
          (forecast_move : Board -> coord -> Board)
          (self : CustomPlayer Board Player F) (time_left : nat -> Z)
          (game : Board) (depth : nat) (mx : bool)
  : list coord -> score F -> score F -> score F -> world Board ->
    score F -> score F -> score F -> world Board -> Prop :=
| scanned_none al be h w :
    scanned fcmp get_legal_moves forecast_move self time_left game depth mx
            [] al be h w al be h w
| scanned_more m pre al be h w v cm w1 al' be' h' w' :
    alphabeta fcmp get_legal_moves forecast_move self time_left
              (forecast_move game m) depth al be (negb mx)
              (w ++ [Forecast game m])
    = (Ret (v, cm), w1) ->
    reaches_bound fcmp mx al be (running_best fcmp mx h v) = false ->
    scanned fcmp get_legal_moves forecast_move self time_left game depth mx
            pre
            (if mx then py_max fcmp al v else al)
            (if mx then be else py_min fcmp be v)
            (running_best fcmp mx h v) w1 al' be' h' w' ->
    scanned fcmp get_legal_moves forecast_move self time_left game depth mx
            (m :: pre) al be h w al' be' h' w'.

(** Three plies.  The first reply is worth 5.  Under the second reply the
    first answer is worth 8 and the second one 4, which is below the 5
    already in hand: alpha-beta gives the second reply up there and never
    looks at its third answer. *)
Definition three_plies : tree :=
  Node (Fin 0%Z)
       [((0, 0)%Z,
         Node (Fin 0%Z)
              [((1, 0)%Z, Node (Fin 0%Z) [((2, 0)%Z, leaf 3);
                                          ((2, 1)%Z, leaf 5)]);
               ((1, 1)%Z, Node (Fin 0%Z) [((2, 2)%Z, leaf 6);
                                          ((2, 3)%Z, leaf 4)])]);
        ((0, 1)%Z,
         Node (Fin 0%Z)
              [((3, 0)%Z, Node (Fin 0%Z) [((4, 0)%Z, leaf 7);
                                          ((4, 1)%Z, leaf 8)]);
               ((3, 1)%Z, Node (Fin 0%Z) [((4, 2)%Z, leaf 2);
                                          ((4, 3)%Z, leaf 4)]);
               ((3, 2)%Z, Node (Fin 0%Z) [((4, 4)%Z, leaf 9);
                                          ((4, 5)%Z, leaf 1)])])].

(** The second reply of [three_plies], where the minimizing player is to
    move, and what a call of [alphabeta] on it does: [first_answer] while it
    searches the first answer, [second_answer] while it searches the
    second. *)
Definition second_reply : tree := tree_forecast three_plies (0, 1)%Z.

Definition first_answer : world tree :=
  [ReadClock;
   Forecast second_reply (3, 0)%Z; ReadClock;
   Forecast (tree_forecast second_reply (3, 0)%Z) (4, 0)%Z;
   ReadClock; Evaluate (leaf 7);
   Forecast (tree_forecast second_reply (3, 0)%Z) (4, 1)%Z;
   ReadClock; Evaluate (leaf 8)].

Definition second_answer : world tree :=
  [Forecast second_reply (3, 1)%Z; ReadClock;
   Forecast (tree_forecast second_reply (3, 1)%Z) (4, 2)%Z;
   ReadClock; Evaluate (leaf 2);
   Forecast (tree_forecast second_reply (3, 1)%Z) (4, 3)%Z;
   ReadClock; Evaluate (leaf 4)].

(** ** The shape of a search's trace *)

(** Whether a run returned, as opposed to raising. *)
Definition returned {A : Type} (o : outcome A) : bool :=
  match o with
  | Ret _ => true
  | Raise _ => false
  end.

(** [expanded forecast_move child game moves done evs]: [evs] is what a
    loop over [moves] does at [game].  Each move is forecast from [game] and
    followed at once by the events of one call on the forecast board, as
    [child] tells them; the calls before the last are complete, and [done]
    tells whether the last one is. *)
Inductive expanded {Board : Type} (forecast_move : Board -> coord -> Board)
          (child : Board -> bool -> list (event Board) -> Prop) (game : Board)
  : list coord -> bool -> list (event Board) -> Prop :=
| expanded_none : expanded forecast_move child game [] true []
| expanded_cut m evs :
    child (forecast_move game m) false evs ->
    expanded forecast_move child game [m] false (Forecast game m :: evs)
| expanded_more m ms done evs1 evs2 :
    child (forecast_move game m) true evs1 ->
    expanded forecast_move child game ms done evs2 ->
    expanded forecast_move child game (m :: ms) done
             (Forecast game m :: evs1 ++ evs2).

(** [visit get_legal_moves forecast_move pruning depth game done evs]: [evs]
    is the trace of one call of the search on [game] with [depth] plies to
    go, complete ([done = true]) or cut short by [Timeout].  It begins with
    the reading of the clock.  A call cut short at that reading does nothing
    else.  A call at depth 0, or on a board without legal moves, evaluates
    its own board and is complete.  Any other call expands the first legal
    moves of its board, in their order and at least one, one ply shallower;
    a complete call that does not prune expands them all. *)
Fixpoint visit {Board : Type} (get_legal_moves : Board -> list coord)
         (forecast_move : Board -> coord -> Board) (pruning : bool)
         (depth : nat) (game : Board) (done : bool)
         (evs : list (event Board)) : Prop :=
  (done = false /\ evs = [ReadClock])
  \/ match depth with
     | O => done = true /\ evs = [ReadClock; Evaluate game]
     | S depth' =>
         if is_empty (get_legal_moves game)
         then done = true /\ evs = [ReadClock; Evaluate game]
         else exists moves rest evs',
             get_legal_moves game = moves ++ rest
             /\ moves <> []
             /\ (done = true -> pruning = false -> rest = [])
             /\ evs = ReadClock :: evs'
             /\ expanded forecast_move
                         (visit get_legal_moves forecast_move pruning depth')
                         game moves done evs'
     end.

(** [visits ... pruning depth game w res]: the run started in [w] with
    result [res] added to the trace the events of one call on [game], complete
    if it returned and cut short if it raised. *)
Definition visits {Board A : Type} (get_legal_moves : Board -> list coord)
           (forecast_move : Board -> coord -> Board) (pruning : bool)
           (depth : nat) (game : Board) (w : world Board)
           (res : outcome A * world Board) : Prop :=
  exists evs,
    snd res = w ++ evs
    /\ visit get_legal_moves forecast_move pruning depth game
             (returned (fst res)) evs.

(** * Properties *)

(** ** The order of scores *)

Section OrderFacts.

Variable F : Type.
Variable fcmp : F -> F -> comparison.
Hypothesis fcmp_total : float_order fcmp.

Local Abbreviation cmp := (scmp fcmp).
Local Abbreviation lt := (slt fcmp).
Local Abbreviation le := (sle fcmp).

Lemma scmp_eq_iff (a b : score F) : cmp a b = Eq <-> a = b.
Proof using fcmp_total.
  destruct a as [|x|], b as [|y|]; simpl; split; intro H;
    try reflexivity; try discriminate.
  - f_equal. now apply (fcmp_eq fcmp_total).
  - apply (fcmp_eq fcmp_total). now inversion H.
Qed.

Lemma scmp_opp (a b : score F) : cmp b a = CompOpp (cmp a b).
Proof using fcmp_total.
  destruct a as [|x|], b as [|y|]; simpl; try reflexivity.
  apply (fcmp_opp fcmp_total).
Qed.

Lemma slt_trans (a b c : score F) : lt a b -> lt b c -> lt a c.
Proof using fcmp_total.
  unfold slt.
  destruct a as [|x|], b as [|y|], c as [|z|]; simpl; intros H1 H2;
    try reflexivity; try discriminate.
  eapply (fcmp_trans fcmp_total); eassumption.
Qed.

Lemma slt_irrefl (a : score F) : ~ lt a a.
Proof using fcmp_total.
  unfold slt. intro H.
  assert (E : cmp a a = Eq) by now apply scmp_eq_iff.
  congruence.
Qed.

Lemma slt_trichotomy (a b : score F) : lt a b \/ a = b \/ lt b a.
Proof using fcmp_total.
  unfold slt. rewrite (scmp_opp a b).
  destruct (cmp a b) eqn:E; simpl; auto.
  right; left. now apply scmp_eq_iff.
Qed.

Lemma sle_iff (a b : score F) : le a b <-> lt a b \/ a = b.
Proof using fcmp_total.
  unfold sle, slt. split.
  - destruct (cmp a b) eqn:E; intro H; auto; try congruence.
    right. now apply scmp_eq_iff.
  - intros [H | H] G; [congruence|].
    apply scmp_eq_iff in H. congruence.
Qed.

Lemma not_sle_iff (a b : score F) : ~ le a b <-> lt b a.
Proof using fcmp_total.
  unfold sle, slt. rewrite (scmp_opp a b).
  destruct (cmp a b); simpl; split; intro H; try congruence.
  - exfalso; apply H; discriminate.
  - exfalso; apply H; discriminate.
Qed.

Lemma ltb_true_iff (a b : score F) : ltb fcmp a b = true <-> lt a b.
Proof.
  unfold ltb, slt. destruct (cmp a b); split; congruence.
Qed.

Lemma ltb_false_iff (a b : score F) : ltb fcmp a b = false <-> le b a.
Proof using fcmp_total.
  unfold ltb, sle. rewrite (scmp_opp a b).
  destruct (cmp a b); simpl; split; congruence.
Qed.

Lemma leb_true_iff (a b : score F) : leb fcmp a b = true <-> le a b.
Proof.
  unfold leb, sle. destruct (cmp a b); split; congruence.
Qed.

Lemma leb_false_iff (a b : score F) : leb fcmp a b = false <-> lt b a.
Proof using fcmp_total.
  unfold leb, slt. rewrite (scmp_opp a b).
  destruct (cmp a b); simpl; split; congruence.
Qed.

Lemma not_slt_iff (a b : score F) : ~ lt a b <-> le b a.
Proof using fcmp_total.
  unfold sle, slt. rewrite (scmp_opp a b).
  destruct (cmp a b); simpl; split; intro H; try congruence.
Qed.

Lemma slt_sle_trans (a b c : score F) : lt a b -> le b c -> lt a c.
Proof using fcmp_total.
  intros H1 H2. apply sle_iff in H2. destruct H2 as [H2 | H2].
  - eapply slt_trans; eassumption.
  - now subst.
Qed.

Lemma sle_slt_trans (a b c : score F) : le a b -> lt b c -> lt a c.
Proof using fcmp_total.
  intros H1 H2. apply sle_iff in H1. destruct H1 as [H1 | H1].
  - eapply slt_trans; eassumption.
  - now subst.
Qed.

Lemma sle_antisym (a b : score F) : le a b -> le b a -> a = b.
Proof using fcmp_total.
  intros H1 H2. apply sle_iff in H1. destruct H1 as [H1 | H1]; [|assumption].
  exfalso. apply (slt_irrefl (a := a)). eapply slt_sle_trans; eassumption.
Qed.

Lemma sle_refl (a : score F) : le a a.
Proof using fcmp_total. apply sle_iff. now right. Qed.

Lemma sle_PInf (a : score F) : le PInf a -> a = PInf.
Proof using fcmp_total. destruct a; unfold sle; simpl; congruence. Qed.

Lemma sle_NInf (a : score F) : le a NInf -> a = NInf.
Proof using fcmp_total. destruct a; unfold sle; simpl; congruence. Qed.

Lemma slt_NInf (a : score F) : ~ lt a NInf.
Proof. destruct a; unfold slt; simpl; congruence. Qed.

Lemma NInf_least (a : score F) : a = NInf \/ lt NInf a.
Proof. destruct a; unfold slt; simpl; auto. Qed.

Lemma PInf_greatest (a : score F) : a = PInf \/ lt a PInf.
Proof. destruct a; unfold slt; simpl; auto. Qed.

End OrderFacts.

(** Decision of a goal about a few scores: comparisons become [slt] and
    [sle] facts, the goal is refuted, the strict facts are closed under
    composition with the others, and a cycle [slt a a] ends the case. *)
Ltac order_ifs :=
  repeat match goal with
    | H : context [if ltb ?c ?a ?b then _ else _] |- _ =>
        destruct (ltb c a b) eqn:?
    | |- context [if ltb ?c ?a ?b then _ else _] =>
        destruct (ltb c a b) eqn:?
    | H : context [if leb ?c ?a ?b then _ else _] |- _ =>
        destruct (leb c a b) eqn:?
    | |- context [if leb ?c ?a ?b then _ else _] =>
        destruct (leb c a b) eqn:?
    end.

Ltac order_bools H0 :=
  repeat match goal with
    | H : ltb _ _ _ = true |- _ => apply (ltb_true_iff) in H
    | H : ltb _ _ _ = false |- _ => apply (ltb_false_iff H0) in H
    | H : leb _ _ _ = true |- _ => apply (leb_true_iff) in H
    | H : leb _ _ _ = false |- _ => apply (leb_false_iff H0) in H
    | |- ltb _ _ _ = true => apply (ltb_true_iff)
    | |- ltb _ _ _ = false => apply (ltb_false_iff H0)
    | |- leb _ _ _ = true => apply (leb_true_iff)
    | |- leb _ _ _ = false => apply (leb_false_iff H0)
    end.

Ltac order_norm H0 :=
  repeat match goal with
    | H : ~ sle _ _ _ |- _ => apply (not_sle_iff H0) in H
    | H : ~ slt _ _ _ |- _ => apply (not_slt_iff H0) in H
    | H : _ /\ _ |- _ => destruct H
    | H : _ \/ _ |- _ => destruct H
    | H : sle _ PInf _ |- _ => apply (sle_PInf H0) in H
    | H : sle _ _ NInf |- _ => apply (sle_NInf H0) in H
    | H : @eq (score _) ?a ?b |- _ => first [subst a | subst b]
    end.

Ltac order_saturate H0 :=
  repeat match goal with
    | H1 : slt ?c ?a ?b, H2 : slt ?c ?b ?d |- _ =>
        lazymatch goal with
        | _ : slt c a d |- _ => fail
        | _ => pose proof (slt_trans H0 H1 H2)
        end
    | H1 : slt ?c ?a ?b, H2 : sle ?c ?b ?d |- _ =>
        lazymatch goal with
        | _ : slt c a d |- _ => fail
        | _ => pose proof (slt_sle_trans H0 H1 H2)
        end
    | H1 : sle ?c ?a ?b, H2 : slt ?c ?b ?d |- _ =>
        lazymatch goal with
        | _ : slt c a d |- _ => fail
        | _ => pose proof (sle_slt_trans H0 H1 H2)
        end
    end.

Ltac order_found H0 :=
  match goal with
  | H : slt _ ?a ?a |- _ => exact (False_ind _ (slt_irrefl H0 H))
  | H : slt _ PInf _ |- _ => discriminate H
  | H : slt _ _ NInf |- _ => destruct (slt_NInf H)
  end.

Ltac order_close H0 :=
  first [order_found H0 | order_saturate H0; order_found H0].

Ltac order_goal H0 :=
  lazymatch goal with
  | |- slt _ ?a ?b => apply (not_sle_iff H0); intro
  | |- sle _ ?a ?b => apply (not_slt_iff H0); intro
  | |- ~ _ => intro
  | |- False => idtac
  end.

Ltac order_atom H0 :=
  order_goal H0; order_norm H0; order_close H0.

Ltac order H0 :=
  unfold py_max, py_min in *; unfold gtb, geb in *; order_ifs;
  order_bools H0; order_norm H0;
  lazymatch goal with
  | |- @eq (score _) ?a ?b =>
      first [ reflexivity
            | apply (sle_antisym H0); order_atom H0 ]
  | |- _ => order_atom H0
  end.

(** ** A run that returns, returns the result of the clock-free search *)

Section Runs.

Variable F : Type.
Variable fcmp : F -> F -> comparison.
Variables Board Player : Type.
Variable get_legal_moves : Board -> list coord.
Variable forecast_move : Board -> coord -> Board.
Variable self : CustomPlayer Board Player F.
Variable time_left : nat -> Z.

Local Abbreviation mm :=
  (minimax fcmp get_legal_moves forecast_move self time_left).
Local Abbreviation ab :=
  (alphabeta fcmp get_legal_moves forecast_move self time_left).
Local Abbreviation mm_res :=
  (minimax_result fcmp get_legal_moves forecast_move self).
Local Abbreviation ab_res :=
  (alphabeta_result fcmp get_legal_moves forecast_move self).

Lemma bind_Ret {W A B : Type} (m : M W A) (k : A -> M W B) w r w' :
  bind m k w = (Ret r, w') ->
  exists a w1, m w = (Ret a, w1) /\ k a w1 = (Ret r, w').
Proof.
  unfold bind. destruct (m w) as [[a | e] w1]; intro H.
  - now exists a, w1.
  - discriminate.
Qed.

Lemma minimax_loop_returns
      (rec : Board -> M (world Board) (score F * pymove))
      (recp : Board -> score F * pymove) :
  (forall b w r w', rec b w = (Ret r, w') -> r = recp b) ->
  forall game mx ms h best w r w',
    minimax_loop fcmp forecast_move rec game mx ms h best w = (Ret r, w') ->
    r = minimax_fold fcmp forecast_move recp game mx ms h best.
Proof.
  intros Hrec game mx ms.
  induction ms as [|m rest IH]; intros h best w r w' H; simpl in *.
  - inversion H; reflexivity.
  - apply bind_Ret in H. destruct H as (tb & w1 & Hf & H).
    inversion Hf; subst tb w1; clear Hf.
    apply bind_Ret in H. destruct H as ([cur cb] & w2 & Hc & H).
    apply Hrec in Hc. rewrite <- Hc. simpl.
    destruct mx.
    + destruct (gtb fcmp cur h); eapply IH; eassumption.
    + destruct (ltb fcmp cur h); eapply IH; eassumption.
Qed.

Lemma minimax_unfold game depth mx :
  mm game depth mx =
  bind (check_time self time_left)
    (fun _ =>
       match depth with
       | O => bind (evaluate self game) (fun s => ret (s, Flat NO_MOVE))
       | S d =>
           if is_empty (get_legal_moves game)
           then bind (evaluate self game) (fun s => ret (s, Flat NO_MOVE))
           else minimax_loop fcmp forecast_move
                  (fun b => mm b d (negb mx)) game mx (get_legal_moves game)
                  (if mx then NInf else PInf) (Flat NO_MOVE)
       end).
Proof. destruct depth; reflexivity. Qed.

Lemma alphabeta_unfold game depth al be mx :
  ab game depth al be mx =
  bind (check_time self time_left)
    (fun _ =>
       match depth with
       | O => bind (evaluate self game) (fun s => ret (s, Flat NO_MOVE))
       | S d =>
           if is_empty (get_legal_moves game)
           then bind (evaluate self game) (fun s => ret (s, Flat NO_MOVE))
           else alphabeta_loop fcmp forecast_move
                  (fun b a0 b0 => ab b d a0 b0 (negb mx)) game mx
                  (get_legal_moves game) al be
                  (if mx then NInf else PInf) (Flat NO_MOVE)
       end).
Proof. destruct depth; reflexivity. Qed.

Lemma minimax_returns game depth mx w r w' :
  mm game depth mx w = (Ret r, w') -> r = mm_res game depth mx.
Proof.
  revert game mx w r w'.
  induction depth as [|d IH]; intros game mx w r w' H;
    rewrite minimax_unfold in H; simpl.
  - apply bind_Ret in H. destruct H as (u & w1 & _ & H).
    apply bind_Ret in H. destruct H as (s & w2 & He & H).
    inversion He; inversion H; subst; reflexivity.
  - apply bind_Ret in H. destruct H as (u & w1 & _ & H).
    destruct (is_empty (get_legal_moves game)).
    + apply bind_Ret in H. destruct H as (s & w2 & He & H).
      inversion He; inversion H; subst; reflexivity.
    + apply (minimax_loop_returns
               (fun b => mm b d (negb mx))
               (fun b => mm_res b d (negb mx))) with (w := w1) (w' := w');
        [|exact H].
      intros b w0 r0 w0' H0. exact (IH _ _ _ _ _ H0).
Qed.

Lemma alphabeta_loop_returns
      (rec : Board -> score F -> score F -> M (world Board) (score F * pymove))
      (recp : Board -> score F -> score F -> score F * pymove) :
  (forall b al be w r w', rec b al be w = (Ret r, w') -> r = recp b al be) ->
  forall game mx ms al be h best w r w',
    alphabeta_loop fcmp forecast_move rec game mx ms al be h best w
    = (Ret r, w') ->
    r = alphabeta_fold fcmp forecast_move recp game mx ms al be h best.
Proof.
  intros Hrec game mx ms.
  induction ms as [|m rest IH]; intros al be h best w r w' H; simpl in *.
  - inversion H; reflexivity.
  - apply bind_Ret in H. destruct H as (tb & w1 & Hf & H).
    inversion Hf; subst tb w1; clear Hf.
    apply bind_Ret in H. destruct H as ([cur cb] & w2 & Hc & H).
    apply Hrec in Hc. rewrite <- Hc. simpl.
    destruct mx.
    + destruct (gtb fcmp cur h).
      * destruct (geb fcmp cur be); [inversion H; reflexivity|].
        eapply IH; eassumption.
      * destruct (geb fcmp h be); [inversion H; reflexivity|].
        eapply IH; eassumption.
    + destruct (ltb fcmp cur h).
      * destruct (leb fcmp cur al); [inversion H; reflexivity|].
        eapply IH; eassumption.
      * destruct (leb fcmp h al); [inversion H; reflexivity|].
        eapply IH; eassumption.
Qed.

Lemma alphabeta_returns game depth al be mx w r w' :
  ab game depth al be mx w = (Ret r, w') -> r = ab_res game depth al be mx.
Proof.
  revert game al be mx w r w'.
  induction depth as [|d IH]; intros game al be mx w r w' H;
    rewrite alphabeta_unfold in H; simpl.
  - apply bind_Ret in H. destruct H as (u & w1 & _ & H).
    apply bind_Ret in H. destruct H as (s & w2 & He & H).
    inversion He; inversion H; subst; reflexivity.
  - apply bind_Ret in H. destruct H as (u & w1 & _ & H).
    destruct (is_empty (get_legal_moves game)).
    + apply bind_Ret in H. destruct H as (s & w2 & He & H).
      inversion He; inversion H; subst; reflexivity.
    + apply (alphabeta_loop_returns
               (fun b a0 b0 => ab b d a0 b0 (negb mx))
               (fun b a0 b0 => ab_res b d a0 b0 (negb mx)))
        with (w := w1) (w' := w'); [|exact H].
      intros b a0 b0 w0 r0 w0' H0. exact (IH _ _ _ _ _ _ _ H0).
Qed.

End Runs.

(** ** Alpha-beta against minimax *)

Section WindowSteps.

Variable F : Type.
Variable fcmp : F -> F -> comparison.
Hypothesis fcmp_total : float_order fcmp.

Local Abbreviation lt := (slt fcmp).
Local Abbreviation le := (sle fcmp).
Local Abbreviation smax := (py_max fcmp).
Local Abbreviation smin := (py_min fcmp).

Lemma within_window_cases (al be v r : score F) :
  lt al be -> within_window fcmp al be v r ->
  (le v al /\ le r al) \/ (lt al v /\ lt v be /\ r = v) \/ (le be v /\ le be r).
Proof using fcmp_total.
  intros Hw (P1 & P2 & P3).
  destruct (slt_trichotomy fcmp_total v al) as [H | [H | H]].
  - left. split; [|apply P1]; order fcmp_total.
  - left. split; [|apply P1]; order fcmp_total.
  - destruct (slt_trichotomy fcmp_total v be) as [G | [G | G]].
    + right; left. auto.
    + right; right. split; [|apply P2]; order fcmp_total.
    + right; right. split; [|apply P2]; order fcmp_total.
Qed.

Lemma within_window_refl (al be v : score F) : within_window fcmp al be v v.
Proof. unfold within_window. auto. Qed.

(** One iteration of the maximizing loop, on the scores alone: [h] and
    [hm] are the running bests of alpha-beta and of minimax, [ca] and [cm]
    the scores of the current child. *)
Lemma max_step_cut (a0 al be h hm ca cm : score F) :
  lt al be -> al = smax a0 h -> al = smax a0 hm ->
  within_window fcmp al be cm ca ->
  geb fcmp (if gtb fcmp ca h then ca else h) be = true ->
  le be ca /\ le be (if gtb fcmp cm hm then cm else hm).
Proof using fcmp_total.
  intros Hw E1 E2 W Hc.
  destruct (within_window_cases Hw W) as [[A B] | [(A & B & C) | [A B]]];
    split; order fcmp_total.
Qed.

Lemma max_step_go (a0 al be h hm ca cm : score F) :
  lt al be -> al = smax a0 h -> al = smax a0 hm ->
  within_window fcmp al be cm ca ->
  geb fcmp (if gtb fcmp ca h then ca else h) be = false ->
  lt (smax al ca) be
  /\ smax al ca = smax a0 (if gtb fcmp ca h then ca else h)
  /\ smax al ca = smax a0 (if gtb fcmp cm hm then cm else hm).
Proof using fcmp_total.
  intros Hw E1 E2 W Hc.
  destruct (within_window_cases Hw W) as [[A B] | [(A & B & C) | [A B]]];
    repeat split; order fcmp_total.
Qed.

Lemma min_step_cut (b0 al be h hm ca cm : score F) :
  lt al be -> be = smin b0 h -> be = smin b0 hm ->
  within_window fcmp al be cm ca ->
  leb fcmp (if ltb fcmp ca h then ca else h) al = true ->
  le ca al /\ le (if ltb fcmp cm hm then cm else hm) al.
Proof using fcmp_total.
  intros Hw E1 E2 W Hc.
  destruct (within_window_cases Hw W) as [[A B] | [(A & B & C) | [A B]]];
    split; order fcmp_total.
Qed.

Lemma min_step_go (b0 al be h hm ca cm : score F) :
  lt al be -> be = smin b0 h -> be = smin b0 hm ->
  within_window fcmp al be cm ca ->
  leb fcmp (if ltb fcmp ca h then ca else h) al = false ->
  lt al (smin be ca)
  /\ smin be ca = smin b0 (if ltb fcmp ca h then ca else h)
  /\ smin be ca = smin b0 (if ltb fcmp cm hm then cm else hm).
Proof using fcmp_total.
  intros Hw E1 E2 W Hc.
  destruct (within_window_cases Hw W) as [[A B] | [(A & B & C) | [A B]]];
    repeat split; order fcmp_total.
Qed.

End WindowSteps.

Section Window.

Variable F : Type.
Variable fcmp : F -> F -> comparison.
Hypothesis fcmp_total : float_order fcmp.
Variables Board Player : Type.
Variable get_legal_moves : Board -> list coord.
Variable forecast_move : Board -> coord -> Board.
Variable self : CustomPlayer Board Player F.

Local Abbreviation lt := (slt fcmp).
Local Abbreviation le := (sle fcmp).
Local Abbreviation smax := (py_max fcmp).
Local Abbreviation smin := (py_min fcmp).
Local Abbreviation mm_fold := (minimax_fold fcmp forecast_move).
Local Abbreviation ab_fold := (alphabeta_fold fcmp forecast_move).
Local Abbreviation mm_res :=
  (minimax_result fcmp get_legal_moves forecast_move self).
Local Abbreviation ab_res :=
  (alphabeta_result fcmp get_legal_moves forecast_move self).

Lemma minimax_fold_max_ge rec game ms :
  forall h best, le h (fst (mm_fold rec game true ms h best)).
Proof using fcmp_total.
  induction ms as [|m rest IH]; intros h best; simpl.
  - apply (sle_refl fcmp_total).
  - destruct (gtb fcmp (fst (rec (forecast_move game m))) h) eqn:G.
    + specialize (IH (fst (rec (forecast_move game m))) (Flat m)).
      revert G IH.
      generalize (fst (mm_fold rec game true rest
                         (fst (rec (forecast_move game m))) (Flat m))).
      generalize (fst (rec (forecast_move game m))).
      intros c r G IH. order fcmp_total.
    + apply IH.
Qed.

Lemma minimax_fold_min_le rec game ms :
  forall h best, le (fst (mm_fold rec game false ms h best)) h.
Proof using fcmp_total.
  induction ms as [|m rest IH]; intros h best; simpl.
  - apply (sle_refl fcmp_total).
  - destruct (ltb fcmp (fst (rec (forecast_move game m))) h) eqn:G.
    + specialize (IH (fst (rec (forecast_move game m))) (Flat m)).
      revert G IH.
      generalize (fst (mm_fold rec game false rest
                         (fst (rec (forecast_move game m))) (Flat m))).
      generalize (fst (rec (forecast_move game m))).
      intros c r G IH. order fcmp_total.
    + apply IH.
Qed.

Section Loops.

Variable rec_ab : Board -> score F -> score F -> score F * pymove.
Variable rec_mm : Board -> score F * pymove.
Hypothesis rec_window :
  forall b al be,
    lt al be -> within_window fcmp al be (fst (rec_mm b)) (fst (rec_ab b al be)).

(** The maximizing loop either ends above [beta] on both sides, or the
    two running bests agree once capped from below by the [alpha] the
    node started with. *)
Lemma alphabeta_fold_max game ms :
  forall a0 al be h hm best bestm,
    lt al be -> al = smax a0 h -> al = smax a0 hm ->
    let r := fst (ab_fold rec_ab game true ms al be h best) in
    let v := fst (mm_fold rec_mm game true ms hm bestm) in
    (le be r /\ le be v) \/ (smax a0 r = smax a0 v /\ lt (smax a0 v) be).
Proof using fcmp_total rec_window.
  induction ms as [|m rest IH]; intros a0 al be h hm best bestm Hw E1 E2;
    simpl.
  - right. split; [congruence | rewrite <- E2; exact Hw].
  - pose proof (rec_window (forecast_move game m) Hw) as W.
    revert W.
    generalize (fst (rec_ab (forecast_move game m) al be)).
    generalize (fst (rec_mm (forecast_move game m))).
    intros cm ca W.
    destruct (geb fcmp (if gtb fcmp ca h then ca else h) be) eqn:Hc.
    + destruct (max_step_cut fcmp_total a0 h hm Hw E1 E2 W Hc) as [C1 C2].
      left.
      assert (R : fst (let '(h1, b1) :=
                         if gtb fcmp ca h then (ca, Flat m) else (h, best) in
                       if geb fcmp h1 be then (ca, Flat m)
                       else ab_fold rec_ab game true rest (smax al ca) be h1 b1)
                  = ca).
      { destruct (gtb fcmp ca h); rewrite Hc; reflexivity. }
      rewrite R. split; [exact C1|].
      destruct (gtb fcmp cm hm).
      * pose proof (minimax_fold_max_ge rec_mm game rest cm (Flat m)) as G.
        revert G. generalize (fst (mm_fold rec_mm game true rest cm (Flat m))).
        intros x G. order fcmp_total.
      * pose proof (minimax_fold_max_ge rec_mm game rest hm bestm) as G.
        revert G. generalize (fst (mm_fold rec_mm game true rest hm bestm)).
        intros x G. order fcmp_total.
    + destruct (max_step_go fcmp_total a0 h hm Hw E1 E2 W Hc) as (S1 & S2 & S3).
      destruct (gtb fcmp ca h); rewrite Hc;
        destruct (gtb fcmp cm hm); apply IH; assumption.
Qed.

Lemma alphabeta_fold_min game ms :
  forall b0 al be h hm best bestm,
    lt al be -> be = smin b0 h -> be = smin b0 hm ->
    let r := fst (ab_fold rec_ab game false ms al be h best) in
    let v := fst (mm_fold rec_mm game false ms hm bestm) in
    (le r al /\ le v al) \/ (smin b0 r = smin b0 v /\ lt al (smin b0 v)).
Proof using fcmp_total rec_window.
  induction ms as [|m rest IH]; intros b0 al be h hm best bestm Hw E1 E2;
    simpl.
  - right. split; [congruence | rewrite <- E2; exact Hw].
  - pose proof (rec_window (forecast_move game m) Hw) as W.
    revert W.
    generalize (fst (rec_ab (forecast_move game m) al be)).
    generalize (fst (rec_mm (forecast_move game m))).
    intros cm ca W.
    destruct (leb fcmp (if ltb fcmp ca h then ca else h) al) eqn:Hc.
    + destruct (min_step_cut fcmp_total b0 h hm Hw E1 E2 W Hc) as [C1 C2].
      left.
      assert (R : fst (let '(h1, b1) :=
                         if ltb fcmp ca h then (ca, Nest m best) else (h, best) in
                       if leb fcmp h1 al then (ca, Flat m)
                       else ab_fold rec_ab game false rest al (smin be ca) h1 b1)
                  = ca).
      { destruct (ltb fcmp ca h); rewrite Hc; reflexivity. }
      rewrite R. split; [exact C1|].
      destruct (ltb fcmp cm hm).
      * pose proof (minimax_fold_min_le rec_mm game rest cm (Flat m)) as G.
        revert G. generalize (fst (mm_fold rec_mm game false rest cm (Flat m))).
        intros x G. order fcmp_total.
      * pose proof (minimax_fold_min_le rec_mm game rest hm bestm) as G.
        revert G. generalize (fst (mm_fold rec_mm game false rest hm bestm)).
        intros x G. order fcmp_total.
    + destruct (min_step_go fcmp_total b0 h hm Hw E1 E2 W Hc) as (S1 & S2 & S3).
      destruct (ltb fcmp ca h); rewrite Hc;
        destruct (ltb fcmp cm hm); apply IH; assumption.
Qed.

End Loops.

(** Alpha-beta with a proper window brackets the minimax value. *)
Lemma alphabeta_within_window depth :
  forall game mx al be,
    lt al be ->
    within_window fcmp al be
      (fst (mm_res game depth mx)) (fst (ab_res game depth al be mx)).
Proof using fcmp_total.
  induction depth as [|d IH]; intros game mx al be Hw; simpl.
  - apply within_window_refl.
  - destruct (is_empty (get_legal_moves game)); [apply within_window_refl|].
    destruct mx; simpl.
    + pose proof (@alphabeta_fold_max
                    (fun b a0 b0 => ab_res b d a0 b0 false)
                    (fun b => mm_res b d false)
                    (fun b a0 b0 H => IH b false a0 b0 H)
                    game (get_legal_moves game) al al be
                    NInf NInf (Flat NO_MOVE) (Flat NO_MOVE) Hw) as L.
      simpl in L. revert L.
      generalize (fst (ab_fold (fun b a0 b0 => ab_res b d a0 b0 false)
                         game true (get_legal_moves game) al be NInf (Flat NO_MOVE))).
      generalize (fst (mm_fold (fun b => mm_res b d false)
                         game true (get_legal_moves game) NInf (Flat NO_MOVE))).
      intros v r L.
      assert (E : al = smax al NInf).
      { unfold py_max, gtb, ltb. destruct al; reflexivity. }
      specialize (L E E). clear E.
      unfold within_window.
      destruct L as [[L1 L2] | [L1 L2]]; repeat split; intros;
        order fcmp_total.
    + pose proof (@alphabeta_fold_min
                    (fun b a0 b0 => ab_res b d a0 b0 true)
                    (fun b => mm_res b d true)
                    (fun b a0 b0 H => IH b true a0 b0 H)
                    game (get_legal_moves game) be al be
                    PInf PInf (Flat NO_MOVE) (Flat NO_MOVE) Hw) as L.
      simpl in L. revert L.
      generalize (fst (ab_fold (fun b a0 b0 => ab_res b d a0 b0 true)
                         game false (get_legal_moves game) al be PInf (Flat NO_MOVE))).
      generalize (fst (mm_fold (fun b => mm_res b d true)
                         game false (get_legal_moves game) PInf (Flat NO_MOVE))).
      intros v r L.
      assert (E : be = smin be PInf).
      { unfold py_min, ltb. destruct be; reflexivity. }
      specialize (L E E). clear E.
      unfold within_window.
      destruct L as [[L1 L2] | [L1 L2]]; repeat split; intros;
        order fcmp_total.
Qed.

(** With the full window the score is the minimax score. *)
Lemma alphabeta_result_score game depth mx :
  fst (ab_res game depth NInf PInf mx) = fst (mm_res game depth mx).
Proof using fcmp_total.
  pose proof (@alphabeta_within_window depth game mx NInf PInf eq_refl)
    as (P1 & P2 & P3).
  revert P1 P2 P3.
  generalize (fst (ab_res game depth NInf PInf mx)).
  generalize (fst (mm_res game depth mx)).
  intros v r P1 P2 P3.
  destruct (NInf_least fcmp v) as [E | E].
  - subst v. apply (sle_NInf fcmp_total). apply P1. apply (sle_refl fcmp_total).
  - destruct (PInf_greatest fcmp v) as [G | G].
    + subst v. apply (sle_PInf fcmp_total). apply P2. apply (sle_refl fcmp_total).
    + apply P3; assumption.
Qed.

End Window.

(** ** The timeout guard *)

Section Guard.

Variable F : Type.
Variable fcmp : F -> F -> comparison.
Variables Board Player : Type.
Variable get_legal_moves : Board -> list coord.
Variable forecast_move : Board -> coord -> Board.
Variable self : CustomPlayer Board Player F.
Variable time_left : nat -> Z.

Local Abbreviation St := (M (world Board)).
Local Abbreviation mm :=
  (minimax fcmp get_legal_moves forecast_move self time_left).
Local Abbreviation ab :=
  (alphabeta fcmp get_legal_moves forecast_move self time_left).
Local Abbreviation late := (expired self time_left).
Local Abbreviation timely := (in_time self time_left).
Local Abbreviation ok := (disciplined self time_left).

Lemma clock_reads_app (w1 w2 : world Board) :
  clock_reads (w1 ++ w2) = clock_reads w1 + clock_reads w2.
Proof. unfold clock_reads. now rewrite filter_app, length_app. Qed.

Lemma in_time_app (evs1 evs2 : list (event Board)) :
  forall n,
    timely n (evs1 ++ evs2)
    = (timely n evs1 && timely (n + clock_reads evs1) evs2)%bool.
Proof.
  induction evs1 as [|e rest IH]; intro n; simpl.
  - now rewrite Nat.add_0_r.
  - destruct e; simpl; rewrite IH; unfold clock_reads; simpl.
    + rewrite <- andb_assoc. now rewrite Nat.add_succ_r.
    + reflexivity.
    + reflexivity.
Qed.

Lemma bind_cases {W A B : Type} (m : M W A) (k : A -> M W B) w :
  (exists a w1, m w = (Ret a, w1) /\ bind m k w = k a w1)
  \/ (exists e w1, m w = (Raise e, w1) /\ bind m k w = (Raise e, w1)).
Proof.
  unfold bind. destruct (m w) as [[a | e] w1].
  - left. now exists a, w1.
  - right. now exists e, w1.
Qed.

(** Sequencing keeps the discipline. *)
Lemma disciplined_bind {A B : Type} (m : St A) (k : A -> St B) w :
  ok w (m w) ->
  (forall a w1, m w = (Ret a, w1) -> ok w1 (k a w1)) ->
  ok w (bind m k w).
Proof.
  intros Hm Hk.
  destruct (bind_cases m k w) as [(a & w1 & E & Eb) | (e & w1 & E & Eb)];
    rewrite Eb.
  - specialize (Hk a w1 E). rewrite E in Hm.
    destruct Hm as (evs1 & Hw1 & T1). simpl in Hw1, T1. subst w1.
    destruct Hk as (evs2 & Hw2 & T2).
    exists (evs1 ++ evs2). split.
    + rewrite Hw2. now rewrite app_assoc.
    + rewrite clock_reads_app in T2.
      destruct (fst (k a (w ++ evs1))) as [b | e].
      * rewrite in_time_app, T1, T2. reflexivity.
      * destruct T2 as (He & pre & Hp & Tp & Lp).
        split; [exact He|].
        exists (evs1 ++ pre). repeat split.
        -- rewrite Hp. now rewrite app_assoc.
        -- rewrite in_time_app, T1, Tp. reflexivity.
        -- rewrite clock_reads_app, Nat.add_assoc. exact Lp.
  - rewrite E in Hm. exact Hm.
Qed.

Lemma disciplined_ret {A : Type} (a : A) w : ok w (ret a w).
Proof.
  exists []. simpl. split; [now rewrite app_nil_r | reflexivity].
Qed.

Lemma disciplined_evaluate game w : ok w (evaluate self game w).
Proof. exists [Evaluate game]. simpl. auto. Qed.

Lemma disciplined_forecast game m w : ok w (forecast forecast_move game m w).
Proof. exists [Forecast game m]. simpl. auto. Qed.

Lemma disciplined_check_time w : ok w (check_time self time_left w).
Proof.
  unfold check_time. destruct (late (clock_reads w)) eqn:E.
  - exists [ReadClock]. simpl. split; [reflexivity|]. split; [reflexivity|].
    exists []. simpl. rewrite Nat.add_0_r. auto.
  - exists [ReadClock]. simpl. rewrite E. auto.
Qed.

Lemma disciplined_minimax_loop (rec : Board -> St (score F * pymove)) :
  (forall b w, ok w (rec b w)) ->
  forall game mx ms h best w,
    ok w (minimax_loop fcmp forecast_move rec game mx ms h best w).
Proof.
  intros Hrec game mx ms.
  induction ms as [|m rest IH]; intros h best w; simpl.
  - apply disciplined_ret.
  - apply disciplined_bind; [apply disciplined_forecast|].
    intros tb w1 _.
    apply disciplined_bind; [apply Hrec|].
    intros [cur cb] w2 _.
    destruct mx.
    + destruct (gtb fcmp cur h); apply IH.
    + destruct (ltb fcmp cur h); apply IH.
Qed.

Lemma disciplined_alphabeta_loop
      (rec : Board -> score F -> score F -> St (score F * pymove)) :
  (forall b al be w, ok w (rec b al be w)) ->
  forall game mx ms al be h best w,
    ok w (alphabeta_loop fcmp forecast_move rec game mx ms al be h best w).
Proof.
  intros Hrec game mx ms.
  induction ms as [|m rest IH]; intros al be h best w; simpl.
  - apply disciplined_ret.
  - apply disciplined_bind; [apply disciplined_forecast|].
    intros tb w1 _.
    apply disciplined_bind; [apply Hrec|].
    intros [cur cb] w2 _.
    destruct mx.
    + destruct (gtb fcmp cur h).
      * destruct (geb fcmp cur be); [apply disciplined_ret | apply IH].
      * destruct (geb fcmp h be); [apply disciplined_ret | apply IH].
    + destruct (ltb fcmp cur h).
      * destruct (leb fcmp cur al); [apply disciplined_ret | apply IH].
      * destruct (leb fcmp h al); [apply disciplined_ret | apply IH].
Qed.

Lemma disciplined_minimax depth :
  forall game mx w, ok w (mm game depth mx w).
Proof.
  induction depth as [|d IH]; intros game mx w;
    rewrite minimax_unfold;
    (apply disciplined_bind; [apply disciplined_check_time|]);
    intros u w1 _.
  - apply disciplined_bind; [apply disciplined_evaluate|].
    intros; apply disciplined_ret.
  - destruct (is_empty (get_legal_moves game)).
    + apply disciplined_bind; [apply disciplined_evaluate|].
      intros; apply disciplined_ret.
    + apply disciplined_minimax_loop. intros b w0. apply IH.
Qed.

Lemma disciplined_alphabeta depth :
  forall game al be mx w, ok w (ab game depth al be mx w).
Proof.
  induction depth as [|d IH]; intros game al be mx w;
    rewrite alphabeta_unfold;
    (apply disciplined_bind; [apply disciplined_check_time|]);
    intros u w1 _.
  - apply disciplined_bind; [apply disciplined_evaluate|].
    intros; apply disciplined_ret.
  - destruct (is_empty (get_legal_moves game)).
    + apply disciplined_bind; [apply disciplined_evaluate|].
      intros; apply disciplined_ret.
    + apply disciplined_alphabeta_loop. intros b a0 b0 w0. apply IH.
Qed.

End Guard.

(** ** Runs on the concrete inputs *)

Lemma Z_compare_total : float_order Z.compare.
Proof.
  constructor.
  - intros x y. apply Z.compare_eq_iff.
  - intros x y. apply Z.compare_antisym.
  - intros x y z H1 H2. rewrite Z.compare_lt_iff in *. lia.
Qed.

Example minimax_two_moves :
  minimax Z.compare tree_moves tree_forecast
          (tree_agent 3 false Minimax 3) steady_clock two_moves 1 true []
  = (Ret (Fin 5%Z, Flat (0, 0)%Z),
     [ReadClock;
      Forecast two_moves (0, 0)%Z; ReadClock; Evaluate (leaf 5);
      Forecast two_moves (0, 1)%Z; ReadClock; Evaluate (leaf 3)]).
Proof. reflexivity. Qed.

Example alphabeta_two_moves :
  alphabeta Z.compare tree_moves tree_forecast
            (tree_agent 3 false AlphaBeta 3) steady_clock two_moves 1
            NInf PInf true []
  = (Ret (Fin 5%Z, Flat (0, 0)%Z),
     [ReadClock;
      Forecast two_moves (0, 0)%Z; ReadClock; Evaluate (leaf 5);
      Forecast two_moves (0, 1)%Z; ReadClock; Evaluate (leaf 3)]).
Proof. reflexivity. Qed.

Example alphabeta_prunes :
  fst (alphabeta Z.compare tree_moves tree_forecast
                 (tree_agent 3 false AlphaBeta 3) steady_clock with_cutoff 2
                 NInf PInf true [])
  = Ret (Fin 3%Z, Flat (0, 0)%Z)
  /\ evaluations
       (snd (alphabeta Z.compare tree_moves tree_forecast
                       (tree_agent 3 false AlphaBeta 3) steady_clock
                       with_cutoff 2 NInf PInf true [])) = 3
  /\ evaluations
       (snd (minimax Z.compare tree_moves tree_forecast
                     (tree_agent 3 false Minimax 3) steady_clock
                     with_cutoff 2 true [])) = 4.
Proof. repeat split; reflexivity. Qed.

Example ratio_on_floats :
  calc_ratio_of_moves binary64 position_moves position_opponent
    {| moves_1 := [(1, 1); (1, 2); (2, 2)]%Z; moves_2 := [(4, 4); (4, 5)]%Z;
       blank_spaces := []; pos_width := 7; pos_height := 7 |} Player1
  = Ret (Fin 1.5%float).
Proof. reflexivity. Qed.

(** ** The claims about the search *)

Section SearchClaims.

Variable F : Type.
Variable fcmp : F -> F -> comparison.
Variables Board Player : Type.
Variable get_legal_moves : Board -> list coord.
Variable forecast_move : Board -> coord -> Board.
Variable self : CustomPlayer Board Player F.
Variable time_left : nat -> Z.

(** In this section the functions of the agent stand for their instances at
    the section's board, agent and clock. *)
Local Abbreviation St := (M (world Board)).
Local Abbreviation minimax :=
  (minimax fcmp get_legal_moves forecast_move self time_left).
Local Abbreviation alphabeta :=
  (alphabeta fcmp get_legal_moves forecast_move self time_left).
Local Abbreviation alphabeta_loop := (alphabeta_loop fcmp forecast_move).
Local Abbreviation minimax_loop := (minimax_loop fcmp forecast_move).
Local Abbreviation check_time := (check_time self time_left).
Local Abbreviation expired := (expired self time_left).
Local Abbreviation disciplined := (disciplined self time_left).
Local Abbreviation guarded_entry := (guarded_entry self time_left).
Local Abbreviation running_best := (running_best fcmp).
Local Abbreviation reaches_bound := (reaches_bound fcmp).
Local Abbreviation scanned :=
  (scanned fcmp get_legal_moves forecast_move self time_left).

(** A search whose clock never runs low returns. *)
Lemma disciplined_returns {A : Type} (w : world Board)
      (res : outcome A * world Board) :
  (forall n, expired n = false) ->
  disciplined w res ->
  exists r, fst res = Ret r.
Proof.
  intros Hnever (evs & _ & H).
  destruct (fst res) as [r | e].
  - now exists r.
  - destruct H as (_ & pre & _ & _ & L). rewrite Hnever in L. discriminate.
Qed.

Lemma minimax_entry game depth mx w :
  minimax game depth mx w
  = if expired (clock_reads w) then (Raise Timeout, w ++ [ReadClock])
    else
      match depth with
      | O => (Ret (score_fn self game (player_id self), Flat NO_MOVE),
              w ++ [ReadClock; Evaluate game])
      | S d =>
          if is_empty (get_legal_moves game)
          then (Ret (score_fn self game (player_id self), Flat NO_MOVE),
                w ++ [ReadClock; Evaluate game])
          else minimax_loop
                 (fun b => minimax b d (negb mx)) game mx (get_legal_moves game)
                 (if mx then NInf else PInf) (Flat NO_MOVE)
                 (w ++ [ReadClock])
      end.
Proof.
  rewrite minimax_unfold. unfold bind at 1, check_time.
  destruct (expired (clock_reads w)); [reflexivity|].
  destruct depth as [|d].
  - unfold bind, evaluate, ret. now rewrite <- app_assoc.
  - destruct (is_empty (get_legal_moves game)); [|reflexivity].
    unfold bind, evaluate, ret. now rewrite <- app_assoc.
Qed.

Lemma alphabeta_entry game depth al be mx w :
  alphabeta game depth al be mx w
  = if expired (clock_reads w) then (Raise Timeout, w ++ [ReadClock])
    else
      match depth with
      | O => (Ret (score_fn self game (player_id self), Flat NO_MOVE),
              w ++ [ReadClock; Evaluate game])
      | S d =>
          if is_empty (get_legal_moves game)
          then (Ret (score_fn self game (player_id self), Flat NO_MOVE),
                w ++ [ReadClock; Evaluate game])
          else alphabeta_loop
                 (fun b a0 b0 => alphabeta b d a0 b0 (negb mx)) game mx
                 (get_legal_moves game) al be
                 (if mx then NInf else PInf) (Flat NO_MOVE)
                 (w ++ [ReadClock])
      end.
Proof.
  rewrite alphabeta_unfold. unfold bind at 1, check_time.
  destruct (expired (clock_reads w)); [reflexivity|].
  destruct depth as [|d].
  - unfold bind, evaluate, ret. now rewrite <- app_assoc.
  - destruct (is_empty (get_legal_moves game)); [|reflexivity].
    unfold bind, evaluate, ret. now rewrite <- app_assoc.
Qed.

(** C6: with depth 0, or on a board whose active player has no legal move,
    a call of [minimax] or [alphabeta] whose entry reading of the clock is
    in time returns the heuristic score of the position with the sentinel
    move; all it does is read the clock once and evaluate the position
    once: no forecast, no recursive call. *)
Theorem search_at_leaf game depth al be mx w :
  expired (clock_reads w) = false ->
  depth = O \/ get_legal_moves game = [] ->
  minimax game depth mx w
  = (Ret (score_fn self game (player_id self), Flat NO_MOVE), w ++ [ReadClock; Evaluate game])
  /\ alphabeta game depth al be mx w
     = (Ret (score_fn self game (player_id self), Flat NO_MOVE), w ++ [ReadClock; Evaluate game]).
Proof.
  intros Ht Hleaf.
  rewrite minimax_entry, alphabeta_entry, Ht.
  destruct Hleaf as [Hd | Hm].
  - subst depth. split; reflexivity.
  - rewrite Hm. destruct depth; split; reflexivity.
Qed.

Lemma guarded_entry_of_disciplined {A : Type} (k : St A) w :
  (forall w1, disciplined w1 (k w1)) ->
  guarded_entry w
    (bind check_time (fun _ => k) w).
Proof.
  intro Hk.
  assert (Eq : bind check_time (fun _ => k) w
               = if expired (clock_reads w)
                 then (Raise Timeout, w ++ [ReadClock])
                 else k (w ++ [ReadClock])).
  { unfold bind, check_time. destruct (expired (clock_reads w)); reflexivity. }
  rewrite Eq. clear Eq. unfold guarded_entry.
  destruct (expired (clock_reads w)) eqn:E.
  - exists []. simpl. split; [reflexivity|].
    split; [intros _; split; reflexivity | reflexivity].
  - destruct (Hk (w ++ [ReadClock])) as (evs & Hw & Hd).
    exists evs. split.
    + rewrite Hw. now rewrite <- app_assoc.
    + split; [discriminate|].
      intros [Hr He]. subst evs. rewrite Hr in Hd.
      destruct Hd as (_ & pre & Hp & _).
      destruct pre; discriminate Hp.
Qed.

Lemma minimax_guarded_entry game depth mx w :
  guarded_entry w (minimax game depth mx w).
Proof.
  rewrite minimax_unfold. apply guarded_entry_of_disciplined.
  intro w1. destruct depth as [|d].
  - apply disciplined_bind; [apply disciplined_evaluate|].
    intros; apply disciplined_ret.
  - destruct (is_empty (get_legal_moves game)).
    + apply disciplined_bind; [apply disciplined_evaluate|].
      intros; apply disciplined_ret.
    + apply disciplined_minimax_loop. intros b w0.
      apply disciplined_minimax.
Qed.

Lemma alphabeta_guarded_entry game depth al be mx w :
  guarded_entry w (alphabeta game depth al be mx w).
Proof.
  rewrite alphabeta_unfold. apply guarded_entry_of_disciplined.
  intro w1. destruct depth as [|d].
  - apply disciplined_bind; [apply disciplined_evaluate|].
    intros; apply disciplined_ret.
  - destruct (is_empty (get_legal_moves game)).
    + apply disciplined_bind; [apply disciplined_evaluate|].
      intros; apply disciplined_ret.
    + apply disciplined_alphabeta_loop. intros b a0 b0 w0.
      apply disciplined_alphabeta.
Qed.

(** C7: every call of [minimax] and of [alphabeta] first reads the clock,
    and raises [Timeout] right there, having expanded nothing, exactly when
    that reading is below the threshold.  Over the whole call: it returns a
    score and a move only if every reading made during the call, nested
    calls included, was in time; otherwise its outcome is [Timeout] alone,
    the low reading is the last thing the call did (whichever nested call
    made it), and every reading before it was in time. *)
Theorem timeout_guard game depth al be mx w :
  (guarded_entry w (minimax game depth mx w)
   /\ disciplined w (minimax game depth mx w))
  /\ (guarded_entry w (alphabeta game depth al be mx w)
      /\ disciplined w (alphabeta game depth al be mx w)).
Proof.
  pose proof (minimax_guarded_entry game depth mx w) as G1.
  pose proof (alphabeta_guarded_entry game depth al be mx w) as G2.
  pose proof (disciplined_minimax fcmp get_legal_moves forecast_move
                self time_left depth game mx w) as D1.
  pose proof (disciplined_alphabeta fcmp get_legal_moves forecast_move
                self time_left depth game al be mx w) as D2.
  tauto.
Qed.

(** One turn of the loop of [alphabeta] that ends in a cutoff: the child
    returned and the running best reaches the bound. *)
Lemma alphabeta_loop_cutoff game depth mx next_move rest al be h best w
      curr_move_diff curr_best_move w' :
  alphabeta (forecast_move game next_move) depth al be (negb mx)
     (w ++ [Forecast game next_move])
  = (Ret (curr_move_diff, curr_best_move), w') ->
  reaches_bound mx al be (running_best mx h curr_move_diff) = true ->
  alphabeta_loop
    (fun b a0 b0 => alphabeta b depth a0 b0 (negb mx))
    game mx (next_move :: rest) al be h best w
  = (Ret (curr_move_diff, Flat next_move), w').
Proof.
  intros Hchild Hcut.
  simpl. unfold bind at 1, forecast. unfold bind at 1.
  rewrite Hchild.
  destruct mx; simpl in Hcut.
  - destruct (gtb fcmp curr_move_diff h); rewrite Hcut; reflexivity.
  - destruct (ltb fcmp curr_move_diff h); rewrite Hcut; reflexivity.
Qed.

(** One turn of the loop without a cutoff: the loop goes on with the
    next move, the window narrowed and the running best brought up to
    date. *)
Lemma alphabeta_loop_goes_on game depth mx next_move rest al be h best w
      curr_move_diff curr_best_move w' :
  alphabeta (forecast_move game next_move) depth al be (negb mx)
     (w ++ [Forecast game next_move])
  = (Ret (curr_move_diff, curr_best_move), w') ->
  reaches_bound mx al be (running_best mx h curr_move_diff) = false ->
  exists best',
    alphabeta_loop
      (fun b a0 b0 => alphabeta b depth a0 b0 (negb mx))
      game mx (next_move :: rest) al be h best w
    = alphabeta_loop
        (fun b a0 b0 => alphabeta b depth a0 b0 (negb mx))
        game mx rest
        (if mx then py_max fcmp al curr_move_diff else al)
        (if mx then be else py_min fcmp be curr_move_diff)
        (running_best mx h curr_move_diff) best' w'.
Proof.
  intros Hchild Hcut.
  simpl alphabeta_loop. unfold bind at 1, forecast. unfold bind at 1.
  rewrite Hchild.
  destruct mx; simpl in Hcut |- *.
  - destruct (gtb fcmp curr_move_diff h); rewrite Hcut; eexists; reflexivity.
  - destruct (ltb fcmp curr_move_diff h); rewrite Hcut; eexists; reflexivity.
Qed.

(** The loop of [alphabeta] follows a scan: after the moves gone through
    without a cutoff it stands at the rest of the moves, in the state the
    scan ends in. *)
Lemma scanned_loop game depth mx pre al be h w al' be' h' w' :
  scanned game depth mx pre al be h w al' be' h' w' ->
  forall rest best,
  exists best',
    alphabeta_loop
      (fun b a0 b0 => alphabeta b depth a0 b0 (negb mx))
      game mx (pre ++ rest) al be h best w
    = alphabeta_loop
        (fun b a0 b0 => alphabeta b depth a0 b0 (negb mx))
        game mx rest al' be' h' best' w'.
Proof.
  induction 1 as [al be h w
                 | m pre al be h w v cm w1 al' be' h' w' Hc Hn _ IH];
    intros rest best.
  - exists best. reflexivity.
  - destruct (alphabeta_loop_goes_on game depth mx m (pre ++ rest) al be h
                best w Hc Hn) as [best1 E].
    destruct (IH rest best1) as [best' E'].
    exists best'. rewrite <- app_comm_cons, E. exact E'.
Qed.

(** C4: a call of [alphabeta] on a board with legal moves, entered in
    time with at least one ply to go.  Say the loop has gone through the
    moves [pre] without a cutoff, the child reached by the next move [m]
    has returned the score [v], and the running best then reaches or
    exceeds [beta] at a maximizing node (reaches or falls below [alpha] at
    a minimizing node).  Then the call returns at once: its result is [v]
    with the flat move [m] that triggered the cutoff, whatever move was on
    record, and it ends in the very state the child left, so none of the
    remaining moves [rest] is forecast or searched. *)
Theorem alphabeta_cutoff game depth mx al be pre m rest w
        al' be' h w1 v cm w2 :
  get_legal_moves game = pre ++ m :: rest ->
  expired (clock_reads w) = false ->
  scanned game depth mx pre al be (if mx then NInf else PInf)
          (w ++ [ReadClock]) al' be' h w1 ->
  alphabeta (forecast_move game m) depth al' be' (negb mx)
            (w1 ++ [Forecast game m])
  = (Ret (v, cm), w2) ->
  reaches_bound mx al' be' (running_best mx h v) = true ->
  alphabeta game (S depth) al be mx w = (Ret (v, Flat m), w2).
Proof.
  intros Hms Ht Hscan Hchild Hcut.
  rewrite alphabeta_entry, Ht, Hms.
  replace (is_empty (pre ++ m :: rest)) with false
    by (destruct pre; reflexivity).
  destruct (scanned_loop Hscan (m :: rest) (Flat NO_MOVE)) as [best' E].
  rewrite E.
  exact (alphabeta_loop_cutoff game depth mx m rest al' be' h best' w1
           Hchild Hcut).
Qed.

End SearchClaims.

Lemma search_at_leaf_witness :
  expired (tree_agent 3 false Minimax 3) steady_clock (clock_reads (@nil (event tree)))
  = false
  /\ (3 = O \/ tree_moves (leaf 7) = [])
  /\ minimax Z.compare tree_moves tree_forecast
             (tree_agent 3 false Minimax 3) steady_clock (leaf 7) 3 true []
     = (Ret (Fin 7%Z, Flat NO_MOVE), [ReadClock; Evaluate (leaf 7)])
  /\ alphabeta Z.compare tree_moves tree_forecast
               (tree_agent 3 false Minimax 3) steady_clock (leaf 7) 3
               NInf PInf true []
     = (Ret (Fin 7%Z, Flat NO_MOVE), [ReadClock; Evaluate (leaf 7)]).
Proof.
  assert (H1 : expired (tree_agent 3 false Minimax 3) steady_clock
                       (clock_reads (@nil (event tree))) = false)
    by reflexivity.
  assert (H2 : 3 = O \/ tree_moves (leaf 7) = []) by (right; reflexivity).
  split; [exact H1|]. split; [exact H2|].
  exact (search_at_leaf Z.compare tree_moves tree_forecast
           (tree_agent 3 false Minimax 3) steady_clock (leaf 7)
           NInf PInf true [] H1 H2).
Defined.

Lemma alphabeta_cutoff_witness :
  tree_moves second_reply = [(3, 0)%Z] ++ (3, 1)%Z :: [(3, 2)%Z]
  /\ expired (tree_agent 3 false AlphaBeta 3) steady_clock
             (clock_reads (@nil (event tree))) = false
  /\ scanned Z.compare tree_moves tree_forecast
             (tree_agent 3 false AlphaBeta 3) steady_clock
             second_reply 1 false [(3, 0)%Z] (Fin 5%Z) PInf PInf
             ([] ++ [ReadClock]) (Fin 5%Z) (Fin 8%Z) (Fin 8%Z) first_answer
  /\ alphabeta Z.compare tree_moves tree_forecast
               (tree_agent 3 false AlphaBeta 3) steady_clock
               (tree_forecast second_reply (3, 1)%Z) 1 (Fin 5%Z) (Fin 8%Z)
               (negb false) (first_answer ++ [Forecast second_reply (3, 1)%Z])
     = (Ret (Fin 4%Z, Flat (4, 3)%Z), first_answer ++ second_answer)
  /\ reaches_bound Z.compare false (Fin 5%Z) (Fin 8%Z)
                   (running_best Z.compare false (Fin 8%Z) (Fin 4%Z)) = true
  /\ alphabeta Z.compare tree_moves tree_forecast
               (tree_agent 3 false AlphaBeta 3) steady_clock
               second_reply 2 (Fin 5%Z) PInf false []
     = (Ret (Fin 4%Z, Flat (3, 1)%Z), first_answer ++ second_answer).
Proof.
  assert (H1 : tree_moves second_reply
               = [(3, 0)%Z] ++ (3, 1)%Z :: [(3, 2)%Z]) by reflexivity.
  assert (H2 : expired (tree_agent 3 false AlphaBeta 3) steady_clock
                       (clock_reads (@nil (event tree))) = false)
    by reflexivity.
  assert (H3 : scanned Z.compare tree_moves tree_forecast
                 (tree_agent 3 false AlphaBeta 3) steady_clock
                 second_reply 1 false [(3, 0)%Z] (Fin 5%Z) PInf PInf
                 ([] ++ [ReadClock]) (Fin 5%Z) (Fin 8%Z) (Fin 8%Z)
                 first_answer).
  { apply (@scanned_more _ _ _ Z.compare tree_moves tree_forecast
             (tree_agent 3 false AlphaBeta 3) steady_clock second_reply 1
             false (3, 0)%Z [] (Fin 5%Z) PInf PInf ([] ++ [ReadClock])
             (Fin 8%Z) (Flat (4, 1)%Z) first_answer);
      [reflexivity | reflexivity | apply scanned_none]. }
  assert (H4 : alphabeta Z.compare tree_moves tree_forecast
                 (tree_agent 3 false AlphaBeta 3) steady_clock
                 (tree_forecast second_reply (3, 1)%Z) 1 (Fin 5%Z) (Fin 8%Z)
                 (negb false)
                 (first_answer ++ [Forecast second_reply (3, 1)%Z])
               = (Ret (Fin 4%Z, Flat (4, 3)%Z),
                  first_answer ++ second_answer)) by reflexivity.
  assert (H5 : reaches_bound Z.compare false (Fin 5%Z) (Fin 8%Z)
                 (running_best Z.compare false (Fin 8%Z) (Fin 4%Z)) = true)
    by reflexivity.
  repeat (split; [assumption|]).
  exact (@alphabeta_cutoff _ Z.compare _ _ tree_moves tree_forecast
           (tree_agent 3 false AlphaBeta 3) steady_clock second_reply 1
           false (Fin 5%Z) PInf [(3, 0)%Z] (3, 1)%Z [(3, 2)%Z] []
           (Fin 5%Z) (Fin 8%Z) (Fin 8%Z) first_answer (Fin 4%Z)
           (Flat (4, 3)%Z) (first_answer ++ second_answer)
           H1 H2 H3 H4 H5).
Defined.


Section ScoreClaim.

Variable F : Type.
Variable fcmp : F -> F -> comparison.
Hypothesis fcmp_total : float_order fcmp.
Variables Board Player : Type.
Variable get_legal_moves : Board -> list coord.
Variable forecast_move : Board -> coord -> Board.
Variable self : CustomPlayer Board Player F.
(** The clocks of the two runs. *)
Variable time_left time_left' : nat -> Z.

Local Abbreviation minimax :=
  (minimax fcmp get_legal_moves forecast_move self time_left).
Local Abbreviation alphabeta :=
  (alphabeta fcmp get_legal_moves forecast_move self time_left').

(** C1: on every board, for every scoring function into a totally ordered
    set of scores and every depth, a call of [minimax] and a call of
    [alphabeta] with [alpha = -inf] and [beta = +inf] that both return
    (no [Timeout]) return the same score; and when neither clock ever reads
    below the threshold both calls do return. *)
Theorem minimax_alphabeta_same_score game depth mx w1 w2 :
  (forall r1 w1' r2 w2',
      minimax game depth mx w1 = (Ret r1, w1') ->
      alphabeta game depth NInf PInf mx w2 = (Ret r2, w2') ->
      fst r1 = fst r2)
  /\ ((forall n, expired self time_left n = false) ->
      (forall n, expired self time_left' n = false) ->
      exists r1 w1' r2 w2',
        minimax game depth mx w1 = (Ret r1, w1')
        /\ alphabeta game depth NInf PInf mx w2 = (Ret r2, w2')
        /\ fst r1 = fst r2).
Proof using fcmp_total.
  assert (Same : forall r1 w1' r2 w2',
             minimax game depth mx w1 = (Ret r1, w1') ->
             alphabeta game depth NInf PInf mx w2 = (Ret r2, w2') ->
             fst r1 = fst r2).
  { intros r1 w1' r2 w2' H1 H2.
    apply minimax_returns in H1. apply alphabeta_returns in H2.
    subst r1 r2. symmetry.
    apply alphabeta_result_score. exact fcmp_total. }
  split; [exact Same|].
  intros T1 T2.
  destruct (disciplined_returns (self := self) T1
              (disciplined_minimax fcmp get_legal_moves forecast_move
                 self time_left depth game mx w1)) as [r1 E1].
  destruct (disciplined_returns (self := self) T2
              (disciplined_alphabeta fcmp get_legal_moves forecast_move
                 self time_left' depth game NInf PInf mx w2)) as [r2 E2].
  destruct (minimax game depth mx w1) as [o1 w1'] eqn:R1.
  destruct (alphabeta game depth NInf PInf mx w2) as [o2 w2'] eqn:R2.
  simpl in E1, E2. subst o1 o2.
  exists r1, w1', r2, w2'. repeat split.
  eapply Same; reflexivity.
Qed.

End ScoreClaim.

Lemma minimax_alphabeta_same_score_witness :
  float_order Z.compare
  /\ ((forall r1 w1' r2 w2',
          minimax Z.compare tree_moves tree_forecast
                  (tree_agent 2 false Minimax 3) steady_clock
                  with_cutoff 2 true [] = (Ret r1, w1') ->
          alphabeta Z.compare tree_moves tree_forecast
                    (tree_agent 2 false Minimax 3) steady_clock
                    with_cutoff 2 NInf PInf true [ReadClock] = (Ret r2, w2') ->
          fst r1 = fst r2)
      /\ ((forall n, expired (tree_agent 2 false Minimax 3) steady_clock n = false) ->
          (forall n, expired (tree_agent 2 false Minimax 3) steady_clock n = false) ->
          exists r1 w1' r2 w2',
            minimax Z.compare tree_moves tree_forecast
                    (tree_agent 2 false Minimax 3) steady_clock
                    with_cutoff 2 true [] = (Ret r1, w1')
            /\ alphabeta Z.compare tree_moves tree_forecast
                         (tree_agent 2 false Minimax 3) steady_clock
                         with_cutoff 2 NInf PInf true [ReadClock] = (Ret r2, w2')
            /\ fst r1 = fst r2)).
Proof.
  split.
  - exact Z_compare_total.
  - apply (minimax_alphabeta_same_score Z_compare_total tree_moves tree_forecast
             (tree_agent 2 false Minimax 3) steady_clock steady_clock
             with_cutoff 2 true [] [ReadClock]).
Defined.

(** ** The claims about [get_move] *)

Section DriverClaims.

Variable F : Type.
Variable fcmp : F -> F -> comparison.
Variables Board Player : Type.
Variable get_legal_moves : Board -> list coord.
Variable forecast_move : Board -> coord -> Board.
Variable self : CustomPlayer Board Player F.
Variable time_left : nat -> Z.

(** In this section the functions of the agent stand for their instances at
    the section's board, agent and clock. *)
Local Abbreviation expired := (expired self time_left).
Local Abbreviation in_time := (in_time self time_left).
Local Abbreviation disciplined := (disciplined self time_left).
Local Abbreviation guarded_entry := (guarded_entry self time_left).
Local Abbreviation top_level_search :=
  (top_level_search fcmp get_legal_moves forecast_move self time_left).
Local Abbreviation iterative_deepening :=
  (iterative_deepening fcmp get_legal_moves forecast_move self time_left).
Local Abbreviation get_move :=
  (get_move fcmp get_legal_moves forecast_move self time_left).
Local Abbreviation completed_rounds :=
  (completed_rounds fcmp get_legal_moves forecast_move self time_left).
Local Abbreviation best_recorded := (best_recorded fcmp).

Lemma disciplined_search game depth w :
  disciplined w (top_level_search game depth w).
Proof.
  unfold top_level_search. destruct (method self).
  - apply disciplined_minimax.
  - apply disciplined_alphabeta.
Qed.

Lemma guarded_search game depth w :
  guarded_entry w (top_level_search game depth w).
Proof.
  unfold top_level_search. destruct (method self).
  - apply minimax_guarded_entry.
  - apply alphabeta_guarded_entry.
Qed.

Lemma search_raises_timeout game depth w e w' :
  top_level_search game depth w = (Raise e, w') -> e = Timeout.
Proof.
  intro H. destruct (disciplined_search game depth w) as (evs & _ & D).
  rewrite H in D. simpl in D. tauto.
Qed.

(** C9: with an empty list of legal moves [get_move] returns the sentinel
    at once: the state is left as it was, so no top_level_search was entered (no
    clock reading) and the heuristic was not evaluated. *)
Theorem get_move_without_legal_moves fuel game w :
  get_move fuel game [] w = Some (Ret (Flat NO_MOVE), w)
  /\ (forall res,
         get_move fuel game [] w = Some res ->
         evaluations (snd res) = evaluations w
         /\ clock_reads (snd res) = clock_reads w).
Proof.
  split; [reflexivity|].
  intros res H. inversion H. split; reflexivity.
Qed.

Lemma deepen_returns_move fuel :
  forall game d bm bs w res,
    iterative_deepening fuel game d bm bs w = Some res -> exists mv, fst res = Ret mv.
Proof.
  induction fuel as [|fuel IH]; intros game d bm bs w res H; simpl in H.
  - discriminate.
  - destruct (top_level_search game d w) as [[[rs rm] | e] w1] eqn:S.
    + destruct (ltb fcmp bs rs); eapply IH; eassumption.
    + apply search_raises_timeout in S. subst e.
      inversion H. now exists bm.
Qed.

Lemma in_time_readings evs :
  forall n0 k,
    in_time n0 evs = true ->
    n0 <= k < n0 + clock_reads evs ->
    expired k = false.
Proof.
  induction evs as [|e rest IH]; intros n0 k H Hk.
  - unfold clock_reads in Hk. simpl in Hk. lia.
  - destruct e; simpl in H.
    + apply andb_true_iff in H. destruct H as [H1 H2].
      unfold clock_reads in Hk. simpl in Hk.
      destruct (Nat.eq_dec k n0) as [E | E].
      * subst k. now apply negb_true_iff in H1.
      * apply (IH (S n0) k H2). unfold clock_reads. lia.
    + apply (IH n0 k H). exact Hk.
    + apply (IH n0 k H). exact Hk.
Qed.

(** A top_level_search that returns has used up at least one reading, all of them in
    time. *)
Lemma search_consumes_readings game d w r w1 n :
  top_level_search game d w = (Ret r, w1) ->
  clock_reads w <= n -> expired n = true ->
  clock_reads w < clock_reads w1 /\ clock_reads w1 <= n.
Proof.
  intros Hs Hn Hl.
  destruct (disciplined_search game d w) as (evs & Hw & D).
  destruct (guarded_search game d w) as (evs' & Hw' & _).
  rewrite Hs in Hw, D, Hw'. simpl in Hw, D, Hw'.
  split.
  - rewrite Hw', clock_reads_app. unfold clock_reads at 3. simpl. lia.
  - rewrite Hw, clock_reads_app.
    destruct (Nat.lt_ge_cases n (clock_reads w + clock_reads evs)) as [L | L];
      [|exact L].
    rewrite (in_time_readings evs D (conj Hn L)) in Hl. discriminate.
Qed.

Lemma rounds_exist game n k :
  forall d w,
    clock_reads w <= n -> n < clock_reads w + k -> expired n = true ->
    exists rounds w', completed_rounds game d w rounds w'.
Proof.
  induction k as [|k IH]; intros d w Hn Hk Hl; [lia|].
  destruct (top_level_search game d w) as [[r | e] w1] eqn:Hs.
  - destruct (search_consumes_readings game d w Hs Hn Hl) as [L1 L2].
    destruct (IH (S d) w1 L2 ltac:(lia) Hl) as (rounds & w' & R).
    exists (r :: rounds), w'. eapply rounds_completed; eassumption.
  - pose proof (search_raises_timeout game d w Hs). subst e.
    exists [], w1. now apply rounds_cancelled.
Qed.

Lemma deepen_follows_rounds game d w rounds w' :
  completed_rounds game d w rounds w' ->
  forall fuel bm bs,
    length rounds < fuel ->
    iterative_deepening fuel game d bm bs w
    = Some (Ret (snd (fold_left
                        (fun best round =>
                           if ltb fcmp (fst best) (fst round)
                           then round else best)
                        rounds (bs, bm))), w').
Proof.
  induction 1 as [d w w' Hs | d w r w1 rounds w' Hs _ IH];
    intros fuel bm bs Hf.
  - destruct fuel as [|fuel]; [simpl in Hf; lia|].
    simpl. rewrite Hs. reflexivity.
  - destruct fuel as [|fuel]; [simpl in Hf; lia|].
    simpl in Hf. simpl. rewrite Hs. destruct r as [rs rm]. simpl.
    rewrite Nat.add_1_r.
    destruct (ltb fcmp bs rs); apply IH; lia.
Qed.

Lemma get_move_returns_move fuel game legal_moves w res :
  get_move fuel game legal_moves w = Some res -> exists mv, fst res = Ret mv.
Proof.
  intro H. unfold get_move in H.
  destruct (is_empty legal_moves).
  - inversion H. now exists (Flat NO_MOVE).
  - destruct (iterative self).
    + eapply deepen_returns_move; eassumption.
    + destruct (top_level_search game (search_depth self) w)
        as [[[rs rm] | e] w1] eqn:S.
      * inversion H. now exists rm.
      * apply search_raises_timeout in S. subst e.
        inversion H. now exists (Flat NO_MOVE).
Qed.

Lemma get_move_fixed_returns fuel game legal_moves w :
  iterative self = false ->
  exists res, get_move fuel game legal_moves w = Some res.
Proof.
  intro Hfixed. unfold get_move. rewrite Hfixed.
  destruct (is_empty legal_moves); [eexists; reflexivity|].
  destruct (top_level_search game (search_depth self) w)
    as [[[rs rm] | [|]] w1]; eexists; reflexivity.
Qed.

(** Once the clock reads low, [get_move] returns, given fuel enough for
    the rounds that complete before. *)
Lemma get_move_returns_in_the_end game legal_moves w n :
  clock_reads w <= n -> expired n = true ->
  exists fuel0 res,
    forall fuel, fuel0 <= fuel -> get_move fuel game legal_moves w = Some res.
Proof.
  intros Hn Hl.
  destruct (iterative self) eqn:Hit.
  - destruct (@rounds_exist game n (S n - clock_reads w) 1 w Hn ltac:(lia) Hl)
      as (rounds & w' & R).
    destruct legal_moves as [|m ms].
    + exists 0. eexists. intros fuel _. reflexivity.
    + exists (S (length rounds)). eexists. intros fuel Hf.
      unfold get_move. rewrite Hit. simpl is_empty. cbv iota.
      apply (deepen_follows_rounds R). lia.
  - exists 0.
    destruct (get_move_fixed_returns 0 game legal_moves w Hit) as [res E].
    exists res. intros fuel _. rewrite <- E.
    unfold get_move. rewrite Hit. reflexivity.
Qed.

(** C8: [Timeout] is handled where [get_move] calls the search and nowhere
    else.  Whenever [get_move] returns, it returns a move, never an
    exception; it does return in fixed-depth mode, and in either mode once
    the clock reads low.  Inside the search nothing catches the exception:
    a low reading anywhere in the recursion makes [Timeout] the outcome of
    the whole top-level call, which [get_move] turns into the sentinel
    (fixed depth) or into the best move recorded so far (one round of
    iterative deepening). *)
Theorem timeout_stays_inside fuel game legal_moves w :
  (forall res, get_move fuel game legal_moves w = Some res ->
               exists mv, fst res = Ret mv)
  /\ (iterative self = false ->
      exists res, get_move fuel game legal_moves w = Some res)
  /\ (forall n, clock_reads w <= n -> expired n = true ->
                exists fuel0 res,
                  forall fuel', fuel0 <= fuel' ->
                                get_move fuel' game legal_moves w = Some res)
  /\ (forall depth, disciplined w (top_level_search game depth w))
  /\ (forall w', legal_moves <> [] -> iterative self = false ->
                 top_level_search game (search_depth self) w
                 = (Raise Timeout, w') ->
                 get_move fuel game legal_moves w
                 = Some (Ret (Flat NO_MOVE), w'))
  /\ (forall d bm bs w',
         top_level_search game d w = (Raise Timeout, w') ->
         iterative_deepening (S fuel) game d bm bs w = Some (Ret bm, w')).
Proof.
  split; [apply get_move_returns_move|].
  split; [apply get_move_fixed_returns|].
  split; [intros n; apply get_move_returns_in_the_end|].
  split; [intro depth; apply disciplined_search|].
  split.
  - intros w' Hne Hfixed Hs. unfold get_move. rewrite Hfixed, Hs.
    destruct legal_moves; [contradiction|reflexivity].
  - intros d bm bs w' Hs. simpl. rewrite Hs. reflexivity.
Qed.

(** C3: in iterative-deepening mode, when the clock at some point reads
    below the threshold, [get_move] returns, and what it returns is fixed by
    the rounds that completed: the searches at depths 1, 2, ... run one
    after the other until the first that raises [Timeout]; the get_move
    returned is the one on record after the last round that completed,
    where a round replaces the recorded best get_move and score only when its
    score is strictly greater than the best recorded before; when no round
    completed it is the sentinel. *)
Theorem iterative_deepening_result game legal_moves w n :
  legal_moves <> [] ->
  iterative self = true ->
  clock_reads w <= n ->
  expired n = true ->
  exists rounds w',
    completed_rounds game 1 w rounds w'
    /\ (forall fuel,
           length rounds < fuel ->
           get_move fuel game legal_moves w
           = Some (Ret (snd (best_recorded rounds)), w'))
    /\ (rounds = [] -> snd (best_recorded rounds) = Flat NO_MOVE).
Proof.
  intros Hne Hit Hn Hl.
  destruct (@rounds_exist game n (S n - clock_reads w) 1 w Hn ltac:(lia) Hl)
    as (rounds & w' & R).
  exists rounds, w'. split; [exact R|]. split.
  - intros fuel Hf. unfold get_move. rewrite Hit.
    destruct legal_moves; [contradiction|]. simpl is_empty. cbv iota.
    apply (deepen_follows_rounds R). exact Hf.
  - intro E. subst rounds. reflexivity.
Qed.

End DriverClaims.

Lemma iterative_deepening_result_witness :
  tree_moves two_moves <> []
  /\ iterative (tree_agent 3 true AlphaBeta 3) = true
  /\ clock_reads (@nil (event tree)) <= 10
  /\ expired (tree_agent 3 true AlphaBeta 3) (draining_clock 100) 10 = true
  /\ exists rounds w',
      completed_rounds Z.compare tree_moves tree_forecast
        (tree_agent 3 true AlphaBeta 3) (draining_clock 100)
        two_moves 1 [] rounds w'
      /\ (forall fuel,
             length rounds < fuel ->
             get_move Z.compare tree_moves tree_forecast
               (tree_agent 3 true AlphaBeta 3) (draining_clock 100)
               fuel two_moves (tree_moves two_moves) []
             = Some (Ret (snd (best_recorded Z.compare rounds)), w'))
      /\ (rounds = [] -> snd (best_recorded Z.compare rounds) = Flat NO_MOVE).
Proof.
  assert (H1 : tree_moves two_moves <> []) by discriminate.
  assert (H2 : iterative (tree_agent 3 true AlphaBeta 3) = true) by reflexivity.
  assert (H3 : clock_reads (@nil (event tree)) <= 10) by (vm_compute; lia).
  assert (H4 : expired (tree_agent 3 true AlphaBeta 3) (draining_clock 100) 10
               = true) by reflexivity.
  repeat (split; [assumption|]).
  exact (@iterative_deepening_result Z Z.compare tree unit
           tree_moves tree_forecast
           (tree_agent 3 true AlphaBeta 3) (draining_clock 100)
           two_moves (tree_moves two_moves) [] 10 H1 H2 H3 H4).
Defined.

(** The driver on the two-move board: three rounds complete before the clock
    runs low, and the move worth 5 is returned. *)
Example get_move_two_moves :
  option_map fst
    (get_move Z.compare tree_moves tree_forecast
       (tree_agent 3 true AlphaBeta 3) (draining_clock 100)
       5 two_moves (tree_moves two_moves) [])
  = Some (Ret (Flat (0, 0)%Z)).
Proof. reflexivity. Qed.

(** The move on record need not come from the last round that completed:
    here depth 1 gives 5 for the first move, depth 2 gives 2 for the second,
    and the first move stays on record. *)
Example deepening_keeps_earlier_best :
  fst (alphabeta Z.compare tree_moves tree_forecast
         (tree_agent 3 true AlphaBeta 3) steady_clock
         second_thoughts 1 NInf PInf true [])
  = Ret (Fin 5%Z, Flat (0, 0)%Z)
  /\ fst (alphabeta Z.compare tree_moves tree_forecast
            (tree_agent 3 true AlphaBeta 3) steady_clock
            second_thoughts 2 NInf PInf true [])
     = Ret (Fin 2%Z, Flat (0, 1)%Z)
  /\ option_map fst
       (get_move Z.compare tree_moves tree_forecast
          (tree_agent 3 true AlphaBeta 3) (draining_clock 100)
          5 second_thoughts (tree_moves second_thoughts) [])
     = Some (Ret (Flat (0, 0)%Z)).
Proof. repeat split; reflexivity. Qed.

Lemma get_move_without_legal_moves_witness :
  get_move Z.compare tree_moves tree_forecast
    (tree_agent 3 true Minimax 3) steady_clock 0 two_moves [] [ReadClock]
  = Some (Ret (Flat NO_MOVE), [ReadClock]).
Proof.
  exact (proj1 (get_move_without_legal_moves Z.compare tree_moves tree_forecast
                  (tree_agent 3 true Minimax 3) steady_clock 0 two_moves
                  [ReadClock])).
Defined.

(** The clock reads 15, 5 and -5: the third reading, at the entry of the call
    on the second child, is below the threshold of 3. *)
Lemma timeout_stays_inside_witness :
  tree_moves two_moves <> []
  /\ iterative (tree_agent 1 false Minimax 3) = false
  /\ top_level_search Z.compare tree_moves tree_forecast
       (tree_agent 1 false Minimax 3) (draining_clock 15)
       two_moves (search_depth (tree_agent 1 false Minimax 3)) []
     = (Raise Timeout,
        [ReadClock;
         Forecast two_moves (0, 0)%Z; ReadClock; Evaluate (leaf 5);
         Forecast two_moves (0, 1)%Z; ReadClock])
  /\ get_move Z.compare tree_moves tree_forecast
       (tree_agent 1 false Minimax 3) (draining_clock 15)
       0 two_moves (tree_moves two_moves) []
     = Some (Ret (Flat NO_MOVE),
             [ReadClock;
              Forecast two_moves (0, 0)%Z; ReadClock; Evaluate (leaf 5);
              Forecast two_moves (0, 1)%Z; ReadClock]).
Proof.
  assert (H1 : tree_moves two_moves <> []) by discriminate.
  assert (H2 : iterative (tree_agent 1 false Minimax 3) = false) by reflexivity.
  assert (H3 : top_level_search Z.compare tree_moves tree_forecast
                 (tree_agent 1 false Minimax 3) (draining_clock 15)
                 two_moves (search_depth (tree_agent 1 false Minimax 3)) []
               = (Raise Timeout,
                  [ReadClock;
                   Forecast two_moves (0, 0)%Z; ReadClock; Evaluate (leaf 5);
                   Forecast two_moves (0, 1)%Z; ReadClock]))
    by reflexivity.
  repeat (split; [assumption|]).
  exact (proj1 (proj2 (proj2 (proj2 (proj2
           (timeout_stays_inside Z.compare tree_moves tree_forecast
              (tree_agent 1 false Minimax 3) (draining_clock 15)
              0 two_moves (tree_moves two_moves) [])))))
           _ H1 H2 H3).
Defined.

(** ** The claims about the heuristics *)

Section HeuristicClaims.

Variable F : Type.
Variable ops : float_ops F.
Variables Board Player : Type.
Variable get_legal_moves : Board -> Player -> list coord.
Variable get_opponent : Board -> Player -> Player.
Variable get_blank_spaces : Board -> list coord.
Variable width : Board -> Z.
Variable height : Board -> Z.

(** In this section the heuristics stand for their instances at the
    section's board. *)
Local Abbreviation calc_ratio_of_moves :=
  (calc_ratio_of_moves ops get_legal_moves get_opponent).
Local Abbreviation calc_move_diff_with_spaces :=
  (calc_move_diff_with_spaces ops get_legal_moves get_opponent
     get_blank_spaces width height).
Local Abbreviation calc_move_diff_from_center :=
  (calc_move_diff_from_center ops get_legal_moves get_opponent width height).
Local Abbreviation center_weight := (center_weight ops width).

(** On a board of non-zero width the loops of the calc_move_diff_from_center heuristic run to
    their end. *)
Lemma center_weight_returns game board_center moves :
  width game <> 0%Z ->
  forall acc, exists v,
    center_weight game board_center moves acc = Ret v.
Proof.
  intro Hw. induction moves as [|m rest IH]; intro acc; simpl.
  - now exists acc.
  - destruct (coord_eqb m (3, 3)%Z); [apply IH|].
    unfold float_div_int.
    destruct (Z.eqb_spec (width game) 0) as [E | E]; [contradiction|].
    simpl. apply IH.
Qed.

(** C2, as the code has it: each of the three heuristics gives [+inf]
    whenever the opponent of [player] has no legal move, whatever [player]
    has, and gives [-inf] whenever [player] has no legal move and the
    opponent has at least one.  The calc_move_diff_from_center heuristic divides by the board's
    width while it sums the moves, so for it the board's width must not
    be zero. *)
Theorem heuristic_extremes game player :
  (get_legal_moves game (get_opponent game player) = [] ->
   calc_ratio_of_moves game player = Ret PInf
   /\ calc_move_diff_with_spaces game player = Ret PInf
   /\ (width game <> 0%Z -> calc_move_diff_from_center game player = Ret PInf))
  /\ (get_legal_moves game player = [] ->
      get_legal_moves game (get_opponent game player) <> [] ->
      calc_ratio_of_moves game player = Ret NInf
      /\ calc_move_diff_with_spaces game player = Ret NInf
      /\ (width game <> 0%Z -> calc_move_diff_from_center game player = Ret NInf)).
Proof.
  split.
  - intro Hopp. repeat split.
    + unfold calc_ratio_of_moves. now rewrite Hopp.
    + unfold calc_move_diff_with_spaces. now rewrite Hopp.
    + intro Hw. unfold calc_move_diff_from_center.
      destruct (center_weight_returns
                  (width game / 2, height game / 2)%Z
                  (get_legal_moves game player) Hw (of_int ops 0))
        as [ps Eps].
      rewrite Eps. simpl. now rewrite Hopp.
  - intros Hpl Hopp. repeat split.
    + unfold calc_ratio_of_moves. rewrite Hpl.
      destruct (get_legal_moves game (get_opponent game player));
        [contradiction | reflexivity].
    + unfold calc_move_diff_with_spaces. rewrite Hpl.
      destruct (get_legal_moves game (get_opponent game player));
        [contradiction | reflexivity].
    + intro Hw. unfold calc_move_diff_from_center. rewrite Hpl. simpl.
      destruct (center_weight_returns
                  (width game / 2, height game / 2)%Z
                  (get_legal_moves game (get_opponent game player))
                  Hw (of_int ops 0))
        as [os Eos].
      rewrite Eos. simpl.
      destruct (get_legal_moves game (get_opponent game player));
        [contradiction | reflexivity].
Qed.

End HeuristicClaims.

Lemma heuristic_extremes_witness :
  (position_moves opponent_stuck (position_opponent opponent_stuck Player1) = []
   /\ pos_width opponent_stuck <> 0%Z
   /\ calc_ratio_of_moves binary64 position_moves position_opponent
        opponent_stuck Player1 = Ret PInf
   /\ calc_move_diff_with_spaces binary64 position_moves position_opponent
        blank_spaces pos_width pos_height opponent_stuck Player1 = Ret PInf
   /\ calc_move_diff_from_center binary64 position_moves position_opponent
        pos_width pos_height opponent_stuck Player1 = Ret PInf)
  /\ (position_moves player_stuck Player1 = []
      /\ position_moves player_stuck (position_opponent player_stuck Player1) <> []
      /\ pos_width player_stuck <> 0%Z
      /\ calc_ratio_of_moves binary64 position_moves position_opponent
           player_stuck Player1 = Ret NInf
      /\ calc_move_diff_with_spaces binary64 position_moves position_opponent
           blank_spaces pos_width pos_height player_stuck Player1 = Ret NInf
      /\ calc_move_diff_from_center binary64 position_moves position_opponent
           pos_width pos_height player_stuck Player1 = Ret NInf).
Proof.
  assert (W : (7 <> 0)%Z) by discriminate.
  assert (H1 : position_moves opponent_stuck
                 (position_opponent opponent_stuck Player1) = [])
    by reflexivity.
  assert (H2 : position_moves player_stuck Player1 = []) by reflexivity.
  assert (H3 : position_moves player_stuck
                 (position_opponent player_stuck Player1) <> [])
    by discriminate.
  destruct (proj1 (heuristic_extremes binary64 position_moves position_opponent
                     blank_spaces pos_width pos_height opponent_stuck Player1)
                  H1) as (A1 & A2 & A3).
  destruct (proj2 (heuristic_extremes binary64 position_moves position_opponent
                     blank_spaces pos_width pos_height player_stuck Player1)
                  H2 H3) as (B1 & B2 & B3).
  split.
  - split; [exact H1|]. split; [exact W|].
    split; [exact A1|]. split; [exact A2|]. exact (A3 W).
  - split; [exact H2|]. split; [exact H3|]. split; [exact W|].
    split; [exact B1|]. split; [exact B2|]. exact (B3 W).
Defined.

(** The two extremes on concrete positions, and an ordinary position. *)
Example heuristics_on_positions :
  calc_move_diff_from_center binary64 position_moves position_opponent
    pos_width pos_height opponent_stuck Player1 = Ret PInf
  /\ calc_move_diff_from_center binary64 position_moves position_opponent
       pos_width pos_height player_stuck Player1 = Ret NInf
  /\ calc_move_diff_with_spaces binary64 position_moves position_opponent
       blank_spaces pos_width pos_height player_stuck Player2 = Ret PInf
  /\ calc_move_diff_with_spaces binary64 position_moves position_opponent
       blank_spaces pos_width pos_height
       {| moves_1 := [(1, 1); (1, 2)]%Z; moves_2 := [(4, 4)]%Z;
          blank_spaces := [(1, 1); (1, 2); (4, 4); (0, 0)]%Z;
          pos_width := 2; pos_height := 4 |} Player1
     = Ret (Fin 2%float)
  /\ calc_move_diff_with_spaces binary64 position_moves position_opponent
       blank_spaces pos_width pos_height
       {| moves_1 := [(1, 1)]%Z; moves_2 := [(4, 4)]%Z;
          blank_spaces := []; pos_width := 7; pos_height := 7 |} Player1
     = Raise ZeroDivisionError.
Proof. repeat split; reflexivity. Qed.

(** C2 as stated fails where both players are without a legal move: [player]
    has none, and all three heuristics give [+inf], not [-inf]. *)
Lemma heuristics_both_stuck :
  position_moves both_stuck Player1 = []
  /\ position_moves both_stuck (position_opponent both_stuck Player1) = []
  /\ calc_ratio_of_moves binary64 position_moves position_opponent
       both_stuck Player1 = Ret PInf
  /\ calc_move_diff_with_spaces binary64 position_moves position_opponent
       blank_spaces pos_width pos_height both_stuck Player1 = Ret PInf
  /\ calc_move_diff_from_center binary64 position_moves position_opponent
       pos_width pos_height both_stuck Player1 = Ret PInf
  /\ calc_ratio_of_moves binary64 position_moves position_opponent
       both_stuck Player1 <> Ret NInf.
Proof. repeat split; try reflexivity. discriminate. Qed.

(** ** Which move [minimax] keeps *)

Section Selection.

Variable F : Type.
Variable fcmp : F -> F -> comparison.
Hypothesis fcmp_total : float_order fcmp.
Variables Board Player : Type.
Variable get_legal_moves : Board -> list coord.
Variable forecast_move : Board -> coord -> Board.
Variable self : CustomPlayer Board Player F.
Variable time_left : nat -> Z.

Local Abbreviation lt := (slt fcmp).
Local Abbreviation le := (sle fcmp).
Local Abbreviation mm_fold := (minimax_fold fcmp forecast_move).
Local Abbreviation minimax :=
  (minimax fcmp get_legal_moves forecast_move self time_left).
Local Abbreviation minimax_result :=
  (minimax_result fcmp get_legal_moves forecast_move self).

Section Folds.

Variable rec : Board -> score F * pymove.
Variable game : Board.

Local Abbreviation child := (fun m => fst (rec (forecast_move game m))).

Lemma minimax_fold_max_keeps ms :
  forall h best,
    (forall m, In m ms ->
               le (child m) (fst (mm_fold rec game true ms h best)))
    /\ ((fst (mm_fold rec game true ms h best) = h
         /\ snd (mm_fold rec game true ms h best) = best)
        \/ exists pre m post,
            ms = pre ++ m :: post
            /\ snd (mm_fold rec game true ms h best) = Flat m
            /\ fst (mm_fold rec game true ms h best) = child m
            /\ lt h (child m)
            /\ forall m', In m' pre -> lt (child m') (child m)).
Proof using fcmp_total.
  induction ms as [|m0 rest IH]; intros h best.
  - split; [intros m []|]. left. split; reflexivity.
  - simpl mm_fold.
    pose proof (minimax_fold_max_ge fcmp_total forecast_move rec game rest)
      as Ge.
    destruct (gtb fcmp (child m0) h) eqn:G.
    + specialize (Ge (child m0) (Flat m0)).
      destruct (IH (child m0) (Flat m0)) as [A B]. split.
      * intros m [E | Hin]; [subst m; exact Ge | now apply A].
      * right. destruct B as [[B1 B2] | (pre & m1 & post & E & B1 & B2 & B3 & B4)].
        -- exists [], m0, rest. repeat split; auto.
           ++ order fcmp_total.
           ++ intros m' [].
        -- exists (m0 :: pre), m1, post. repeat split; auto.
           ++ simpl. now rewrite E.
           ++ revert G B3. generalize (child m0), (child m1).
              intros c0 c1 G B3. order fcmp_total.
           ++ intros m' [E' | Hin]; [subst m'; exact B3 | now apply B4].
    + specialize (Ge h best).
      destruct (IH h best) as [A B]. split.
      * intros m [E | Hin]; [subst m | now apply A].
        revert G Ge. generalize (child m0).
        generalize (fst (mm_fold rec game true rest h best)).
        intros v c0 G Ge. order fcmp_total.
      * destruct B as [[B1 B2] | (pre & m1 & post & E & B1 & B2 & B3 & B4)].
        -- left. split; assumption.
        -- right. exists (m0 :: pre), m1, post. repeat split; auto.
           ++ simpl. now rewrite E.
           ++ intros m' [E' | Hin]; [subst m' | now apply B4].
              revert G B3. generalize (child m0), (child m1).
              intros c0 c1 G B3. order fcmp_total.
Qed.

Lemma minimax_fold_min_keeps ms :
  forall h best,
    (forall m, In m ms ->
               le (fst (mm_fold rec game false ms h best)) (child m))
    /\ ((fst (mm_fold rec game false ms h best) = h
         /\ snd (mm_fold rec game false ms h best) = best)
        \/ exists pre m post,
            ms = pre ++ m :: post
            /\ snd (mm_fold rec game false ms h best) = Flat m
            /\ fst (mm_fold rec game false ms h best) = child m
            /\ lt (child m) h
            /\ forall m', In m' pre -> lt (child m) (child m')).
Proof using fcmp_total.
  induction ms as [|m0 rest IH]; intros h best.
  - split; [intros m []|]. left. split; reflexivity.
  - simpl mm_fold.
    pose proof (minimax_fold_min_le fcmp_total forecast_move rec game rest)
      as Ge.
    destruct (ltb fcmp (child m0) h) eqn:G.
    + specialize (Ge (child m0) (Flat m0)).
      destruct (IH (child m0) (Flat m0)) as [A B]. split.
      * intros m [E | Hin]; [subst m; exact Ge | now apply A].
      * right. destruct B as [[B1 B2] | (pre & m1 & post & E & B1 & B2 & B3 & B4)].
        -- exists [], m0, rest. repeat split; auto.
           ++ order fcmp_total.
           ++ intros m' [].
        -- exists (m0 :: pre), m1, post. repeat split; auto.
           ++ simpl. now rewrite E.
           ++ revert G B3. generalize (child m0), (child m1).
              intros c0 c1 G B3. order fcmp_total.
           ++ intros m' [E' | Hin]; [subst m'; exact B3 | now apply B4].
    + specialize (Ge h best).
      destruct (IH h best) as [A B]. split.
      * intros m [E | Hin]; [subst m | now apply A].
        revert G Ge. generalize (child m0).
        generalize (fst (mm_fold rec game false rest h best)).
        intros v c0 G Ge. order fcmp_total.
      * destruct B as [[B1 B2] | (pre & m1 & post & E & B1 & B2 & B3 & B4)].
        -- left. split; assumption.
        -- right. exists (m0 :: pre), m1, post. repeat split; auto.
           ++ simpl. now rewrite E.
           ++ intros m' [E' | Hin]; [subst m' | now apply B4].
              revert G B3. generalize (child m0), (child m1).
              intros c0 c1 G B3. order fcmp_total.
Qed.

End Folds.

(** What holds of C5 for [minimax]: at a maximizing node with legal moves
    whose call returns, the score is the greatest child score; if it is
    above [-inf], the move is the first move, in the board's order, whose
    child attains it; if it is [-inf], nothing replaced the initial record
    and the move is the sentinel. *)
Lemma minimax_keeps_first_best game depth w v mv w' :
  get_legal_moves game <> [] ->
  minimax game (S depth) true w = (Ret (v, mv), w') ->
  (forall m, In m (get_legal_moves game) ->
             le (fst (minimax_result (forecast_move game m) depth false)) v)
  /\ ((v = NInf /\ mv = Flat NO_MOVE)
      \/ exists pre m post,
          get_legal_moves game = pre ++ m :: post
          /\ mv = Flat m
          /\ v = fst (minimax_result (forecast_move game m) depth false)
          /\ forall m', In m' pre ->
                        lt (fst (minimax_result (forecast_move game m') depth false)) v).
Proof using fcmp_total.
  intros Hne Hrun. apply minimax_returns in Hrun. simpl in Hrun.
  destruct (get_legal_moves game) as [|m0 rest] eqn:Hms; [contradiction|].
  simpl is_empty in Hrun. cbv iota in Hrun.
  destruct (minimax_fold_max_keeps
              (fun b => minimax_result b depth false) game (m0 :: rest)
              NInf (Flat NO_MOVE)) as [A B].
  rewrite <- Hrun in A, B. simpl fst in A, B. simpl snd in B.
  split; [exact A|].
  destruct B as [[B1 B2] | (pre & m1 & post & E & B1 & B2 & B3 & B4)].
  - left. split; assumption.
  - right. exists pre, m1, post. repeat split; auto.
    intros m' Hin. rewrite B2. now apply B4.
Qed.

End Selection.

(** ** Where the search keeps something else than a legal move *)

(** C5 on the code: the agent has two legal moves, both into positions worth
    [-inf].  The greatest child score is [-inf] and the first move attains
    it, but no child is strictly greater than the initial [-inf], so
    [minimax] and [alphabeta] keep the sentinel.  And at a minimizing node of
    [alphabeta] whose children are worth 5 and 3, what is recorded for the
    least child is not its coordinate pair [(0, 1)] but a pair nesting the
    earlier records. *)
Lemma kept_move_is_not_first_best :
  map (fun m =>
         fst (minimax Z.compare tree_moves tree_forecast
                (tree_agent 1 false Minimax 3) steady_clock
                (tree_forecast all_lost m) 0 false []))
      (tree_moves all_lost)
  = [Ret (NInf, Flat NO_MOVE); Ret (NInf, Flat NO_MOVE)]
  /\ fst (minimax Z.compare tree_moves tree_forecast
            (tree_agent 1 false Minimax 3) steady_clock all_lost 1 true [])
     = Ret (NInf, Flat NO_MOVE)
  /\ fst (alphabeta Z.compare tree_moves tree_forecast
            (tree_agent 1 false AlphaBeta 3) steady_clock all_lost 1
            NInf PInf true [])
     = Ret (NInf, Flat NO_MOVE)
  /\ map (fun m =>
            fst (alphabeta Z.compare tree_moves tree_forecast
                   (tree_agent 1 false AlphaBeta 3) steady_clock
                   (tree_forecast two_moves m) 0 NInf PInf true []))
         (tree_moves two_moves)
     = [Ret (Fin 5%Z, Flat NO_MOVE); Ret (Fin 3%Z, Flat NO_MOVE)]
  /\ fst (alphabeta Z.compare tree_moves tree_forecast
            (tree_agent 1 false AlphaBeta 3) steady_clock two_moves 1
            NInf PInf false [])
     = Ret (Fin 3%Z, Nest (0, 1)%Z (Nest (0, 0)%Z (Flat NO_MOVE))).
Proof. repeat split; reflexivity. Qed.

(** C10 on the code: the runs themselves.  With two legal moves on the board,
    [minimax] and [alphabeta] at depth 1 return the sentinel as move, and so
    does [get_move]; a minimizing call of [alphabeta] returns a nested tuple,
    also as the recursive call made from the root at depth 2. *)
Lemma search_move_is_not_a_legal_move :
  tree_moves all_lost = [(0, 0)%Z; (0, 1)%Z]
  /\ fst (minimax Z.compare tree_moves tree_forecast
            (tree_agent 1 false Minimax 3) steady_clock all_lost 1 true [])
     = Ret (NInf, Flat (-1, -1)%Z)
  /\ fst (alphabeta Z.compare tree_moves tree_forecast
            (tree_agent 1 false AlphaBeta 3) steady_clock all_lost 1
            NInf PInf true [])
     = Ret (NInf, Flat (-1, -1)%Z)
  /\ option_map fst
       (get_move Z.compare tree_moves tree_forecast
          (tree_agent 1 false Minimax 3) steady_clock
          0 all_lost (tree_moves all_lost) [])
     = Some (Ret (Flat (-1, -1)%Z))
  /\ tree_moves two_moves = [(0, 0)%Z; (0, 1)%Z]
  /\ fst (alphabeta Z.compare tree_moves tree_forecast
            (tree_agent 1 false AlphaBeta 3) steady_clock two_moves 1
            NInf PInf false [])
     = Ret (Fin 3%Z, Nest (0, 1)%Z (Nest (0, 0)%Z (Flat (-1, -1)%Z)))
  /\ fst (alphabeta Z.compare tree_moves tree_forecast
            (tree_agent 2 false AlphaBeta 3) steady_clock
            (tree_forecast two_plies (1, 1)%Z) 1 NInf PInf (negb true)
            [ReadClock; Forecast two_plies (1, 1)%Z])
     = Ret (Fin 3%Z, Nest (0, 1)%Z (Nest (0, 0)%Z (Flat (-1, -1)%Z))).
Proof. repeat split; reflexivity. Qed.

(** * Further properties of the module *)

(** ** The heuristics: when they raise, and how the two players' scores relate *)

Section HeuristicFacts.

Variable F : Type.
Variable ops : float_ops F.
Variables Board Player : Type.
Variable get_legal_moves : Board -> Player -> list coord.
Variable get_opponent : Board -> Player -> Player.
Variable get_blank_spaces : Board -> list coord.
Variable width : Board -> Z.
Variable height : Board -> Z.

(** In this section the heuristics stand for their instances at the
    section's board. *)
Local Abbreviation calc_ratio_of_moves :=
  (calc_ratio_of_moves ops get_legal_moves get_opponent).
Local Abbreviation calc_move_diff_with_spaces :=
  (calc_move_diff_with_spaces ops get_legal_moves get_opponent
     get_blank_spaces width height).
Local Abbreviation calc_move_diff_from_center :=
  (calc_move_diff_from_center ops get_legal_moves get_opponent width height).
Local Abbreviation center_weight := (center_weight ops width).

Lemma is_empty_false_iff {A : Type} (l : list A) :
  is_empty l = false <-> l <> [].
Proof. destruct l; simpl; split; congruence. Qed.

Lemma len_nonzero {A : Type} (l : list A) : l <> [] -> len l <> 0%Z.
Proof. destruct l; [congruence|]. unfold len. simpl. lia. Qed.

(** X1: [calc_ratio_of_moves] never raises: the only division is by the
    number of the opponent's moves, made when that number is not zero.  With
    moves on both sides the score is the finite quotient of the two
    counts. *)
Theorem calc_ratio_of_moves_returns game player :
  (exists s, calc_ratio_of_moves game player = Ret s)
  /\ (get_legal_moves game player <> [] ->
      get_legal_moves game (get_opponent game player) <> [] ->
      calc_ratio_of_moves game player
      = Ret (Fin (fdiv ops
                    (of_int ops (len (get_legal_moves game player)))
                    (of_int ops (len (get_legal_moves game
                                        (get_opponent game player))))))).
Proof.
  unfold calc_ratio_of_moves, int_truediv.
  destruct (get_legal_moves game (get_opponent game player)) as [|o os] eqn:Eo.
  - split; [now exists PInf | congruence].
  - destruct (get_legal_moves game player) as [|p ps] eqn:Ep.
    + split; [now exists NInf | congruence].
    + simpl is_empty. cbv iota.
      rewrite !Z.mul_1_l.
      destruct (Z.eqb_spec (len (o :: os)) 0) as [E | E].
      * exfalso. revert E. apply len_nonzero. discriminate.
      * simpl. split; [eexists; reflexivity | reflexivity].
Qed.

(** X2: [calc_move_diff_with_spaces] raises [ZeroDivisionError] exactly
    when both players have a legal move and the board reports no blank
    space; in every other case it returns.  So it returns on every board
    whose legal moves lead to blank spaces. *)
Theorem calc_move_diff_with_spaces_raises game player :
  (calc_move_diff_with_spaces game player = Raise ZeroDivisionError
   <-> get_legal_moves game player <> []
       /\ get_legal_moves game (get_opponent game player) <> []
       /\ get_blank_spaces game = [])
  /\ ((exists s, calc_move_diff_with_spaces game player = Ret s)
      \/ calc_move_diff_with_spaces game player = Raise ZeroDivisionError)
  /\ ((forall m, In m (get_legal_moves game player) ->
                 In m (get_blank_spaces game)) ->
      exists s, calc_move_diff_with_spaces game player = Ret s).
Proof.
  unfold calc_move_diff_with_spaces, int_truediv.
  destruct (get_legal_moves game (get_opponent game player)) as [|o os] eqn:Eo;
    simpl is_empty; cbv iota.
  { split; [|split].
    - split; [discriminate | intros (_ & H & _); congruence].
    - left. now exists PInf.
    - intros _. now exists PInf. }
  destruct (get_legal_moves game player) as [|p ps] eqn:Ep;
    simpl is_empty; cbv iota.
  { split; [|split].
    - split; [discriminate | intros (H & _); congruence].
    - left. now exists NInf.
    - intros _. now exists NInf. }
  destruct (get_blank_spaces game) as [|b bs] eqn:Eb.
  - change (len (@nil coord)) with 0%Z. simpl.
    split; [|split].
    + split; [intros _; repeat split; discriminate | reflexivity].
    + now right.
    + intros H. destruct (H p (or_introl eq_refl)).
  - destruct (Z.eqb_spec (len (b :: bs)) 0) as [E | E].
    { exfalso. revert E. apply len_nonzero. discriminate. }
    simpl. split; [|split].
    + split; [discriminate | intros (_ & _ & H); discriminate].
    + left. eexists; reflexivity.
    + intros _. eexists; reflexivity.
Qed.

Lemma coord_eqb_eq (a b : coord) : coord_eqb a b = true <-> a = b.
Proof.
  unfold coord_eqb. destruct a as [a1 a2], b as [b1 b2]. simpl.
  rewrite andb_true_iff, !Z.eqb_eq. split.
  - intros [H1 H2]. now subst.
  - intro H. inversion H. auto.
Qed.

(** The sum over a list of moves raises exactly when the width is zero and
    some move is not [(3, 3)]. *)
Lemma center_weight_outcome game board_center moves :
  forall acc,
    (width game = 0%Z /\ (exists m, In m moves /\ m <> (3, 3)%Z)
     /\ center_weight game board_center moves acc = Raise ZeroDivisionError)
    \/ (~ (width game = 0%Z /\ exists m, In m moves /\ m <> (3, 3)%Z)
        /\ exists v, center_weight game board_center moves acc = Ret v).
Proof.
  induction moves as [|m rest IH]; intro acc; simpl.
  - right. split; [intros (_ & m & [] & _) | now exists acc].
  - destruct (coord_eqb m (3, 3)%Z) eqn:E.
    + apply coord_eqb_eq in E.
      destruct (IH (fadd ops acc (of_int ops 1)))
        as [(W & (m' & Hin & Hne) & R) | (N & R)].
      * left. split; [exact W|]. split; [|exact R].
        exists m'. split; [now right | exact Hne].
      * right. split; [|exact R].
        intros (W & m' & [Hm | Hin] & Hne); [congruence|].
        apply N. split; [exact W|]. now exists m'.
    + assert (Hne : m <> (3, 3)%Z).
      { intro H. apply coord_eqb_eq in H. congruence. }
      unfold float_div_int.
      destruct (Z.eqb_spec (width game) 0) as [W | W].
      * left. split; [exact W|]. split; [|reflexivity].
        exists m. split; [now left | exact Hne].
      * simpl.
        destruct (IH (fadd ops acc
                        (fsub ops (of_int ops 1)
                           (fdiv ops
                              (fsqrt ops
                                 (of_int ops
                                    ((fst board_center - fst m) ^ 2
                                     + (snd board_center - snd m) ^ 2)%Z))
                              (of_int ops (width game))))))
          as [(W' & _) | (N & R)]; [contradiction|].
        right. split; [|exact R]. intros (W' & _). contradiction.
Qed.

(** X3: [calc_move_diff_from_center] raises [ZeroDivisionError] exactly when
    the board's width is zero and one of the two players has a legal move
    other than [(3, 3)]; otherwise it returns.  The sums over both move
    lists are made before the extremes are tested, so on such a board it
    raises even when a player has no move at all. *)
Theorem calc_move_diff_from_center_raises game player :
  (calc_move_diff_from_center game player = Raise ZeroDivisionError
   <-> width game = 0%Z
       /\ exists m,
           In m (get_legal_moves game player
                 ++ get_legal_moves game (get_opponent game player))
           /\ m <> (3, 3)%Z)
  /\ ((exists s, calc_move_diff_from_center game player = Ret s)
      \/ calc_move_diff_from_center game player = Raise ZeroDivisionError).
Proof.
  unfold calc_move_diff_from_center.
  set (c := (width game / 2, height game / 2)%Z).
  destruct (center_weight_outcome game c (get_legal_moves game player)
              (of_int ops 0))
    as [(W & (m & Hin & Hne) & R) | (N & ps & R)]; rewrite R; simpl.
  - split; [|now right].
    split; [intros _ | reflexivity].
    split; [exact W|]. exists m. split; [|exact Hne].
    apply in_or_app. now left.
  - destruct (center_weight_outcome game c
                (get_legal_moves game (get_opponent game player))
                (of_int ops 0))
      as [(W & (m & Hin & Hne) & R') | (N' & os & R')]; rewrite R'; simpl.
    + split; [|now right].
      split; [intros _ | reflexivity].
      split; [exact W|]. exists m. split; [|exact Hne].
      apply in_or_app. now right.
    + assert (Ok : exists s,
                 (if is_empty (get_legal_moves game (get_opponent game player))
                  then Ret PInf
                  else if is_empty (get_legal_moves game player)
                       then Ret NInf
                       else Ret (Fin (fsub ops
                                        (fmul ops (of_int ops 1) ps)
                                        (fmul ops (of_int ops 2) os))))
                 = Ret s).
      { destruct (is_empty _); [eexists; reflexivity|].
        destruct (is_empty _); eexists; reflexivity. }
      destruct Ok as [s Es]. rewrite Es.
      split; [|left; now exists s].
      split; [discriminate|].
      intros (W & m & Hin & Hne). exfalso.
      apply in_app_or in Hin. destruct Hin as [Hin | Hin].
      * apply N. split; [exact W|]. now exists m.
      * apply N'. split; [exact W|]. now exists m.
Qed.

(** X4: where exactly one player is stuck the heuristics are zero-sum: the
    player who can still move scores [+inf] and, seen from the stuck
    opponent, the same board scores [-inf].  Where both are stuck they are
    not: each player scores [+inf]. *)
Theorem heuristics_from_both_sides game player :
  get_opponent game (get_opponent game player) = player ->
  get_legal_moves game (get_opponent game player) = [] ->
  (get_legal_moves game player <> [] ->
   calc_ratio_of_moves game player = Ret PInf
   /\ calc_ratio_of_moves game (get_opponent game player) = Ret NInf
   /\ calc_move_diff_with_spaces game player = Ret PInf
   /\ calc_move_diff_with_spaces game (get_opponent game player) = Ret NInf
   /\ (width game <> 0%Z ->
       calc_move_diff_from_center game player = Ret PInf
       /\ calc_move_diff_from_center game (get_opponent game player)
          = Ret NInf))
  /\ (get_legal_moves game player = [] ->
      calc_ratio_of_moves game player = Ret PInf
      /\ calc_ratio_of_moves game (get_opponent game player) = Ret PInf
      /\ calc_move_diff_with_spaces game player = Ret PInf
      /\ calc_move_diff_with_spaces game (get_opponent game player) = Ret PInf
      /\ calc_move_diff_from_center game player = Ret PInf
      /\ calc_move_diff_from_center game (get_opponent game player)
         = Ret PInf).
Proof.
  intros Hinv Hopp. split.
  - intro Hpl.
    unfold calc_ratio_of_moves, calc_move_diff_with_spaces,
      calc_move_diff_from_center.
    rewrite Hinv, Hopp.
    destruct (get_legal_moves game player) as [|p ps] eqn:Ep; [congruence|].
    simpl is_empty. cbv iota.
    repeat (split; [reflexivity|]).
    intro Hw.
    destruct (center_weight_returns ops width game
                (width game / 2, height game / 2)%Z (p :: ps) Hw
                (of_int ops 0)) as [v Ev].
    rewrite Ev. simpl. split; reflexivity.
  - intro Hpl.
    unfold calc_ratio_of_moves, calc_move_diff_with_spaces,
      calc_move_diff_from_center.
    rewrite Hinv, Hopp, Hpl. simpl. repeat split; reflexivity.
Qed.

End HeuristicFacts.

Lemma heuristics_from_both_sides_witness :
  position_opponent opponent_stuck (position_opponent opponent_stuck Player1)
  = Player1
  /\ position_moves opponent_stuck (position_opponent opponent_stuck Player1) = []
  /\ position_moves opponent_stuck Player1 <> []
  /\ calc_move_diff_with_spaces binary64 position_moves position_opponent
       blank_spaces pos_width pos_height opponent_stuck Player1 = Ret PInf
  /\ calc_move_diff_with_spaces binary64 position_moves position_opponent
       blank_spaces pos_width pos_height opponent_stuck
       (position_opponent opponent_stuck Player1) = Ret NInf.
Proof.
  assert (H1 : position_opponent opponent_stuck
                 (position_opponent opponent_stuck Player1) = Player1)
    by reflexivity.
  assert (H2 : position_moves opponent_stuck
                 (position_opponent opponent_stuck Player1) = [])
    by reflexivity.
  assert (H3 : position_moves opponent_stuck Player1 <> []) by discriminate.
  destruct (proj1 (@heuristics_from_both_sides _ binary64 _ _ position_moves
                     position_opponent blank_spaces pos_width pos_height
                     opponent_stuck Player1 H1 H2) H3)
    as (_ & _ & A & B & _).
  repeat (split; [assumption|]). exact B.
Defined.

(** ** The search: bookkeeping, and alpha-beta against minimax *)

Section SearchFacts.

Variable F : Type.
Variable fcmp : F -> F -> comparison.
Variables Board Player : Type.
Variable get_legal_moves : Board -> list coord.
Variable forecast_move : Board -> coord -> Board.
Variable self : CustomPlayer Board Player F.
Variable time_left : nat -> Z.

(** In this section the functions of the agent stand for their instances at
    the section's board, agent and clock. *)
Local Abbreviation St := (M (world Board)).
Local Abbreviation minimax :=
  (minimax fcmp get_legal_moves forecast_move self time_left).
Local Abbreviation alphabeta :=
  (alphabeta fcmp get_legal_moves forecast_move self time_left).
Local Abbreviation alphabeta_loop := (alphabeta_loop fcmp forecast_move).
Local Abbreviation minimax_loop := (minimax_loop fcmp forecast_move).
Local Abbreviation expired := (expired self time_left).

Lemma evaluations_app (w1 w2 : world Board) :
  evaluations (w1 ++ w2) = evaluations w1 + evaluations w2.
Proof. unfold evaluations. now rewrite filter_app, length_app. Qed.

Lemma forecasts_app (w1 w2 : world Board) :
  forecasts (w1 ++ w2) = forecasts w1 + forecasts w2.
Proof. unfold forecasts. now rewrite filter_app, length_app. Qed.

Lemma counts_after_forecast game m (evs : list (event Board)) :
  clock_reads (Forecast game m :: evs) = clock_reads evs
  /\ forecasts (Forecast game m :: evs) = S (forecasts evs)
  /\ evaluations (Forecast game m :: evs) = evaluations evs.
Proof. repeat split; reflexivity. Qed.

Lemma tallied_extend {A B : Type} (k k1 : nat) (w w1 : world Board) evs1
      (res : outcome B * world Board) :
  w1 = w ++ evs1 ->
  clock_reads evs1 + k1 = forecasts evs1 + k ->
  evaluations evs1 <= clock_reads evs1 ->
  tallied k1 w1 res ->
  tallied k w res.
Proof.
  intros Hw Hc He (evs & Hs & Hc' & He'). subst w1.
  exists (evs1 ++ evs). split; [now rewrite Hs, app_assoc|].
  rewrite (clock_reads_app evs1 evs), forecasts_app, evaluations_app.
  lia.
Qed.

Lemma tallied_here {A : Type} (w : world Board) (o : outcome A) :
  tallied 0 w (o, w).
Proof.
  exists []. simpl. split; [now rewrite app_nil_r|].
  split; [reflexivity | apply Nat.le_refl].
Qed.

Lemma tallied_minimax_loop (rec : Board -> St (score F * pymove)) :
  (forall b w, tallied 1 w (rec b w)) ->
  forall game mx ms h best w,
    tallied 0 w (minimax_loop rec game mx ms h best w).
Proof.
  intros Hrec game mx ms.
  induction ms as [|m rest IH]; intros h best w; simpl.
  - apply tallied_here.
  - unfold bind at 1, forecast. unfold bind at 1.
    pose proof (Hrec (forecast_move game m) (w ++ [Forecast game m])) as Hc.
    destruct (rec (forecast_move game m) (w ++ [Forecast game m]))
      as [[[cur cb] | e] w1].
    + destruct Hc as (evs & Hs & Hc & He). simpl in Hs.
      destruct (counts_after_forecast game m evs) as (C1 & C2 & C3).
      assert (T : forall res : outcome (score F * pymove) * world Board,
                 tallied 0 w1 res -> tallied 0 w res).
      { intros res. apply (@tallied_extend unit _ 0 0 w w1
                             (Forecast game m :: evs)).
        - rewrite Hs. now rewrite <- app_assoc.
        - lia.
        - lia. }
      destruct mx.
      * destruct (gtb fcmp cur h); apply T, IH.
      * destruct (ltb fcmp cur h); apply T, IH.
    + destruct Hc as (evs & Hs & Hc & He). simpl in Hs.
      destruct (counts_after_forecast game m evs) as (C1 & C2 & C3).
      exists (Forecast game m :: evs). split.
      * simpl. rewrite Hs. now rewrite <- app_assoc.
      * lia.
Qed.

Lemma tallied_alphabeta_loop
      (rec : Board -> score F -> score F -> St (score F * pymove)) :
  (forall b al be w, tallied 1 w (rec b al be w)) ->
  forall game mx ms al be h best w,
    tallied 0 w (alphabeta_loop rec game mx ms al be h best w).
Proof.
  intros Hrec game mx ms.
  induction ms as [|m rest IH]; intros al be h best w; simpl.
  - apply tallied_here.
  - unfold bind at 1, forecast. unfold bind at 1.
    pose proof (Hrec (forecast_move game m) al be (w ++ [Forecast game m]))
      as Hc.
    destruct (rec (forecast_move game m) al be (w ++ [Forecast game m]))
      as [[[cur cb] | e] w1].
    + destruct Hc as (evs & Hs & Hc & He). simpl in Hs.
      destruct (counts_after_forecast game m evs) as (C1 & C2 & C3).
      assert (T : forall res : outcome (score F * pymove) * world Board,
                 tallied 0 w1 res -> tallied 0 w res).
      { intros res. apply (@tallied_extend unit _ 0 0 w w1
                             (Forecast game m :: evs)).
        - rewrite Hs. now rewrite <- app_assoc.
        - lia.
        - lia. }
      destruct mx.
      * destruct (gtb fcmp cur h).
        -- destruct (geb fcmp cur be); apply T;
             [apply tallied_here | apply IH].
        -- destruct (geb fcmp h be); apply T;
             [apply tallied_here | apply IH].
      * destruct (ltb fcmp cur h).
        -- destruct (leb fcmp cur al); apply T;
             [apply tallied_here | apply IH].
        -- destruct (leb fcmp h al); apply T;
             [apply tallied_here | apply IH].
    + destruct Hc as (evs & Hs & Hc & He). simpl in Hs.
      destruct (counts_after_forecast game m evs) as (C1 & C2 & C3).
      exists (Forecast game m :: evs). split.
      * simpl. rewrite Hs. now rewrite <- app_assoc.
      * lia.
Qed.

Lemma tallied_entry (w : world Board)
      (res : outcome (score F * pymove) * world Board) :
  tallied 0 (w ++ [ReadClock]) res -> tallied 1 w res.
Proof.
  apply (@tallied_extend unit _ 1 0 w (w ++ [ReadClock]) [ReadClock]);
    [reflexivity | reflexivity | apply Nat.le_0_l].
Qed.

Lemma tallied_leaf (w : world Board) game (r : outcome (score F * pymove)) :
  tallied 1 w (r, w ++ [ReadClock; Evaluate game]).
Proof.
  exists [ReadClock; Evaluate game].
  split; [reflexivity|]. split; [reflexivity | apply Nat.le_refl].
Qed.

Lemma tallied_minimax depth :
  forall game mx w, tallied 1 w (minimax game depth mx w).
Proof.
  induction depth as [|d IH]; intros game mx w;
    rewrite (minimax_entry fcmp get_legal_moves forecast_move self time_left);
    destruct (expired (clock_reads w));
    try (apply tallied_entry, tallied_here).
  - apply tallied_leaf.
  - destruct (is_empty (get_legal_moves game)); [apply tallied_leaf|].
    apply tallied_entry, tallied_minimax_loop. intros b w0. apply IH.
Qed.

Lemma tallied_alphabeta depth :
  forall game al be mx w, tallied 1 w (alphabeta game depth al be mx w).
Proof.
  induction depth as [|d IH]; intros game al be mx w;
    rewrite (alphabeta_entry fcmp get_legal_moves forecast_move self
               time_left);
    destruct (expired (clock_reads w));
    try (apply tallied_entry, tallied_here).
  - apply tallied_leaf.
  - destruct (is_empty (get_legal_moves game)); [apply tallied_leaf|].
    apply tallied_entry, tallied_alphabeta_loop. intros b a0 b0 w0. apply IH.
Qed.

(** The loop of [minimax] expands the moves it is given, all of them if
    it returns. *)
Lemma expanded_minimax_loop
      (child : Board -> bool -> list (event Board) -> Prop)
      (rec : Board -> St (score F * pymove)) :
  (forall b w, exists evs,
        snd (rec b w) = w ++ evs
        /\ child b (returned (fst (rec b w))) evs) ->
  forall game mx ms h best w,
  exists evs moves rest,
    snd (minimax_loop rec game mx ms h best w) = w ++ evs
    /\ ms = moves ++ rest
    /\ (ms <> [] -> moves <> [])
    /\ (returned (fst (minimax_loop rec game mx ms h best w)) = true ->
        rest = [])
    /\ expanded forecast_move child game moves
                (returned (fst (minimax_loop rec game mx ms h best w))) evs.
Proof.
  intros Hrec game mx ms.
  induction ms as [|m ms IH]; intros h best w.
  - exists [], [], []. simpl. rewrite app_nil_r.
    repeat split; auto. constructor.
  - remember (minimax_loop rec game mx (m :: ms) h best w) as res eqn:ER.
    simpl in ER. unfold bind at 1, forecast in ER. unfold bind at 1 in ER.
    destruct (Hrec (forecast_move game m) (w ++ [Forecast game m]))
      as (evs1 & Hs & Hc).
    destruct (rec (forecast_move game m) (w ++ [Forecast game m]))
      as [[[cur cb] | e] w1]; simpl in Hs, Hc.
    + assert (T : forall h' best',
                 exists evs moves rest,
                   snd (minimax_loop rec game mx ms h' best' w1) = w ++ evs
                   /\ m :: ms = moves ++ rest
                   /\ (m :: ms <> [] -> moves <> [])
                   /\ (returned
                         (fst (minimax_loop rec game mx ms h' best' w1))
                       = true -> rest = [])
                   /\ expanded forecast_move child game moves
                        (returned
                           (fst (minimax_loop rec game mx ms h' best' w1)))
                        evs).
      { intros h' best'.
        destruct (IH h' best' w1) as (evs2 & moves & rest & E1 & E2 & _
                                      & E4 & E5).
        exists (Forecast game m :: evs1 ++ evs2), (m :: moves), rest.
        split; [rewrite E1, Hs; now rewrite <- !app_assoc|].
        split; [now rewrite E2|].
        split; [discriminate|].
        split; [exact E4|].
        now apply expanded_more. }
      destruct mx.
      * destruct (gtb fcmp cur h); subst res; apply T.
      * destruct (ltb fcmp cur h); subst res; apply T.
    + subst res. exists (Forecast game m :: evs1), [m], ms. simpl.
      split; [rewrite Hs; now rewrite <- app_assoc|].
      split; [reflexivity|].
      split; [discriminate|].
      split; [discriminate|].
      now apply expanded_cut.
Qed.

(** The loop of [alphabeta] expands the first of the moves it is given:
    a cutoff ends it after a child that returned. *)
Lemma expanded_alphabeta_loop
      (child : Board -> bool -> list (event Board) -> Prop)
      (rec : Board -> score F -> score F -> St (score F * pymove)) :
  (forall b al be w, exists evs,
        snd (rec b al be w) = w ++ evs
        /\ child b (returned (fst (rec b al be w))) evs) ->
  forall game mx ms al be h best w,
  exists evs moves rest,
    snd (alphabeta_loop rec game mx ms al be h best w) = w ++ evs
    /\ ms = moves ++ rest
    /\ (ms <> [] -> moves <> [])
    /\ expanded forecast_move child game moves
                (returned
                   (fst (alphabeta_loop rec game mx ms al be h best w)))
                evs.
Proof.
  intros Hrec game mx ms.
  induction ms as [|m ms IH]; intros al be h best w.
  - exists [], [], []. simpl. rewrite app_nil_r.
    repeat split; auto. constructor.
  - remember (alphabeta_loop rec game mx (m :: ms) al be h best w)
      as res eqn:ER.
    simpl in ER. unfold bind at 1, forecast in ER. unfold bind at 1 in ER.
    destruct (Hrec (forecast_move game m) al be (w ++ [Forecast game m]))
      as (evs1 & Hs & Hc).
    destruct (rec (forecast_move game m) al be (w ++ [Forecast game m]))
      as [[[cur cb] | e] w1]; simpl in Hs, Hc.
    + assert (T : forall al' be' h' best',
                 exists evs moves rest,
                   snd (alphabeta_loop rec game mx ms al' be' h' best' w1)
                   = w ++ evs
                   /\ m :: ms = moves ++ rest
                   /\ (m :: ms <> [] -> moves <> [])
                   /\ expanded forecast_move child game moves
                        (returned
                           (fst (alphabeta_loop rec game mx ms al' be' h'
                                                best' w1)))
                        evs).
      { intros al' be' h' best'.
        destruct (IH al' be' h' best' w1)
          as (evs2 & moves & rest & E1 & E2 & _ & E5).
        exists (Forecast game m :: evs1 ++ evs2), (m :: moves), rest.
        split; [rewrite E1, Hs; now rewrite <- !app_assoc|].
        split; [now rewrite E2|].
        split; [discriminate|].
        now apply expanded_more. }
      assert (C : forall r : score F * pymove,
                 exists evs moves rest,
                   snd (ret r w1) = w ++ evs
                   /\ m :: ms = moves ++ rest
                   /\ (m :: ms <> [] -> moves <> [])
                   /\ expanded forecast_move child game moves
                        (returned (fst (ret r w1))) evs).
      { intros r.
        exists (Forecast game m :: evs1 ++ []), [m], ms. simpl.
        split; [rewrite Hs, app_nil_r; now rewrite <- app_assoc|].
        split; [reflexivity|].
        split; [discriminate|].
        apply expanded_more; [exact Hc | constructor]. }
      destruct mx.
      * destruct (gtb fcmp cur h).
        -- destruct (geb fcmp cur be); subst res; [apply C | apply T].
        -- destruct (geb fcmp h be); subst res; [apply C | apply T].
      * destruct (ltb fcmp cur h).
        -- destruct (leb fcmp cur al); subst res; [apply C | apply T].
        -- destruct (leb fcmp h al); subst res; [apply C | apply T].
    + subst res. exists (Forecast game m :: evs1), [m], ms. simpl.
      split; [rewrite Hs; now rewrite <- app_assoc|].
      split; [reflexivity|].
      split; [discriminate|].
      now apply expanded_cut.
Qed.

Lemma visits_minimax depth :
  forall game mx w,
    visits get_legal_moves forecast_move false depth game w
           (minimax game depth mx w).
Proof.
  induction depth as [|d IH]; intros game mx w; unfold visits;
    rewrite (minimax_entry fcmp get_legal_moves forecast_move self time_left);
    destruct (expired (clock_reads w)).
  - exists [ReadClock]. split; [reflexivity|]. left. now split.
  - exists [ReadClock; Evaluate game]. split; [reflexivity|].
    right. now split.
  - exists [ReadClock]. split; [reflexivity|]. left. now split.
  - simpl visit. destruct (is_empty (get_legal_moves game)) eqn:Hem.
    + exists [ReadClock; Evaluate game]. split; [reflexivity|].
      right. now split.
    + destruct (@expanded_minimax_loop
                  (visit get_legal_moves forecast_move false d)
                  (fun b => minimax b d (negb mx))
                  (fun b w0 => IH b (negb mx) w0)
                  game mx (get_legal_moves game)
                  (if mx then NInf else PInf) (Flat NO_MOVE)
                  (w ++ [ReadClock]))
        as (evs & moves & rest & E1 & E2 & E3 & E4 & E5).
      exists (ReadClock :: evs).
      split; [rewrite E1; now rewrite <- app_assoc|].
      right. exists moves, rest, evs.
      split; [exact E2|].
      split; [apply E3; intro H0; rewrite H0 in Hem; discriminate|].
      split; [intros Hd _; now apply E4|].
      split; [reflexivity | exact E5].
Qed.

Lemma visits_alphabeta depth :
  forall game al be mx w,
    visits get_legal_moves forecast_move true depth game w
           (alphabeta game depth al be mx w).
Proof.
  induction depth as [|d IH]; intros game al be mx w; unfold visits;
    rewrite (alphabeta_entry fcmp get_legal_moves forecast_move self
               time_left);
    destruct (expired (clock_reads w)).
  - exists [ReadClock]. split; [reflexivity|]. left. now split.
  - exists [ReadClock; Evaluate game]. split; [reflexivity|].
    right. now split.
  - exists [ReadClock]. split; [reflexivity|]. left. now split.
  - simpl visit. destruct (is_empty (get_legal_moves game)) eqn:Hem.
    + exists [ReadClock; Evaluate game]. split; [reflexivity|].
      right. now split.
    + destruct (@expanded_alphabeta_loop
                  (visit get_legal_moves forecast_move true d)
                  (fun b a0 b0 => alphabeta b d a0 b0 (negb mx))
                  (fun b a0 b0 w0 => IH b a0 b0 (negb mx) w0)
                  game mx (get_legal_moves game) al be
                  (if mx then NInf else PInf) (Flat NO_MOVE)
                  (w ++ [ReadClock]))
        as (evs & moves & rest & E1 & E2 & E3 & E5).
      exists (ReadClock :: evs).
      split; [rewrite E1; now rewrite <- app_assoc|].
      right. exists moves, rest, evs.
      split; [exact E2|].
      split; [apply E3; intro H0; rewrite H0 in Hem; discriminate|].
      split; [intros _ Hp; discriminate Hp|].
      split; [reflexivity | exact E5].
Qed.

(** X5: the bookkeeping of a search call, whether it returns or is cut
    short by [Timeout].  What it adds to the trace is a walk of the game
    tree: the reading of the clock at its entry; then nothing, if it is cut
    short there; one evaluation of its own board, at depth 0 or without
    legal moves; and otherwise, for the first legal moves of its board in
    their order, the forecast of the move followed at once by the whole
    trace of one call on the forecast board, one ply shallower.  So every
    forecast board is searched once, right after it is made, and a board is
    evaluated only by the call that stops at it.  Only the last of these
    calls can be cut short, and then the call itself is; a call of
    [minimax] that returns has expanded every legal move, a call of
    [alphabeta] at least one.  In numbers: the call reads the clock once
    more than it forecasts, and evaluates no more often than it reads. *)
Theorem search_bookkeeping game depth al be mx w :
  (visits get_legal_moves forecast_move false depth game w
          (minimax game depth mx w)
   /\ tallied 1 w (minimax game depth mx w))
  /\ (visits get_legal_moves forecast_move true depth game w
             (alphabeta game depth al be mx w)
      /\ tallied 1 w (alphabeta game depth al be mx w)).
Proof.
  split; split;
    [apply visits_minimax | apply tallied_minimax
     | apply visits_alphabeta | apply tallied_alphabeta].
Qed.

End SearchFacts.

Lemma subsequence_refl {A : Type} (l : list A) : subsequence l l.
Proof. induction l; constructor; assumption. Qed.

Lemma subsequence_nil_l {A : Type} (l : list A) : subsequence [] l.
Proof. induction l; constructor; assumption. Qed.

Lemma subsequence_app {A : Type} (a b c d : list A) :
  subsequence a b -> subsequence c d -> subsequence (a ++ c) (b ++ d).
Proof.
  intros H1 H2. induction H1; simpl.
  - exact H2.
  - now constructor.
  - now constructor.
Qed.

Lemma subsequence_filter_length {A : Type} (p : A -> bool) (l1 l2 : list A) :
  subsequence l1 l2 -> length (filter p l1) <= length (filter p l2).
Proof.
  induction 1 as [|x l1 l2 _ IH | x l1 l2 _ IH]; simpl.
  - apply Nat.le_refl.
  - destruct (p x); simpl; lia.
  - destruct (p x); simpl; lia.
Qed.

Section WorkFacts.

Variable F : Type.
Variable fcmp : F -> F -> comparison.
Variables Board Player : Type.
Variable get_legal_moves : Board -> list coord.
Variable forecast_move : Board -> coord -> Board.
Variable self : CustomPlayer Board Player F.
(** The clocks of the two runs. *)
Variable time_left time_left' : nat -> Z.

Local Abbreviation St := (M (world Board)).
Local Abbreviation minimax :=
  (minimax fcmp get_legal_moves forecast_move self time_left).
Local Abbreviation alphabeta :=
  (alphabeta fcmp get_legal_moves forecast_move self time_left').
Local Abbreviation alphabeta_loop := (alphabeta_loop fcmp forecast_move).
Local Abbreviation minimax_loop := (minimax_loop fcmp forecast_move).

(** What two runs that return have done, one against the other. *)
Local Abbreviation pruned w1 w1' w2 w2' :=
  (exists evs1 evs2 : list (event Board),
      w1' = w1 ++ evs1 /\ w2' = w2 ++ evs2 /\ subsequence evs2 evs1).

Lemma pruned_loops depth :
  (forall b mx al be u1 r1 u1' u2 r2 u2',
      minimax b depth mx u1 = (Ret r1, u1') ->
      alphabeta b depth al be mx u2 = (Ret r2, u2') ->
      pruned u1 u1' u2 u2') ->
  forall game mx ms h1 b1 w1 r1 w1' al be h2 b2 w2 r2 w2',
    minimax_loop (fun b => minimax b depth (negb mx)) game mx ms h1 b1 w1
    = (Ret r1, w1') ->
    alphabeta_loop (fun b a0 b0 => alphabeta b depth a0 b0 (negb mx))
                   game mx ms al be h2 b2 w2
    = (Ret r2, w2') ->
    pruned w1 w1' w2 w2'.
Proof.
  intros IHd game mx ms.
  induction ms as [|m rest IH];
    intros h1 b1 w1 r1 w1' al be h2 b2 w2 r2 w2' H1 H2; simpl in H1, H2.
  - inversion H1; inversion H2; subst.
    exists [], []. rewrite !app_nil_r. repeat split. constructor.
  - apply bind_Ret in H1. destruct H1 as (tb1 & w1f & Hf1 & H1).
    inversion Hf1; subst tb1 w1f; clear Hf1.
    apply bind_Ret in H1. destruct H1 as ([c1 cb1] & w1a & Hc1 & H1).
    apply bind_Ret in H2. destruct H2 as (tb2 & w2f & Hf2 & H2).
    inversion Hf2; subst tb2 w2f; clear Hf2.
    apply bind_Ret in H2. destruct H2 as ([c2 cb2] & w2a & Hc2 & H2).
    destruct (IHd _ _ _ _ _ _ _ _ _ _ Hc1 Hc2) as (e1 & e2 & E1 & E2 & S).
    assert (Cont : forall h1' b1' al' be' h2' b2',
               minimax_loop (fun b => minimax b depth (negb mx))
                            game mx rest h1' b1' w1a = (Ret r1, w1') ->
               alphabeta_loop
                 (fun b a0 b0 => alphabeta b depth a0 b0 (negb mx))
                 game mx rest al' be' h2' b2' w2a = (Ret r2, w2') ->
               pruned w1 w1' w2 w2').
    { intros h1' b1' al' be' h2' b2' G1 G2.
      destruct (IH _ _ _ _ _ _ _ _ _ _ _ _ G1 G2) as (f1 & f2 & F1 & F2 & T).
      exists (Forecast game m :: e1 ++ f1), (Forecast game m :: e2 ++ f2).
      split; [|split].
      - rewrite F1, E1. rewrite <- !app_assoc. reflexivity.
      - rewrite F2, E2. rewrite <- !app_assoc. reflexivity.
      - apply subsequence_keep. now apply subsequence_app. }
    assert (Cut : forall h1' b1',
               minimax_loop (fun b => minimax b depth (negb mx))
                            game mx rest h1' b1' w1a = (Ret r1, w1') ->
               w2' = w2a ->
               pruned w1 w1' w2 w2').
    { intros h1' b1' G1 G2.
      pose proof (tallied_minimax_loop fcmp forecast_move
                    (fun b => minimax b depth (negb mx))
                    (fun b w => tallied_minimax fcmp get_legal_moves
                                  forecast_move self time_left depth b
                                  (negb mx) w)
                    game mx rest h1' b1' w1a) as (f1 & F1 & _).
      rewrite G1 in F1. simpl in F1.
      exists (Forecast game m :: e1 ++ f1), (Forecast game m :: e2).
      split; [|split].
      - rewrite F1, E1. rewrite <- !app_assoc. reflexivity.
      - rewrite G2, E2. rewrite <- !app_assoc. reflexivity.
      - apply subsequence_keep.
        replace e2 with (e2 ++ []) by apply app_nil_r.
        apply subsequence_app; [exact S | apply subsequence_nil_l]. }
    destruct mx.
    + destruct (gtb fcmp c1 h1), (gtb fcmp c2 h2);
        match type of H2 with
        | (if ?c then _ else _) _ = _ =>
            destruct c;
            [ inversion H2; eapply Cut; [eassumption | congruence]
            | eapply Cont; eassumption ]
        end.
    + destruct (ltb fcmp c1 h1), (ltb fcmp c2 h2);
        match type of H2 with
        | (if ?c then _ else _) _ = _ =>
            destruct c;
            [ inversion H2; eapply Cut; [eassumption | congruence]
            | eapply Cont; eassumption ]
        end.
Qed.

Lemma pruned_calls depth :
  forall b mx al be u1 r1 u1' u2 r2 u2',
    minimax b depth mx u1 = (Ret r1, u1') ->
    alphabeta b depth al be mx u2 = (Ret r2, u2') ->
    pruned u1 u1' u2 u2'.
Proof.
  induction depth as [|d IH];
    intros b mx al be u1 r1 u1' u2 r2 u2' H1 H2;
    rewrite (minimax_entry fcmp get_legal_moves forecast_move self time_left)
      in H1;
    rewrite (alphabeta_entry fcmp get_legal_moves forecast_move self
               time_left') in H2;
    destruct (expired self time_left (clock_reads u1)); try discriminate;
    destruct (expired self time_left' (clock_reads u2)); try discriminate.
  - inversion H1; inversion H2; subst.
    exists [ReadClock; Evaluate b], [ReadClock; Evaluate b].
    repeat split. apply subsequence_refl.
  - destruct (is_empty (get_legal_moves b)).
    + inversion H1; inversion H2; subst.
      exists [ReadClock; Evaluate b], [ReadClock; Evaluate b].
      repeat split. apply subsequence_refl.
    + destruct (@pruned_loops d IH _ _ _ _ _ _ _ _ _ _ _ _ _ _ _ H1 H2)
        as (e1 & e2 & E1 & E2 & S).
      exists (ReadClock :: e1), (ReadClock :: e2). split; [|split].
      * rewrite E1, <- app_assoc. reflexivity.
      * rewrite E2, <- app_assoc. reflexivity.
      * now apply subsequence_keep.
Qed.

(** X6: alpha-beta only prunes.  When a call of [minimax] and a call of
    [alphabeta] on the same board, with the same depth and flag and any
    window, both return, what [alphabeta] did (clock readings, forecasts,
    evaluations, with their boards) is what [minimax] did with some of it
    left out, in the same order; so it enters no more calls, forecasts no
    more boards and evaluates no more positions. *)
Theorem alphabeta_only_prunes game depth mx al be w1 r1 w1' w2 r2 w2' :
  minimax game depth mx w1 = (Ret r1, w1') ->
  alphabeta game depth al be mx w2 = (Ret r2, w2') ->
  exists evs1 evs2,
    w1' = w1 ++ evs1
    /\ w2' = w2 ++ evs2
    /\ subsequence evs2 evs1
    /\ clock_reads evs2 <= clock_reads evs1
    /\ forecasts evs2 <= forecasts evs1
    /\ evaluations evs2 <= evaluations evs1.
Proof.
  intros H1 H2.
  destruct (@pruned_calls depth _ _ _ _ _ _ _ _ _ _ H1 H2)
    as (e1 & e2 & E1 & E2 & S).
  exists e1, e2. repeat (split; [assumption|]).
  repeat split; apply subsequence_filter_length; exact S.
Qed.

End WorkFacts.

(** ** The root of the search: alpha-beta picks the move minimax picks *)

Section RootFacts.

Variable F : Type.
Variable fcmp : F -> F -> comparison.
Hypothesis fcmp_total : float_order fcmp.
Variables Board Player : Type.
Variable get_legal_moves : Board -> list coord.
Variable forecast_move : Board -> coord -> Board.
Variable self : CustomPlayer Board Player F.
(** The clocks of the two runs. *)
Variable time_left time_left' : nat -> Z.

Local Abbreviation minimax :=
  (minimax fcmp get_legal_moves forecast_move self time_left).
Local Abbreviation alphabeta :=
  (alphabeta fcmp get_legal_moves forecast_move self time_left').
Local Abbreviation minimax_result :=
  (minimax_result fcmp get_legal_moves forecast_move self).
Local Abbreviation alphabeta_result :=
  (alphabeta_result fcmp get_legal_moves forecast_move self).
Local Abbreviation minimax_fold := (minimax_fold fcmp forecast_move).
Local Abbreviation alphabeta_fold := (alphabeta_fold fcmp forecast_move).

Lemma nothing_above_PInf (c : score F) : ltb fcmp PInf c = false.
Proof. destruct c; reflexivity. Qed.

(** Once the running best is [+inf] the maximizing loop of [minimax]
    changes nothing. *)
Lemma minimax_fold_at_PInf rec game ms :
  forall best, minimax_fold rec game true ms PInf best = (PInf, best).
Proof.
  induction ms as [|m rest IH]; intro best; simpl; [reflexivity|].
  unfold gtb. rewrite nothing_above_PInf. apply IH.
Qed.

Section RootLoop.

Variable rec_ab : Board -> score F -> score F -> score F * pymove.
Variable rec_mm : Board -> score F * pymove.
Hypothesis rec_window :
  forall b al be,
    slt fcmp al be ->
    within_window fcmp al be (fst (rec_mm b)) (fst (rec_ab b al be)).

(** The maximizing loop with [beta = +inf] and [alpha] equal to the
    running best does what the loop of [minimax] does. *)
Lemma alphabeta_fold_root game ms :
  forall h best,
    slt fcmp h PInf ->
    alphabeta_fold rec_ab game true ms h PInf h best
    = minimax_fold rec_mm game true ms h best.
Proof using fcmp_total rec_window.
  induction ms as [|m rest IH]; intros h best Hh; simpl; [reflexivity|].
  pose proof (@rec_window (forecast_move game m) h PInf Hh) as W.
  revert W.
  generalize (fst (rec_ab (forecast_move game m) h PInf)).
  generalize (fst (rec_mm (forecast_move game m))).
  intros cm ca W.
  destruct (within_window_cases fcmp_total Hh W)
    as [[A B] | [(A & B & C) | [A B]]].
  - assert (G1 : gtb fcmp ca h = false) by order fcmp_total.
    assert (G2 : gtb fcmp cm h = false) by order fcmp_total.
    assert (G3 : geb fcmp h PInf = false) by order fcmp_total.
    assert (G4 : py_max fcmp h ca = h) by order fcmp_total.
    rewrite G1, G2, G3, G4. now apply IH.
  - subst ca.
    assert (G1 : gtb fcmp cm h = true) by order fcmp_total.
    assert (G3 : geb fcmp cm PInf = false) by order fcmp_total.
    assert (G4 : py_max fcmp h cm = cm) by order fcmp_total.
    rewrite G1, G3, G4. now apply IH.
  - apply (sle_PInf fcmp_total) in A, B. subst cm ca.
    assert (G1 : gtb fcmp PInf h = true) by order fcmp_total.
    rewrite G1. simpl.
    now rewrite minimax_fold_at_PInf.
Qed.

End RootLoop.

Lemma alphabeta_result_root game depth :
  alphabeta_result game depth NInf PInf true = minimax_result game depth true.
Proof using fcmp_total.
  destruct depth as [|d]; simpl; [reflexivity|].
  destruct (is_empty (get_legal_moves game)); [reflexivity|].
  apply (@alphabeta_fold_root
           (fun b a0 b0 => alphabeta_result b d a0 b0 false)
           (fun b => minimax_result b d false)).
  - intros b al be H.
    apply (alphabeta_within_window fcmp_total get_legal_moves forecast_move
             self d b false H).
  - reflexivity.
Qed.

(** X7: called the way [get_move] calls them (maximizing, [alpha = -inf],
    [beta = +inf]), [alphabeta] returns not only the score but also the move
    that [minimax] returns, on every board and at every depth, whenever both
    calls return. *)
Theorem alphabeta_picks_minimax_move game depth w1 r1 w1' w2 r2 w2' :
  minimax game depth true w1 = (Ret r1, w1') ->
  alphabeta game depth NInf PInf true w2 = (Ret r2, w2') ->
  r2 = r1.
Proof using fcmp_total.
  intros H1 H2.
  apply minimax_returns in H1. apply alphabeta_returns in H2.
  subst r1 r2. apply alphabeta_result_root.
Qed.

(** X10: with any window [alpha < beta], at a maximizing or a minimizing
    node, the score [alphabeta] returns brackets the score [minimax]
    returns for the same board and depth: it is at or below [alpha] when
    the minimax score is, at or above [beta] when the minimax score is, and
    it is the minimax score when that lies strictly inside the window. *)
Theorem alphabeta_brackets_minimax game depth mx al be w1 r1 w1' w2 r2 w2' :
  slt fcmp al be ->
  minimax game depth mx w1 = (Ret r1, w1') ->
  alphabeta game depth al be mx w2 = (Ret r2, w2') ->
  within_window fcmp al be (fst r1) (fst r2).
Proof using fcmp_total.
  intros Hw H1 H2.
  apply minimax_returns in H1. apply alphabeta_returns in H2.
  subst r1 r2.
  apply (alphabeta_within_window fcmp_total get_legal_moves forecast_move
           self depth game mx Hw).
Qed.

End RootFacts.

(** ** The move that comes out of the search and of [get_move] *)

Section MoveFacts.

Variable F : Type.
Variable fcmp : F -> F -> comparison.
Variables Board Player : Type.
Variable get_legal_moves : Board -> list coord.
Variable forecast_move : Board -> coord -> Board.
Variable self : CustomPlayer Board Player F.
Variable time_left : nat -> Z.

(** In this section the functions of the agent stand for their instances at
    the section's board, agent and clock. *)
Local Abbreviation minimax :=
  (minimax fcmp get_legal_moves forecast_move self time_left).
Local Abbreviation alphabeta :=
  (alphabeta fcmp get_legal_moves forecast_move self time_left).
Local Abbreviation minimax_result :=
  (minimax_result fcmp get_legal_moves forecast_move self).
Local Abbreviation alphabeta_result :=
  (alphabeta_result fcmp get_legal_moves forecast_move self).
Local Abbreviation minimax_fold := (minimax_fold fcmp forecast_move).
Local Abbreviation alphabeta_fold := (alphabeta_fold fcmp forecast_move).
Local Abbreviation top_level_search :=
  (top_level_search fcmp get_legal_moves forecast_move self time_left).
Local Abbreviation iterative_deepening :=
  (iterative_deepening fcmp get_legal_moves forecast_move self time_left).
Local Abbreviation get_move :=
  (get_move fcmp get_legal_moves forecast_move self time_left).
Local Abbreviation expired := (expired self time_left).

Lemma minimax_fold_move rec game mx ms :
  forall h best,
    snd (minimax_fold rec game mx ms h best) = best
    \/ exists m, In m ms /\ snd (minimax_fold rec game mx ms h best) = Flat m.
Proof.
  induction ms as [|m rest IH]; intros h best; simpl; [now left|].
  assert (Keep : forall h' ,
             snd (minimax_fold rec game mx rest h' best) = best
             \/ exists m0, (m = m0 \/ In m0 rest)
                           /\ snd (minimax_fold rec game mx rest h' best)
                              = Flat m0).
  { intro h'. destruct (IH h' best) as [E | (m0 & Hin & E)];
      [now left | right; exists m0; auto]. }
  assert (Take : forall h',
             snd (minimax_fold rec game mx rest h' (Flat m)) = best
             \/ exists m0, (m = m0 \/ In m0 rest)
                           /\ snd (minimax_fold rec game mx rest h' (Flat m))
                              = Flat m0).
  { intro h'. right. destruct (IH h' (Flat m)) as [E | (m0 & Hin & E)];
      [exists m; auto | exists m0; auto]. }
  destruct mx.
  - destruct (gtb fcmp _ h); [apply Take | apply Keep].
  - destruct (ltb fcmp _ h); [apply Take | apply Keep].
Qed.

Lemma alphabeta_fold_max_move rec game ms :
  forall al be h best,
    snd (alphabeta_fold rec game true ms al be h best) = best
    \/ exists m, In m ms
                 /\ snd (alphabeta_fold rec game true ms al be h best) = Flat m.
Proof.
  induction ms as [|m rest IH]; intros al be h best; simpl; [now left|].
  destruct (gtb fcmp _ h).
  - right. destruct (geb fcmp _ be); [exists m; auto|].
    match goal with
    | |- context [alphabeta_fold rec game true rest ?a ?b ?c (Flat m)] =>
        destruct (IH a b c (Flat m)) as [E | (m0 & Hin & E)]
    end; [exists m; auto | exists m0; auto].
  - destruct (geb fcmp h be); [right; exists m; auto|].
    match goal with
    | |- context [alphabeta_fold rec game true rest ?a ?b ?c best] =>
        destruct (IH a b c best) as [E | (m0 & Hin & E)]
    end; [now left | right; exists m0; auto].
Qed.

Lemma minimax_result_move game depth mx :
  sentinel_or_legal (get_legal_moves game)
                    (snd (minimax_result game depth mx)).
Proof.
  destruct depth as [|d]; simpl.
  - exists NO_MOVE. auto.
  - destruct (is_empty (get_legal_moves game)); [exists NO_MOVE; auto|].
    match goal with
    | |- context [minimax_fold ?r game mx ?ms ?h ?b] =>
        destruct (minimax_fold_move r game mx ms h b) as [E | (m & Hin & E)]
    end; rewrite E; [exists NO_MOVE; auto | exists m; auto].
Qed.

Lemma alphabeta_result_move game depth al be :
  sentinel_or_legal (get_legal_moves game)
                    (snd (alphabeta_result game depth al be true)).
Proof.
  destruct depth as [|d]; simpl.
  - exists NO_MOVE. auto.
  - destruct (is_empty (get_legal_moves game)); [exists NO_MOVE; auto|].
    match goal with
    | |- context [alphabeta_fold ?r game true ?ms ?a ?b ?h ?bm] =>
        destruct (alphabeta_fold_max_move r game ms a b h bm)
          as [E | (m & Hin & E)]
    end; rewrite E; [exists NO_MOVE; auto | exists m; auto].
Qed.

(** X8: the move that [minimax] returns (at a maximizing or a minimizing
    node) and the move that [alphabeta] returns at a maximizing node, with
    any window, is a flat coordinate pair: the sentinel or one of the
    board's legal moves.  The nested tuple of the minimizing branch of
    [alphabeta] never comes out of a maximizing call. *)
Theorem search_returns_flat_move game depth mx al be w v mv w' :
  (minimax game depth mx w = (Ret (v, mv), w') ->
   sentinel_or_legal (get_legal_moves game) mv)
  /\ (alphabeta game depth al be true w = (Ret (v, mv), w') ->
      sentinel_or_legal (get_legal_moves game) mv).
Proof.
  split; intro H.
  - apply minimax_returns in H.
    pose proof (minimax_result_move game depth mx) as M.
    rewrite <- H in M. exact M.
  - apply alphabeta_returns in H.
    pose proof (alphabeta_result_move game depth al be) as M.
    rewrite <- H in M. exact M.
Qed.

Lemma top_level_search_move game depth w v mv w' :
  top_level_search game depth w = (Ret (v, mv), w') ->
  sentinel_or_legal (get_legal_moves game) mv.
Proof.
  unfold top_level_search. destruct (method self); intro H.
  - apply minimax_returns in H.
    pose proof (minimax_result_move game depth true) as M.
    rewrite <- H in M. exact M.
  - apply alphabeta_returns in H.
    pose proof (alphabeta_result_move game depth NInf PInf) as M.
    rewrite <- H in M. exact M.
Qed.

Lemma iterative_deepening_move fuel :
  forall game d bm bs w mv w',
    sentinel_or_legal (get_legal_moves game) bm ->
    iterative_deepening fuel game d bm bs w = Some (Ret mv, w') ->
    sentinel_or_legal (get_legal_moves game) mv.
Proof.
  induction fuel as [|fuel IH]; intros game d bm bs w mv w' Hbm H;
    simpl in H; [discriminate|].
  destruct (top_level_search game d w) as [[[rs rm] | e] w1] eqn:S.
  - apply top_level_search_move in S.
    destruct (ltb fcmp bs rs);
      [apply (IH _ _ _ _ _ _ _ S H) | apply (IH _ _ _ _ _ _ _ Hbm H)].
  - destruct e; inversion H; subst; assumption.
Qed.

(** X9: whatever the mode and the method, a move returned by [get_move] is a
    flat coordinate pair, and it is the sentinel or one of
    [game.get_legal_moves()]: never a nested tuple, and never a move taken
    from the [legal_moves] argument, which is only tested for emptiness. *)
Theorem get_move_returns_sentinel_or_legal fuel game legal_moves w mv w' :
  get_move fuel game legal_moves w = Some (Ret mv, w') ->
  sentinel_or_legal (get_legal_moves game) mv.
Proof.
  unfold get_move. destruct (is_empty legal_moves).
  - intro H. inversion H. exists NO_MOVE. auto.
  - destruct (iterative self).
    + apply iterative_deepening_move. exists NO_MOVE. auto.
    + destruct (top_level_search game (search_depth self) w)
        as [[[rs rm] | e] w1] eqn:S; intro H.
      * apply top_level_search_move in S. inversion H; subst. exact S.
      * destruct e; inversion H. exists NO_MOVE. auto.
Qed.

End MoveFacts.

(** ** Which move is kept: inside [minimax], and across the depths of
       iterative deepening *)

Section SelectionFacts.

Variable F : Type.
Variable fcmp : F -> F -> comparison.
Hypothesis fcmp_total : float_order fcmp.
Variables Board Player : Type.
Variable get_legal_moves : Board -> list coord.
Variable forecast_move : Board -> coord -> Board.
Variable self : CustomPlayer Board Player F.
Variable time_left : nat -> Z.

(** In this section the functions of the agent stand for their instances at
    the section's board, agent and clock. *)
Local Abbreviation minimax :=
  (minimax fcmp get_legal_moves forecast_move self time_left).
Local Abbreviation minimax_result :=
  (minimax_result fcmp get_legal_moves forecast_move self).
Local Abbreviation get_move :=
  (get_move fcmp get_legal_moves forecast_move self time_left).
Local Abbreviation completed_rounds :=
  (completed_rounds fcmp get_legal_moves forecast_move self time_left).
Local Abbreviation expired := (expired self time_left).

(** X11: which child [minimax] keeps at a node with legal moves.  At a
    maximizing node the score returned is at or above every child's score;
    either it is [-inf] and the move is the sentinel, or the move is the
    first move, in the board's order, whose child has that score, every
    earlier child scoring strictly less.  At a minimizing node the same
    holds with the order reversed and [+inf] for [-inf]. *)
Theorem minimax_selection game depth mx w v mv w' :
  get_legal_moves game <> [] ->
  minimax game (S depth) mx w = (Ret (v, mv), w') ->
  (forall m, In m (get_legal_moves game) ->
             if mx
             then sle fcmp (fst (minimax_result (forecast_move game m)
                                                depth (negb mx))) v
             else sle fcmp v (fst (minimax_result (forecast_move game m)
                                                  depth (negb mx))))
  /\ ((v = (if mx then NInf else PInf) /\ mv = Flat NO_MOVE)
      \/ exists pre m post,
          get_legal_moves game = pre ++ m :: post
          /\ mv = Flat m
          /\ v = fst (minimax_result (forecast_move game m) depth (negb mx))
          /\ forall m',
              In m' pre ->
              if mx
              then slt fcmp (fst (minimax_result (forecast_move game m')
                                                 depth (negb mx))) v
              else slt fcmp v (fst (minimax_result (forecast_move game m')
                                                   depth (negb mx)))).
Proof using fcmp_total.
  intros Hne Hrun. apply minimax_returns in Hrun. simpl in Hrun.
  destruct (get_legal_moves game) as [|m0 rest] eqn:Hms; [contradiction|].
  simpl is_empty in Hrun. cbv iota in Hrun.
  destruct mx; simpl negb in *.
  - destruct (minimax_fold_max_keeps fcmp_total forecast_move
                (fun b => minimax_result b depth false) game (m0 :: rest)
                NInf (Flat NO_MOVE)) as [A B].
    rewrite <- Hrun in A, B. simpl fst in A, B. simpl snd in B.
    split; [exact A|].
    destruct B as [[B1 B2] | (pre & m1 & post & E & B1 & B2 & B3 & B4)].
    + left. split; assumption.
    + right. exists pre, m1, post. repeat split; auto.
      intros m' Hin. rewrite B2. now apply B4.
  - destruct (minimax_fold_min_keeps fcmp_total forecast_move
                (fun b => minimax_result b depth true) game (m0 :: rest)
                PInf (Flat NO_MOVE)) as [A B].
    rewrite <- Hrun in A, B. simpl fst in A, B. simpl snd in B.
    split; [exact A|].
    destruct B as [[B1 B2] | (pre & m1 & post & E & B1 & B2 & B3 & B4)].
    + left. split; assumption.
    + right. exists pre, m1, post. repeat split; auto.
      intros m' Hin. rewrite B2. now apply B4.
Qed.

(** The record kept by the strict replacement rule, over any list of
    results and from any start. *)
Lemma record_spec (rounds : list (score F * pymove)) :
  forall init,
    sle fcmp (fst init)
        (fst (fold_left
                (fun best round =>
                   if ltb fcmp (fst best) (fst round) then round else best)
                rounds init))
    /\ (forall r, In r rounds ->
                  sle fcmp (fst r)
                      (fst (fold_left
                              (fun best round =>
                                 if ltb fcmp (fst best) (fst round)
                                 then round else best)
                              rounds init)))
    /\ (fold_left
          (fun best round =>
             if ltb fcmp (fst best) (fst round) then round else best)
          rounds init = init
        \/ exists pre r post,
            rounds = pre ++ r :: post
            /\ fold_left
                 (fun best round =>
                    if ltb fcmp (fst best) (fst round) then round else best)
                 rounds init = r
            /\ slt fcmp (fst init) (fst r)
            /\ forall r', In r' pre -> slt fcmp (fst r') (fst r)).
Proof using fcmp_total.
  induction rounds as [|r0 rest IH]; intro init; simpl.
  - split; [apply (sle_refl fcmp_total)|]. split; [intros r []|now left].
  - destruct (ltb fcmp (fst init) (fst r0)) eqn:G.
    + apply ltb_true_iff in G.
      destruct (IH r0) as (A & B & C).
      split; [|split].
      * apply (sle_iff fcmp_total). left.
        eapply (slt_sle_trans fcmp_total); eassumption.
      * intros r [E | Hin]; [subst r; exact A | now apply B].
      * right. destruct C as [C | (pre & r & post & E & C1 & C2 & C3)].
        -- exists [], r0, rest. repeat split; auto. intros r' [].
        -- exists (r0 :: pre), r, post. repeat split; auto.
           ++ simpl. now rewrite E.
           ++ eapply (slt_trans fcmp_total); eassumption.
           ++ intros r' [E' | Hin]; [subst r'; exact C2 | now apply C3].
    + apply (ltb_false_iff fcmp_total) in G.
      destruct (IH init) as (A & B & C).
      split; [exact A|]. split.
      * intros r [E | Hin]; [subst r | now apply B].
        apply (sle_iff fcmp_total) in G. destruct G as [G | G].
        -- apply (sle_iff fcmp_total). left.
           eapply (slt_sle_trans fcmp_total); eassumption.
        -- rewrite G. exact A.
      * destruct C as [C | (pre & r & post & E & C1 & C2 & C3)];
          [now left|].
        right. exists (r0 :: pre), r, post. repeat split; auto.
        -- simpl. now rewrite E.
        -- intros r' [E' | Hin]; [subst r' | now apply C3].
           eapply (sle_slt_trans fcmp_total); eassumption.
Qed.

(** X12: which move iterative deepening returns.  Once the clock reads
    low, [get_move] returns the move of the earliest completed depth whose
    score is the greatest among all completed depths: no completed depth
    scored more, and every depth before it scored strictly less.  If no
    depth completed, or all of them scored [-inf], it returns the
    sentinel. *)
Theorem iterative_deepening_selection game legal_moves w n :
  legal_moves <> [] ->
  iterative self = true ->
  clock_reads w <= n ->
  expired n = true ->
  exists rounds w' mv,
    completed_rounds game 1 w rounds w'
    /\ (forall fuel,
           length rounds < fuel ->
           get_move fuel game legal_moves w = Some (Ret mv, w'))
    /\ ((mv = Flat NO_MOVE /\ forall r, In r rounds -> fst r = NInf)
        \/ exists pre r post,
            rounds = pre ++ r :: post
            /\ mv = snd r
            /\ (forall r', In r' rounds -> sle fcmp (fst r') (fst r))
            /\ (forall r', In r' pre -> slt fcmp (fst r') (fst r))).
Proof using fcmp_total.
  intros Hne Hit Hn Hl.
  destruct (@rounds_exist _ fcmp _ _ get_legal_moves forecast_move self
              time_left game n (S n - clock_reads w) 1 w Hn ltac:(lia) Hl)
    as (rounds & w' & R).
  destruct (record_spec rounds (NInf, Flat NO_MOVE)) as (A & B & C).
  exists rounds, w'.
  eexists. split; [exact R|]. split.
  - intros fuel Hf. unfold get_move. rewrite Hit.
    destruct legal_moves; [contradiction|]. simpl is_empty. cbv iota.
    apply (deepen_follows_rounds R). exact Hf.
  - destruct C as [C | (pre & r & post & E & C1 & C2 & C3)].
    + left. rewrite C in *. simpl. split; [reflexivity|].
      intros r Hin. apply (sle_NInf fcmp_total). now apply B.
    + right. exists pre, r, post. rewrite C1 in *.
      repeat split; auto.
Qed.

End SelectionFacts.

(** ** The driver and the clock *)

Section DriverFacts.

Variable F : Type.
Variable fcmp : F -> F -> comparison.
Variables Board Player : Type.
Variable get_legal_moves : Board -> list coord.
Variable forecast_move : Board -> coord -> Board.
Variable self : CustomPlayer Board Player F.
Variable time_left : nat -> Z.

(** In this section the functions of the agent stand for their instances at
    the section's board, agent and clock. *)
Local Abbreviation expired := (expired self time_left).
Local Abbreviation disciplined := (disciplined self time_left).
Local Abbreviation top_level_search :=
  (top_level_search fcmp get_legal_moves forecast_move self time_left).
Local Abbreviation iterative_deepening :=
  (iterative_deepening fcmp get_legal_moves forecast_move self time_left).
Local Abbreviation get_move :=
  (get_move fcmp get_legal_moves forecast_move self time_left).
Local Abbreviation completed_rounds :=
  (completed_rounds fcmp get_legal_moves forecast_move self time_left).

(** A search that raises has met a low reading, at or after its start. *)
Lemma search_raise_reading game d w e w' :
  top_level_search game d w = (Raise e, w') ->
  exists n, clock_reads w <= n /\ expired n = true.
Proof.
  intro H.
  destruct (disciplined_search fcmp get_legal_moves forecast_move self
              time_left game d w) as (evs & _ & D).
  rewrite H in D. simpl in D. destruct D as (_ & pre & _ & _ & L).
  exists (clock_reads w + clock_reads pre). split; [lia | exact L].
Qed.

(** A search that returns leaves at least as many readings behind. *)
Lemma search_return_reads game d w r w' :
  top_level_search game d w = (Ret r, w') -> clock_reads w <= clock_reads w'.
Proof.
  intro H.
  destruct (disciplined_search fcmp get_legal_moves forecast_move self
              time_left game d w) as (evs & Hw & _).
  rewrite H in Hw. simpl in Hw. rewrite Hw, clock_reads_app. lia.
Qed.

Lemma iterative_deepening_end_reading fuel :
  forall game d bm bs w res,
    iterative_deepening fuel game d bm bs w = Some res ->
    exists n, clock_reads w <= n /\ expired n = true.
Proof.
  induction fuel as [|fuel IH]; intros game d bm bs w res H; simpl in H;
    [discriminate|].
  destruct (top_level_search game d w) as [[[rs rm] | e] w1] eqn:S.
  - pose proof (search_return_reads game d w S) as Hr.
    assert (G : exists n, clock_reads w1 <= n /\ expired n = true).
    { destruct (ltb fcmp bs rs); eapply IH; eassumption. }
    destruct G as (n & Hn & Hl). exists n. split; [lia | exact Hl].
  - eapply search_raise_reading; eassumption.
Qed.

(** X13: in iterative-deepening mode, with legal moves, [get_move] returns
    exactly when the clock at some point from then on reads below the
    threshold.  The loop has no other way out: with a clock that never reads
    low it goes on forever, also when a round has already searched the
    whole game tree. *)
Theorem iterative_get_move_returns_iff game legal_moves w :
  legal_moves <> [] ->
  iterative self = true ->
  ((exists fuel res, get_move fuel game legal_moves w = Some res)
   <-> exists n, clock_reads w <= n /\ expired n = true).
Proof.
  intros Hne Hit. split.
  - intros (fuel & res & H). unfold get_move in H. rewrite Hit in H.
    destruct legal_moves; [contradiction|]. simpl in H.
    eapply iterative_deepening_end_reading; eassumption.
  - intros (n & Hn & Hl).
    destruct (get_move_returns_in_the_end fcmp get_legal_moves forecast_move
                self time_left game legal_moves w Hn Hl)
      as (fuel0 & res & H).
    exists fuel0, res. apply H. apply Nat.le_refl.
Qed.

(** X14: when the clock already reads below the threshold as [get_move]
    is called with legal moves, the search is abandoned at its first
    reading and [get_move] returns the sentinel, in either mode and with
    either method, although legal moves exist. *)
Theorem get_move_out_of_time fuel game legal_moves w :
  legal_moves <> [] ->
  expired (clock_reads w) = true ->
  iterative self = false \/ 0 < fuel ->
  get_move fuel game legal_moves w
  = Some (Ret (Flat NO_MOVE), w ++ [ReadClock]).
Proof.
  intros Hne Hl Hmode.
  assert (S : forall d,
             top_level_search game d w = (Raise Timeout, w ++ [ReadClock])).
  { intro d. unfold top_level_search. destruct (method self).
    - rewrite (minimax_entry fcmp get_legal_moves forecast_move self
                 time_left). now rewrite Hl.
    - rewrite (alphabeta_entry fcmp get_legal_moves forecast_move self
                 time_left). now rewrite Hl. }
  unfold get_move. destruct legal_moves; [contradiction|]. simpl is_empty.
  cbv iota. destruct (iterative self).
  - destruct Hmode as [Hm | Hf]; [discriminate|].
    destruct fuel as [|fuel]; [lia|]. simpl. now rewrite S.
  - now rewrite S.
Qed.

(** X15: every round of iterative deepening uses up at least one reading
    of the clock, so if reading number [n] is low, fewer than
    [n - clock_reads w + 1] rounds complete: the depth reached is bounded by
    the readings left, whatever the board. *)
Theorem completed_rounds_bound game d w rounds w' n :
  completed_rounds game d w rounds w' ->
  clock_reads w <= n ->
  expired n = true ->
  length rounds <= n - clock_reads w.
Proof.
  induction 1 as [d w w' Hs | d w r w1 rounds w' Hs _ IH]; intros Hn Hl;
    simpl; [lia|].
  destruct (search_consumes_readings fcmp get_legal_moves forecast_move self
              time_left game d w Hs Hn Hl) as [L1 L2].
  specialize (IH L2 Hl). lia.
Qed.

End DriverFacts.

(** ** Searching deeper than the game lasts *)

Section SaturationFacts.

Variable F : Type.
Variable fcmp : F -> F -> comparison.
Variables Board Player : Type.
Variable get_legal_moves : Board -> list coord.
Variable forecast_move : Board -> coord -> Board.
Variable self : CustomPlayer Board Player F.
(** The clocks of the two runs. *)
Variable time_left time_left' : nat -> Z.

Local Abbreviation minimax_result :=
  (minimax_result fcmp get_legal_moves forecast_move self).
Local Abbreviation alphabeta_result :=
  (alphabeta_result fcmp get_legal_moves forecast_move self).
Local Abbreviation minimax_fold := (minimax_fold fcmp forecast_move).
Local Abbreviation alphabeta_fold := (alphabeta_fold fcmp forecast_move).
Local Abbreviation ends_within :=
  (ends_within get_legal_moves forecast_move).

Lemma minimax_fold_ext rec1 rec2 game mx ms :
  (forall m, In m ms ->
             fst (rec1 (forecast_move game m))
             = fst (rec2 (forecast_move game m))) ->
  forall h best,
    minimax_fold rec1 game mx ms h best = minimax_fold rec2 game mx ms h best.
Proof.
  induction ms as [|m rest IH]; intros Hext h best; simpl; [reflexivity|].
  rewrite (Hext m (or_introl eq_refl)).
  assert (Hrest : forall m0, In m0 rest ->
                             fst (rec1 (forecast_move game m0))
                             = fst (rec2 (forecast_move game m0))).
  { intros m0 Hin. apply Hext. now right. }
  destruct mx.
  - destruct (gtb fcmp _ h); now apply IH.
  - destruct (ltb fcmp _ h); now apply IH.
Qed.

Lemma alphabeta_fold_ext rec1 rec2 game mx ms :
  (forall m al be,
      In m ms ->
      fst (rec1 (forecast_move game m) al be)
      = fst (rec2 (forecast_move game m) al be)) ->
  forall al be h best,
    alphabeta_fold rec1 game mx ms al be h best
    = alphabeta_fold rec2 game mx ms al be h best.
Proof.
  induction ms as [|m rest IH]; intros Hext al be h best; simpl;
    [reflexivity|].
  rewrite (Hext m al be (or_introl eq_refl)).
  assert (Hrest : forall m0 a0 b0,
             In m0 rest ->
             fst (rec1 (forecast_move game m0) a0 b0)
             = fst (rec2 (forecast_move game m0) a0 b0)).
  { intros m0 a0 b0 Hin. apply Hext. now right. }
  destruct mx.
  - destruct (gtb fcmp _ h).
    + destruct (geb fcmp _ be); [reflexivity | now apply IH].
    + destruct (geb fcmp h be); [reflexivity | now apply IH].
  - destruct (ltb fcmp _ h).
    + destruct (leb fcmp _ al); [reflexivity | now apply IH].
    + destruct (leb fcmp h al); [reflexivity | now apply IH].
Qed.

Lemma results_beyond_the_end game d :
  ends_within game d ->
  forall k mx al be,
    minimax_result game (d + k) mx = minimax_result game d mx
    /\ alphabeta_result game (d + k) al be mx
       = alphabeta_result game d al be mx.
Proof.
  induction 1 as [game d Hnone | game d _ IH]; intros k mx al be.
  - assert (M : forall n, minimax_result game n mx
                          = (score_fn self game (player_id self),
                             Flat NO_MOVE)).
    { intro n. destruct n; simpl; [reflexivity|]. now rewrite Hnone. }
    assert (A : forall n, alphabeta_result game n al be mx
                          = (score_fn self game (player_id self),
                             Flat NO_MOVE)).
    { intro n. destruct n; simpl; [reflexivity|]. now rewrite Hnone. }
    now rewrite !M, !A.
  - simpl.
    destruct (is_empty (get_legal_moves game)); [split; reflexivity|].
    split.
    + apply minimax_fold_ext. intros m Hin.
      now rewrite (proj1 (IH m Hin k (negb mx) NInf PInf)).
    + apply alphabeta_fold_ext. intros m a0 b0 Hin.
      now rewrite (proj2 (IH m Hin k (negb mx) a0 b0)).
Qed.

(** X16: searching deeper than the game lasts changes nothing.  If every
    line of play from the board runs out of legal moves within [depth]
    plies, then [minimax], and [alphabeta] with any window, return at any
    greater depth the score and move they return at [depth]; so the rounds
    of iterative deepening beyond that depth all give the same result. *)
Theorem search_beyond_the_end game depth k mx al be
        w1 r1 w1' w2 r2 w2' w3 r3 w3' w4 r4 w4' :
  ends_within game depth ->
  (minimax fcmp get_legal_moves forecast_move self time_left
           game depth mx w1 = (Ret r1, w1') ->
   minimax fcmp get_legal_moves forecast_move self time_left'
           game (depth + k) mx w2 = (Ret r2, w2') ->
   r2 = r1)
  /\ (alphabeta fcmp get_legal_moves forecast_move self time_left
                game depth al be mx w3 = (Ret r3, w3') ->
      alphabeta fcmp get_legal_moves forecast_move self time_left'
                game (depth + k) al be mx w4 = (Ret r4, w4') ->
      r4 = r3).
Proof.
  intro Hend.
  destruct (results_beyond_the_end Hend k mx al be) as [M A].
  split; intros H1 H2.
  - apply minimax_returns in H1, H2. now subst.
  - apply alphabeta_returns in H1, H2. now subst.
Qed.

End SaturationFacts.

(** ** The further properties on concrete runs *)

Lemma alphabeta_only_prunes_witness :
  minimax Z.compare tree_moves tree_forecast
          (tree_agent 2 false AlphaBeta 3) steady_clock with_cutoff 2 true []
  = (Ret (Fin 3%Z, Flat (0, 0)%Z),
     snd (minimax Z.compare tree_moves tree_forecast
            (tree_agent 2 false AlphaBeta 3) steady_clock with_cutoff 2 true []))
  /\ alphabeta Z.compare tree_moves tree_forecast
               (tree_agent 2 false AlphaBeta 3) steady_clock with_cutoff 2
               NInf PInf true []
     = (Ret (Fin 3%Z, Flat (0, 0)%Z),
        snd (alphabeta Z.compare tree_moves tree_forecast
               (tree_agent 2 false AlphaBeta 3) steady_clock with_cutoff 2
               NInf PInf true []))
  /\ exists evs1 evs2,
      snd (minimax Z.compare tree_moves tree_forecast
             (tree_agent 2 false AlphaBeta 3) steady_clock with_cutoff 2 true [])
      = [] ++ evs1
      /\ snd (alphabeta Z.compare tree_moves tree_forecast
                (tree_agent 2 false AlphaBeta 3) steady_clock with_cutoff 2
                NInf PInf true [])
         = [] ++ evs2
      /\ subsequence evs2 evs1
      /\ clock_reads evs2 <= clock_reads evs1
      /\ forecasts evs2 <= forecasts evs1
      /\ evaluations evs2 <= evaluations evs1.
Proof.
  assert (H1 : minimax Z.compare tree_moves tree_forecast
                 (tree_agent 2 false AlphaBeta 3) steady_clock
                 with_cutoff 2 true []
               = (Ret (Fin 3%Z, Flat (0, 0)%Z),
                  snd (minimax Z.compare tree_moves tree_forecast
                         (tree_agent 2 false AlphaBeta 3) steady_clock
                         with_cutoff 2 true [])))
    by reflexivity.
  assert (H2 : alphabeta Z.compare tree_moves tree_forecast
                 (tree_agent 2 false AlphaBeta 3) steady_clock with_cutoff 2
                 NInf PInf true []
               = (Ret (Fin 3%Z, Flat (0, 0)%Z),
                  snd (alphabeta Z.compare tree_moves tree_forecast
                         (tree_agent 2 false AlphaBeta 3) steady_clock
                         with_cutoff 2 NInf PInf true [])))
    by reflexivity.
  split; [exact H1|]. split; [exact H2|].
  exact (@alphabeta_only_prunes _ Z.compare _ _ tree_moves tree_forecast
           (tree_agent 2 false AlphaBeta 3) steady_clock steady_clock
           with_cutoff 2 true NInf PInf [] _ _ [] _ _ H1 H2).
Defined.

Lemma alphabeta_picks_minimax_move_witness :
  float_order Z.compare
  /\ minimax Z.compare tree_moves tree_forecast
             (tree_agent 2 false AlphaBeta 3) steady_clock second_thoughts 2
             true []
     = (Ret (Fin 2%Z, Flat (0, 1)%Z),
        snd (minimax Z.compare tree_moves tree_forecast
               (tree_agent 2 false AlphaBeta 3) steady_clock second_thoughts 2
               true []))
  /\ alphabeta Z.compare tree_moves tree_forecast
               (tree_agent 2 false AlphaBeta 3) steady_clock second_thoughts 2
               NInf PInf true []
     = (Ret (Fin 2%Z, Flat (0, 1)%Z),
        snd (alphabeta Z.compare tree_moves tree_forecast
               (tree_agent 2 false AlphaBeta 3) steady_clock second_thoughts 2
               NInf PInf true []))
  /\ (Fin 2%Z, Flat (0, 1)%Z) = (Fin 2%Z, Flat (0, 1)%Z).
Proof.
  assert (H1 : minimax Z.compare tree_moves tree_forecast
                 (tree_agent 2 false AlphaBeta 3) steady_clock
                 second_thoughts 2 true []
               = (Ret (Fin 2%Z, Flat (0, 1)%Z),
                  snd (minimax Z.compare tree_moves tree_forecast
                         (tree_agent 2 false AlphaBeta 3) steady_clock
                         second_thoughts 2 true [])))
    by reflexivity.
  assert (H2 : alphabeta Z.compare tree_moves tree_forecast
                 (tree_agent 2 false AlphaBeta 3) steady_clock
                 second_thoughts 2 NInf PInf true []
               = (Ret (Fin 2%Z, Flat (0, 1)%Z),
                  snd (alphabeta Z.compare tree_moves tree_forecast
                         (tree_agent 2 false AlphaBeta 3) steady_clock
                         second_thoughts 2 NInf PInf true [])))
    by reflexivity.
  split; [exact Z_compare_total|]. split; [exact H1|]. split; [exact H2|].
  exact (@alphabeta_picks_minimax_move _ Z.compare Z_compare_total _ _
           tree_moves tree_forecast (tree_agent 2 false AlphaBeta 3)
           steady_clock steady_clock second_thoughts 2 [] _ _ [] _ _ H1 H2).
Defined.

Lemma alphabeta_brackets_minimax_witness :
  float_order Z.compare
  /\ slt Z.compare (Fin 3%Z) PInf
  /\ minimax Z.compare tree_moves tree_forecast
             (tree_agent 2 false AlphaBeta 3) steady_clock
             (tree_forecast with_cutoff (0, 1)%Z) 1 false []
     = (Ret (Fin 2%Z, Flat (2, 0)%Z),
        snd (minimax Z.compare tree_moves tree_forecast
               (tree_agent 2 false AlphaBeta 3) steady_clock
               (tree_forecast with_cutoff (0, 1)%Z) 1 false []))
  /\ alphabeta Z.compare tree_moves tree_forecast
               (tree_agent 2 false AlphaBeta 3) steady_clock
               (tree_forecast with_cutoff (0, 1)%Z) 1 (Fin 3%Z) PInf false []
     = (Ret (Fin 2%Z, Flat (2, 0)%Z),
        snd (alphabeta Z.compare tree_moves tree_forecast
               (tree_agent 2 false AlphaBeta 3) steady_clock
               (tree_forecast with_cutoff (0, 1)%Z) 1 (Fin 3%Z) PInf false []))
  /\ within_window Z.compare (Fin 3%Z) PInf
       (fst (Fin 2%Z, Flat (2, 0)%Z)) (fst (Fin 2%Z, Flat (2, 0)%Z)).
Proof.
  assert (H0 : slt Z.compare (Fin 3%Z) PInf) by reflexivity.
  assert (H1 : minimax Z.compare tree_moves tree_forecast
                 (tree_agent 2 false AlphaBeta 3) steady_clock
                 (tree_forecast with_cutoff (0, 1)%Z) 1 false []
               = (Ret (Fin 2%Z, Flat (2, 0)%Z),
                  snd (minimax Z.compare tree_moves tree_forecast
                         (tree_agent 2 false AlphaBeta 3) steady_clock
                         (tree_forecast with_cutoff (0, 1)%Z) 1 false [])))
    by reflexivity.
  assert (H2 : alphabeta Z.compare tree_moves tree_forecast
                 (tree_agent 2 false AlphaBeta 3) steady_clock
                 (tree_forecast with_cutoff (0, 1)%Z) 1 (Fin 3%Z) PInf
                 false []
               = (Ret (Fin 2%Z, Flat (2, 0)%Z),
                  snd (alphabeta Z.compare tree_moves tree_forecast
                         (tree_agent 2 false AlphaBeta 3) steady_clock
                         (tree_forecast with_cutoff (0, 1)%Z) 1 (Fin 3%Z)
                         PInf false [])))
    by reflexivity.
  split; [exact Z_compare_total|]. split; [exact H0|].
  split; [exact H1|]. split; [exact H2|].
  exact (@alphabeta_brackets_minimax _ Z.compare Z_compare_total _ _
           tree_moves tree_forecast (tree_agent 2 false AlphaBeta 3)
           steady_clock steady_clock (tree_forecast with_cutoff (0, 1)%Z)
           1 false (Fin 3%Z) PInf [] _ _ [] _ _ H0 H1 H2).
Defined.

Lemma get_move_returns_sentinel_or_legal_witness :
  get_move Z.compare tree_moves tree_forecast
    (tree_agent 1 false AlphaBeta 3) steady_clock
    0 two_moves [(6, 6)%Z] []
  = Some (Ret (Flat (0, 0)%Z),
          [ReadClock;
           Forecast two_moves (0, 0)%Z; ReadClock; Evaluate (leaf 5);
           Forecast two_moves (0, 1)%Z; ReadClock; Evaluate (leaf 3)])
  /\ sentinel_or_legal (tree_moves two_moves) (Flat (0, 0)%Z).
Proof.
  assert (H : get_move Z.compare tree_moves tree_forecast
                (tree_agent 1 false AlphaBeta 3) steady_clock
                0 two_moves [(6, 6)%Z] []
              = Some (Ret (Flat (0, 0)%Z),
                      [ReadClock;
                       Forecast two_moves (0, 0)%Z; ReadClock;
                       Evaluate (leaf 5);
                       Forecast two_moves (0, 1)%Z; ReadClock;
                       Evaluate (leaf 3)]))
    by reflexivity.
  split; [exact H|].
  exact (@get_move_returns_sentinel_or_legal _ Z.compare _ _
           tree_moves tree_forecast (tree_agent 1 false AlphaBeta 3)
           steady_clock 0 two_moves [(6, 6)%Z] [] _ _ H).
Defined.

Lemma minimax_selection_witness :
  float_order Z.compare
  /\ tree_moves two_moves <> []
  /\ minimax Z.compare tree_moves tree_forecast
             (tree_agent 1 false Minimax 3) steady_clock two_moves 1 false []
     = (Ret (Fin 3%Z, Flat (0, 1)%Z),
        snd (minimax Z.compare tree_moves tree_forecast
               (tree_agent 1 false Minimax 3) steady_clock two_moves 1
               false []))
  /\ exists pre m post,
      tree_moves two_moves = pre ++ m :: post
      /\ Flat (0, 1)%Z = Flat m
      /\ Fin 3%Z
         = fst (minimax_result Z.compare tree_moves tree_forecast
                  (tree_agent 1 false Minimax 3) (tree_forecast two_moves m)
                  0 (negb false))
      /\ forall m',
          In m' pre ->
          slt Z.compare (Fin 3%Z)
              (fst (minimax_result Z.compare tree_moves tree_forecast
                      (tree_agent 1 false Minimax 3)
                      (tree_forecast two_moves m') 0 (negb false))).
Proof.
  assert (H0 : tree_moves two_moves <> []) by discriminate.
  assert (H1 : minimax Z.compare tree_moves tree_forecast
                 (tree_agent 1 false Minimax 3) steady_clock two_moves 1
                 false []
               = (Ret (Fin 3%Z, Flat (0, 1)%Z),
                  snd (minimax Z.compare tree_moves tree_forecast
                         (tree_agent 1 false Minimax 3) steady_clock
                         two_moves 1 false [])))
    by reflexivity.
  split; [exact Z_compare_total|]. split; [exact H0|]. split; [exact H1|].
  destruct (proj2 (@minimax_selection _ Z.compare Z_compare_total _ _
                     tree_moves tree_forecast (tree_agent 1 false Minimax 3)
                     steady_clock two_moves 0 false [] _ _ _ H0 H1))
    as [[E _] | G].
  - discriminate E.
  - exact G.
Defined.

Lemma iterative_deepening_selection_witness :
  float_order Z.compare
  /\ tree_moves second_thoughts <> []
  /\ iterative (tree_agent 3 true AlphaBeta 3) = true
  /\ clock_reads (@nil (event tree)) <= 10
  /\ expired (tree_agent 3 true AlphaBeta 3) (draining_clock 100) 10 = true
  /\ exists rounds w' mv,
      completed_rounds Z.compare tree_moves tree_forecast
        (tree_agent 3 true AlphaBeta 3) (draining_clock 100)
        second_thoughts 1 [] rounds w'
      /\ (forall fuel,
             length rounds < fuel ->
             get_move Z.compare tree_moves tree_forecast
               (tree_agent 3 true AlphaBeta 3) (draining_clock 100)
               fuel second_thoughts (tree_moves second_thoughts) []
             = Some (Ret mv, w'))
      /\ ((mv = Flat NO_MOVE /\ forall r, In r rounds -> fst r = NInf)
          \/ exists pre r post,
              rounds = pre ++ r :: post
              /\ mv = snd r
              /\ (forall r', In r' rounds -> sle Z.compare (fst r') (fst r))
              /\ (forall r', In r' pre -> slt Z.compare (fst r') (fst r))).
Proof.
  assert (H1 : tree_moves second_thoughts <> []) by discriminate.
  assert (H2 : iterative (tree_agent 3 true AlphaBeta 3) = true) by reflexivity.
  assert (H3 : clock_reads (@nil (event tree)) <= 10) by (vm_compute; lia).
  assert (H4 : expired (tree_agent 3 true AlphaBeta 3) (draining_clock 100) 10
               = true) by reflexivity.
  split; [exact Z_compare_total|].
  repeat (split; [assumption|]).
  exact (@iterative_deepening_selection _ Z.compare Z_compare_total _ _
           tree_moves tree_forecast (tree_agent 3 true AlphaBeta 3)
           (draining_clock 100) second_thoughts (tree_moves second_thoughts)
           [] 10 H1 H2 H3 H4).
Defined.

Lemma iterative_get_move_returns_iff_witness :
  tree_moves two_moves <> []
  /\ iterative (tree_agent 3 true Minimax 3) = true
  /\ ((exists fuel res,
          get_move Z.compare tree_moves tree_forecast
            (tree_agent 3 true Minimax 3) (draining_clock 100)
            fuel two_moves (tree_moves two_moves) [] = Some res)
      <-> exists n,
          clock_reads (@nil (event tree)) <= n
          /\ expired (tree_agent 3 true Minimax 3) (draining_clock 100) n
             = true).
Proof.
  assert (H1 : tree_moves two_moves <> []) by discriminate.
  assert (H2 : iterative (tree_agent 3 true Minimax 3) = true) by reflexivity.
  split; [exact H1|]. split; [exact H2|].
  exact (@iterative_get_move_returns_iff _ Z.compare _ _
           tree_moves tree_forecast (tree_agent 3 true Minimax 3)
           (draining_clock 100) two_moves (tree_moves two_moves) [] H1 H2).
Defined.

Lemma get_move_out_of_time_witness :
  tree_moves two_moves <> []
  /\ expired (tree_agent 3 true Minimax 3) (draining_clock 0)
             (clock_reads (@nil (event tree))) = true
  /\ (iterative (tree_agent 3 true Minimax 3) = false \/ 0 < 1)
  /\ get_move Z.compare tree_moves tree_forecast
       (tree_agent 3 true Minimax 3) (draining_clock 0)
       1 two_moves (tree_moves two_moves) []
     = Some (Ret (Flat NO_MOVE), [] ++ [ReadClock]).
Proof.
  assert (H1 : tree_moves two_moves <> []) by discriminate.
  assert (H2 : expired (tree_agent 3 true Minimax 3) (draining_clock 0)
                       (clock_reads (@nil (event tree))) = true)
    by reflexivity.
  assert (H3 : iterative (tree_agent 3 true Minimax 3) = false \/ 0 < 1)
    by (right; lia).
  split; [exact H1|]. split; [exact H2|]. split; [exact H3|].
  exact (@get_move_out_of_time _ Z.compare _ _
           tree_moves tree_forecast (tree_agent 3 true Minimax 3)
           (draining_clock 0) 1 two_moves (tree_moves two_moves) []
           H1 H2 H3).
Defined.

(** The clock reads 45, 35, 25 during the round at depth 1, then 15, 5 and
    -5: the round at depth 2 is cancelled at reading number 5. *)
Lemma completed_rounds_bound_witness :
  completed_rounds Z.compare tree_moves tree_forecast
    (tree_agent 3 true Minimax 3) (draining_clock 45) two_moves 1 []
    [(Fin 5%Z, Flat (0, 0)%Z)]
    (snd (top_level_search Z.compare tree_moves tree_forecast
            (tree_agent 3 true Minimax 3) (draining_clock 45) two_moves 2
            (snd (top_level_search Z.compare tree_moves tree_forecast
                    (tree_agent 3 true Minimax 3) (draining_clock 45)
                    two_moves 1 []))))
  /\ clock_reads (@nil (event tree)) <= 5
  /\ expired (tree_agent 3 true Minimax 3) (draining_clock 45) 5 = true
  /\ length [(Fin 5%Z, Flat (0, 0)%Z)] <= 5 - clock_reads (@nil (event tree)).
Proof.
  assert (H1 : completed_rounds Z.compare tree_moves tree_forecast
                 (tree_agent 3 true Minimax 3) (draining_clock 45)
                 two_moves 1 []
                 [(Fin 5%Z, Flat (0, 0)%Z)]
                 (snd (top_level_search Z.compare tree_moves tree_forecast
                         (tree_agent 3 true Minimax 3) (draining_clock 45)
                         two_moves 2
                         (snd (top_level_search Z.compare tree_moves
                                 tree_forecast (tree_agent 3 true Minimax 3)
                                 (draining_clock 45) two_moves 1 []))))).
  { apply rounds_completed
      with (w1 := snd (top_level_search Z.compare tree_moves tree_forecast
                         (tree_agent 3 true Minimax 3) (draining_clock 45)
                         two_moves 1 []));
      [reflexivity|].
    apply rounds_cancelled. reflexivity. }
  assert (H2 : clock_reads (@nil (event tree)) <= 5) by (vm_compute; lia).
  assert (H3 : expired (tree_agent 3 true Minimax 3) (draining_clock 45) 5
               = true) by reflexivity.
  split; [exact H1|]. split; [exact H2|]. split; [exact H3|].
  exact (@completed_rounds_bound _ Z.compare _ _
           tree_moves tree_forecast (tree_agent 3 true Minimax 3)
           (draining_clock 45) two_moves 1 [] _ _ 5 H1 H2 H3).
Defined.

Lemma search_beyond_the_end_witness :
  ends_within tree_moves tree_forecast two_moves 1
  /\ minimax Z.compare tree_moves tree_forecast
             (tree_agent 3 true Minimax 3) steady_clock two_moves 1 true []
     = (Ret (Fin 5%Z, Flat (0, 0)%Z),
        snd (minimax Z.compare tree_moves tree_forecast
               (tree_agent 3 true Minimax 3) steady_clock two_moves 1
               true []))
  /\ minimax Z.compare tree_moves tree_forecast
             (tree_agent 3 true Minimax 3) steady_clock two_moves (1 + 4)
             true []
     = (Ret (Fin 5%Z, Flat (0, 0)%Z),
        snd (minimax Z.compare tree_moves tree_forecast
               (tree_agent 3 true Minimax 3) steady_clock two_moves (1 + 4)
               true []))
  /\ (Fin 5%Z, Flat (0, 0)%Z) = (Fin 5%Z, Flat (0, 0)%Z).
Proof.
  assert (H : ends_within tree_moves tree_forecast two_moves 1).
  { apply ends_later. intros m Hin. apply ends_now.
    simpl in Hin. destruct Hin as [E | [E | []]]; subst m; reflexivity. }
  assert (H1 : minimax Z.compare tree_moves tree_forecast
                 (tree_agent 3 true Minimax 3) steady_clock two_moves 1
                 true []
               = (Ret (Fin 5%Z, Flat (0, 0)%Z),
                  snd (minimax Z.compare tree_moves tree_forecast
                         (tree_agent 3 true Minimax 3) steady_clock
                         two_moves 1 true [])))
    by reflexivity.
  assert (H2 : minimax Z.compare tree_moves tree_forecast
                 (tree_agent 3 true Minimax 3) steady_clock two_moves (1 + 4)
                 true []
               = (Ret (Fin 5%Z, Flat (0, 0)%Z),
                  snd (minimax Z.compare tree_moves tree_forecast
                         (tree_agent 3 true Minimax 3) steady_clock
                         two_moves (1 + 4) true [])))
    by reflexivity.
  split; [exact H|]. split; [exact H1|]. split; [exact H2|].
  exact (proj1 (@search_beyond_the_end _ Z.compare _ _
                  tree_moves tree_forecast (tree_agent 3 true Minimax 3)
                  steady_clock steady_clock two_moves 1 4 true NInf PInf
                  [] _ _ [] _ _ [] (Fin 0%Z, Flat NO_MOVE) [] []
                  (Fin 0%Z, Flat NO_MOVE) [] H) H1 H2).
Defined.
